(** * RTC::Peer of the mediasoup worker (worker/src/RTC/Peer.cpp)

    A shallow embedding of the Peer: its three entity maps, the request
    dispatcher [HandleRequest], the SSRC index [GetConsumer], the RTCP
    sender [SendRtcp], the RTCP demultiplexer [OnTransportRtcpPacket],
    the destruction cascade [Destroy] and the RTCP interval timer
    [OnTimer].

    Conventions.
    - [uint32_t] and [uint64_t] values are [Z]; wrap-around is written
      out where the source can wrap.
    - A [std::unordered_map<uint32_t, T*>] is an association list in the
      map's iteration order with unique keys.
    - A pointer to a Transport held by a Producer or a Consumer is the
      Transport's id ([None] for [nullptr]); ids are the keys of
      [transports].
    - [float] is IEEE 754 binary32, computed with the operations of
      SpecFloat at precision 24 and maximal exponent 128.
    - Every call the Peer makes on a collaborator (Transport, Producer,
      Consumer, listener, notifier, request, timer, logger) is recorded,
      in program order, as an [Event] of a trace.
    - A C++ exception leaving a function is the outcome [Thrown]. *)

From Stdlib Require Import ZArith List String Bool Lia Permutation.
From Stdlib Require Import Floats.SpecFloat.
Import ListNotations.

Open Scope string_scope.
Open Scope list_scope.
Open Scope Z_scope.

Set Warnings "-register-all".

(** ** Machine integers *)

Definition wrap32 (z : Z) : Z := z mod 2 ^ 32.

Definition UINT32_MAX : Z := 4294967295.

(** ** JSON values (the jsoncpp subset the Peer inspects) *)

Module Json.

Inductive Value : Type :=
| Null
| Boolean (b : bool)
| Num (n : Z)
| Str (s : string)
| Arr (items : list Value)
| Obj (members : list (string * Value)).

(* Json::Value::isUInt(): an integral number in the range of unsigned int. *)
Definition isUInt (v : Value) : bool :=
  match v with
  | Num n => (0 <=? n) && (n <=? UINT32_MAX)
  | _ => false
  end.

Definition asUInt (v : Value) : Z :=
  match v with
  | Num n => n
  | _ => 0
  end.

Definition isString (v : Value) : bool :=
  match v with
  | Str _ => true
  | _ => false
  end.

Definition asString (v : Value) : string :=
  match v with
  | Str s => s
  | _ => ""
  end.

Fixpoint lookup (key : string) (members : list (string * Value)) : Value :=
  match members with
  | [] => Null
  | (k, v) :: rest => if String.eqb k key then v else lookup key rest
  end.

(* operator[](key): the member, or null when there is none. *)
Definition get (v : Value) (key : string) : Value :=
  match v with
  | Obj members => lookup key members
  | _ => Null
  end.

End Json.

(** ** Media kinds and RTP parameters (RtpDictionaries) *)

Inductive Kind : Type := AUDIO | VIDEO | DEPTH.

(** Modelled from the spec: [RTC::Media::GetKind] is declared in
    RtpDictionaries.hpp and defined outside this file; a kind is one of
    audio, video, depth, and any other string is an invalid kind, which
    raises a MediaSoupError. *)
Definition Media_GetKind (kind : string) : string + Kind :=
  if String.eqb kind "audio" then inr AUDIO
  else if String.eqb kind "video" then inr VIDEO
  else if String.eqb kind "depth" then inr DEPTH
  else inl "invalid media kind".

Record RtpFecParameters : Type := { fec_ssrc : Z }.

Record RtpRtxParameters : Type := { rtx_ssrc : Z }.

Record RtpEncodingParameters : Type := {
  ssrc : Z;
  hasFec : bool;
  fec : RtpFecParameters;
  hasRtx : bool;
  rtx : RtpRtxParameters
}.

Record RtpParameters : Type := {
  encodings : list RtpEncodingParameters
}.

(* Parsed capabilities are kept in their JSON form. *)
Definition RtpCapabilities : Type := Json.Value.

(** ** The entities a Peer owns *)

Record Transport : Type := {
  transportId : Z;
  remb : bool
}.

Record Producer : Type := {
  producerId : Z;
  producer_kind : Kind;
  producer_transport : option Z
}.

Record Consumer : Type := {
  consumerId : Z;
  consumer_kind : Kind;
  active : bool;
  consumer_transport : option Z;
  rtpParameters : option RtpParameters
}.

(** Modelled from the spec: [Transport::HasRemb] and
    [Transport::EnableRemb] are inline members of Transport.hpp, which is
    not in this file; the Transport exposes whether REMB is enabled and a
    way to enable it. *)
Definition HasRemb (t : Transport) : bool := remb t.

Definition EnableRemb (t : Transport) : Transport :=
  {| transportId := transportId t; remb := true |}.

(* Producer::SetTransport and Consumer::SetTransport store the pointer. *)
Definition Producer_SetTransport (p : Producer) (t : Z) : Producer :=
  {| producerId := producerId p;
     producer_kind := producer_kind p;
     producer_transport := Some t |}.

Definition Consumer_SetTransport (c : Consumer) (t : Z) : Consumer :=
  {| consumerId := consumerId c;
     consumer_kind := consumer_kind c;
     active := active c;
     consumer_transport := Some t;
     rtpParameters := rtpParameters c |}.

(** ** Entity maps *)

Section Maps.

Context {A : Type}.

Definition Map : Type := list (Z * A).

Fixpoint map_find (k : Z) (m : Map) : option A :=
  match m with
  | [] => None
  | (k', v) :: rest => if k' =? k then Some v else map_find k rest
  end.

(* m[k] = v: the value of an existing key is replaced where it stands; a
   new key takes a place of the container's choosing, here the last. *)
Fixpoint map_set (k : Z) (v : A) (m : Map) : Map :=
  match m with
  | [] => [(k, v)]
  | (k', v') :: rest =>
      if k' =? k then (k, v) :: rest else (k', v') :: map_set k v rest
  end.

Fixpoint map_erase (k : Z) (m : Map) : Map :=
  match m with
  | [] => []
  | (k', v) :: rest =>
      if k' =? k then map_erase k rest else (k', v) :: map_erase k rest
  end.

Definition map_values (m : Map) : list A := map snd m.

Definition map_keys (m : Map) : list Z := map fst m.

End Maps.

Arguments Map A : clear implicits.

(** ** The Peer *)

Record Peer : Type := {
  peerId : Z;
  peerName : string;
  hasCapabilities : bool;
  capabilities : RtpCapabilities;
  transports : Map Transport;
  producers : Map Producer;
  consumers : Map Consumer
}.

(** ** Peer::GetConsumer (the SSRC index) *)

(* The inner loop over the encodings of one Consumer: [Some consumer] is
   a [return consumer], [None] is the loop running to its end. *)
Fixpoint GetConsumer_encodings (consumer : Consumer) (s : Z)
  (encs : list RtpEncodingParameters) : option Consumer :=
  match encs with
  | [] => None
  | encoding :: rest =>
      if ssrc encoding =? s then Some consumer
      else if hasFec encoding && (fec_ssrc (fec encoding) =? s) then Some consumer
      else if hasRtx encoding && (rtx_ssrc (rtx encoding) =? s) then Some consumer
      else GetConsumer_encodings consumer s rest
  end.

Fixpoint GetConsumer_loop (cs : Map Consumer) (s : Z) : option Consumer :=
  match cs with
  | [] => None
  | (_, consumer) :: rest =>
      match rtpParameters consumer with
      | None => GetConsumer_loop rest s
      | Some parameters =>
          match GetConsumer_encodings consumer s (encodings parameters) with
          | Some found => Some found
          | None => GetConsumer_loop rest s
          end
      end
  end.

Definition GetConsumer (p : Peer) (s : Z) : option Consumer :=
  GetConsumer_loop (consumers p) s.

(** The SSRC index in the words of its description: an encoding matches
    an SSRC through its primary, FEC or RTX ssrc; a Consumer claims an
    SSRC when one of its encodings matches it. *)
Definition encoding_matches (s : Z) (e : RtpEncodingParameters) : bool :=
  (ssrc e =? s)
  || (hasFec e && (fec_ssrc (fec e) =? s))
  || (hasRtx e && (rtx_ssrc (rtx e) =? s)).

Definition consumer_claims (s : Z) (c : Consumer) : bool :=
  match rtpParameters c with
  | None => false
  | Some parameters => existsb (encoding_matches s) (encodings parameters)
  end.

Definition first_claiming_consumer (cs : Map Consumer) (s : Z) : option Consumer :=
  find (consumer_claims s) (map_values cs).

(** ** RTCP packets, as the parser hands them to the Peer *)

Module FeedbackPs.

Inductive MessageType : Type :=
| PLI | SLI | RPSI | FIR | TSTR | TSTN | VBCM | PSLEI | ROI | AFB | EXT.

End FeedbackPs.

Module FeedbackRtp.

Inductive MessageType : Type :=
| NACK | TMMBR | TMMBN | SR_REQ | RAMS | TLLEI | ECN | PS | EXT.

End FeedbackRtp.

Module RTCP.

(* FeedbackPsAfbPacket::Application *)
Inductive Application : Type := UNKNOWN | REMB.

(* A payload-specific feedback packet; [ps_application] is read only
   when the message type is AFB. *)
Record FeedbackPsPacket : Type := {
  ps_messageType : FeedbackPs.MessageType;
  ps_mediaSsrc : Z;
  ps_application : Application
}.

Record FeedbackRtpPacket : Type := {
  rtp_messageType : FeedbackRtp.MessageType;
  rtp_mediaSsrc : Z
}.

Record ReceiverReport : Type := { rr_ssrc : Z }.

Record SenderReport : Type := { sr_ssrc : Z }.

Record SdesChunk : Type := { sdes_ssrc : Z }.

(* Packet::GetType() with the downcast the Peer performs on it. *)
Inductive Packet : Type :=
| RR (reports : list ReceiverReport)
| SR (reports : list SenderReport)
| SDES (chunks : list SdesChunk)
| PSFB (feedback : FeedbackPsPacket)
| RTPFB (feedback : FeedbackRtpPacket)
| BYE
| OTHER (type : Z).

(* What the Peer observes of a CompoundPacket under construction. *)
Record CompoundPacket : Type := {
  senderReportCount : Z;
  receiverReportCount : Z;
  size : Z
}.

(* new RTC::RTCP::CompoundPacket() *)
Definition new_CompoundPacket : CompoundPacket :=
  {| senderReportCount := 0; receiverReportCount := 0; size := 0 |}.

End RTCP.

(** ** Control-plane requests *)

Inductive MethodId : Type :=
| PEER_CLOSE
| PEER_DUMP
| PEER_SET_CAPABILITIES
| PEER_CREATE_TRANSPORT
| PEER_CREATE_PRODUCER
| TRANSPORT_CLOSE
| TRANSPORT_DUMP
| TRANSPORT_SET_REMOTE_DTLS_PARAMETERS
| TRANSPORT_SET_MAX_BITRATE
| TRANSPORT_CHANGE_UFRAG_PWD
| PRODUCER_CLOSE
| PRODUCER_DUMP
| PRODUCER_RECEIVE
| PRODUCER_SET_RTP_RAW_EVENT
| PRODUCER_SET_RTP_OBJECT_EVENT
| PRODUCER_SET_TRANSPORT
| CONSUMER_DUMP
| CONSUMER_SET_TRANSPORT
| CONSUMER_DISABLE
| OTHER_METHOD.

Record Request : Type := {
  methodId : MethodId;
  internal : Json.Value;
  data : Json.Value
}.

(** ** Traces *)

(* The value handed to Request::Accept. *)
Inductive Payload : Type :=
| NoPayload
| PeerJson (p : Peer)
| CapabilitiesJson (c : RtpCapabilities)
| TransportJson (t : Transport).

(* The calls that the Peer's callbacks, and AddConsumer, make on the
   collaborators. *)
Inductive Call : Type :=
(* listener (Room) *)
| OnFullFrameRequired (consumer : Z)
| OnPeerProducerClosed (producer : Z)
| OnPeerConsumerClosed (consumer : Z)
(* notifier: the "newconsumer" event *)
| EmitNewConsumer (peer consumer associatedProducer : Z)
(* Transport *)
| TransportRemoveProducer (transport producer : Z)
(* Producer *)
| ProducerRemoveTransport (producer transport : Z)
| ProducerRequestFullFrame (producer : Z)
(* Consumer *)
| ConsumerRemoveTransport (consumer transport : Z)
| ConsumerSetPeerCapabilities (consumer : Z)
| ConsumerSend (consumer : Z).

(* The arguments of one call of Peer::AddConsumer. *)
Record NewConsumer : Type := {
  added_consumer : Consumer;
  added_parameters : RtpParameters;
  added_associatedProducerId : Z
}.

(* The up-call OnPeerCapabilities and a request handed to a Transport or
   a Producer carry [during]: the calls that the Peer makes, in order,
   in the functions the callee calls back before it returns
   (AddConsumer; OnTransportClosed; OnProducerClosed). *)
Inductive Event : Type :=
(* request *)
| RequestAccept (result : Payload)
| RequestReject (reason : string)
(* listener (Room) *)
| OnPeerClosed (peer : Z)
| OnPeerCapabilities (peer : Z) (during : list Call)
| OnPeerRtcpReceiverReport (consumer : Z) (report : RTCP.ReceiverReport)
| OnPeerRtcpSenderReport (producer : Z) (report : RTCP.SenderReport)
| OnPeerRtcpFeedback (consumer : Z) (feedback : RTCP.FeedbackPsPacket)
(* notifier *)
| NotifierEmit (target : Z) (event : string)
(* Transport *)
| TransportDestroy (transport : Z)
| TransportHandleRequest (transport : Z) (request : Request) (during : list Call)
| TransportAddProducer (transport producer : Z)
| TransportEnableRemb (transport : Z)
| TransportSendRtcpCompoundPacket (transport : Z) (packet : RTCP.CompoundPacket)
(* Producer *)
| ProducerDestroy (producer : Z)
| ProducerHandleRequest (producer : Z) (request : Request) (during : list Call)
| ProducerSetTransport (producer transport : Z)
| ProducerGetRtcp (producer : Z) (now : Z)
(* Consumer *)
| ConsumerDestroy (consumer : Z)
| ConsumerHandleRequest (consumer : Z) (request : Request)
| ConsumerSetTransport (consumer transport : Z)
| ConsumerGetRtcp (consumer : Z) (now : Z)
| ConsumerReceiveNack (consumer : Z) (packet : RTCP.FeedbackRtpPacket)
(* timer *)
| TimerStart (interval : Z)
| TimerDestroy
(* logger: the format string and its arguments *)
| LogWarn (format : string) (args : list Z)
| LogDebug (format : string) (args : list Z)
| LogError (format : string).

Definition Trace : Type := list Event.

Inductive Outcome : Type :=
| Returned
(* a MediaSoupError leaves the function *)
| Thrown (what : string)
(* a Transport pointer is followed that is no key of [transports] *)
| Undefined
(* an MS_ASSERT fails, which ends the process *)
| Aborted.

Record Result : Type := {
  outcome : Outcome;
  peer_after : Peer;
  trace : Trace
}.

Definition is_accept (e : Event) : bool :=
  match e with
  | RequestAccept _ => true
  | _ => false
  end.

Definition is_reject (e : Event) : bool :=
  match e with
  | RequestReject _ => true
  | _ => false
  end.


(* How many times the request was answered. *)
Definition answers (t : Trace) : nat :=
  List.length (filter (fun e => is_accept e || is_reject e) t).

(* Up-calls into the listener (the Room), and warnings, of a trace. *)
Definition is_upcall (e : Event) : bool :=
  match e with
  | OnPeerClosed _
  | OnPeerCapabilities _ _
  | OnPeerRtcpReceiverReport _ _
  | OnPeerRtcpSenderReport _ _
  | OnPeerRtcpFeedback _ _ => true
  | _ => false
  end.

Definition upcalls (t : Trace) : Trace := filter is_upcall t.

Definition is_warning (e : Event) : bool :=
  match e with
  | LogWarn _ _ => true
  | _ => false
  end.

Definition warnings (t : Trace) : Trace := filter is_warning t.

Definition is_OnPeerClosed (e : Event) : bool :=
  match e with
  | OnPeerClosed _ => true
  | _ => false
  end.

(** ** Single-precision arithmetic (IEEE 754 binary32) *)

Module Float32.

Definition prec : Z := 24.

Definition emax : Z := 128.

Definition float : Type := spec_float.

(* Conversion of an unsigned integer, rounding to nearest even. *)
Definition of_uint (z : Z) : float := binary_normalize prec emax z 0 false.

Definition mul (x y : float) : float := SFmul prec emax x y.

Definition div (x y : float) : float := SFdiv prec emax x y.

(* Conversion to an unsigned integer discards the fractional part. The
   conversion of a value that has no integer part to speak of (an
   infinity, a NaN, a negative number) is left at 0. *)
Definition to_uint (x : float) : Z :=
  match x with
  | S754_finite false m e =>
      match e with
      | Z0 => Zpos m
      | Zpos n => Z.shiftl (Zpos m) (Zpos n)
      | Zneg n => Z.shiftr (Zpos m) (Zpos n)
      end
  | _ => 0
  end.

End Float32.

(* What a shift record of SpecFloat holds after k right shifts of P: the
   quotient, with the round and sticky bits clear when nothing was
   shifted out. *)
Definition shifted (P k : Z) (r : shr_record) : Prop :=
  0 <= k
  /\ shr_m r = P / 2 ^ k
  /\ (P mod 2 ^ k = 0 -> shr_r r = false /\ shr_s r = false).

(** ** A concrete Peer and concrete collaborators, for the examples *)

Module Scenario.

Definition encoding (s : Z) : RtpEncodingParameters :=
  {| ssrc := s;
     hasFec := false;
     fec := {| fec_ssrc := 0 |};
     hasRtx := true;
     rtx := {| rtx_ssrc := s + 1 |} |}.

Definition transport10 : Transport := {| transportId := 10; remb := true |}.

Definition transport11 : Transport := {| transportId := 11; remb := false |}.

Definition producer100 : Producer :=
  {| producerId := 100; producer_kind := VIDEO; producer_transport := Some 10 |}.

Definition consumer200 : Consumer :=
  {| consumerId := 200;
     consumer_kind := VIDEO;
     active := true;
     consumer_transport := Some 10;
     rtpParameters := Some {| encodings := [encoding 1000] |} |}.

Definition consumer201 : Consumer :=
  {| consumerId := 201;
     consumer_kind := VIDEO;
     active := false;
     consumer_transport := Some 11;
     rtpParameters := Some {| encodings := [encoding 2000] |} |}.

Definition alice : Peer :=
  {| peerId := 1;
     peerName := "alice";
     hasCapabilities := true;
     capabilities := Json.Null;
     transports := [(10, transport10); (11, transport11)];
     producers := [(100, producer100)];
     consumers := [(200, consumer200); (201, consumer201)] |}.

(* A Peer that has not received its capabilities yet. *)
Definition bob : Peer :=
  {| peerId := 2;
     peerName := "bob";
     hasCapabilities := false;
     capabilities := Json.Null;
     transports := [];
     producers := [];
     consumers := [] |}.

Definition request (m : MethodId) (internal data : list (string * Json.Value)) : Request :=
  {| methodId := m; internal := Json.Obj internal; data := Json.Obj data |}.

(* PEER_CREATE_PRODUCER for a new Producer 101 on Transport 10, without
   a kind. *)
Definition create_producer_without_kind : Request :=
  request PEER_CREATE_PRODUCER
    [("producerId", Json.Num 101); ("transportId", Json.Num 10)] [].

(* PRODUCER_SET_TRANSPORT moving Producer 100 to Transport 11, and moving
   it to the Transport 10 it is on. *)
Definition set_transport_100_to_11 : Request :=
  request PRODUCER_SET_TRANSPORT
    [("producerId", Json.Num 100); ("transportId", Json.Num 11)] [].

Definition set_capabilities : Request :=
  request PEER_SET_CAPABILITIES [] [("codecs", Json.Arr [])].

(* Alice with Producer 100 on Transport 11, which has no REMB. *)
Definition alice_without_remb : Peer :=
  {| peerId := 1;
     peerName := "alice";
     hasCapabilities := true;
     capabilities := Json.Null;
     transports := [(10, transport10); (11, transport11)];
     producers :=
       [(100, {| producerId := 100; producer_kind := VIDEO;
                 producer_transport := Some 11 |})];
     consumers := [(200, consumer200); (201, consumer201)] |}.

Definition set_transport_100_to_10 : Request :=
  request PRODUCER_SET_TRANSPORT
    [("producerId", Json.Num 100); ("transportId", Json.Num 10)] [].

(* Alice with Transport 11 alone. *)
Definition alice_transport11_only : Peer :=
  {| peerId := 1;
     peerName := "alice";
     hasCapabilities := true;
     capabilities := Json.Null;
     transports := [(11, transport11)];
     producers := [(100, producer100)];
     consumers := [(200, consumer200); (201, consumer201)] |}.

(* A PLI for the active Consumer 200, a NACK for the inactive Consumer
   201 (on its RTX ssrc). *)
Definition pli_1000 : RTCP.FeedbackPsPacket :=
  {| RTCP.ps_messageType := FeedbackPs.PLI;
     RTCP.ps_mediaSsrc := 1000;
     RTCP.ps_application := RTCP.UNKNOWN |}.

Definition nack_2001 : RTCP.FeedbackRtpPacket :=
  {| RTCP.rtp_messageType := FeedbackRtp.NACK; RTCP.rtp_mediaSsrc := 2001 |}.

(* Capabilities that always parse; a Room that keeps them as they are. *)
Definition capabilities_new (d : Json.Value) : string + RtpCapabilities := inr d.

(* A Room without Producers: it leaves the capabilities as they are and
   has no Consumer to install. *)
Definition on_capabilities (_ : Peer) (c : RtpCapabilities)
  : RtpCapabilities * list NewConsumer := (c, []).

Definition transport_new (_ : Z) (_ : Json.Value) : option string := None.

(* A Transport that takes every Producer, and one that refuses Producer 100. *)
Definition add_producer (_ : Transport) (_ : Producer) : option string := None.

Definition add_producer_refused (_ : Transport) (p : Producer) : option string :=
  if producerId p =? 100 then Some "ssrc already exists in RTP listener" else None.

Definition get_producer (_ : Transport) (_ : Z) : option Z := None.

(* Consumer 200 contributes a sender report of 70000 bytes, any other
   Consumer one of 52 bytes. *)
Definition consumer_rtcp (c : Consumer) (packet : RTCP.CompoundPacket) (_ : Z)
  : RTCP.CompoundPacket :=
  {| RTCP.senderReportCount := RTCP.senderReportCount packet + 1;
     RTCP.receiverReportCount := RTCP.receiverReportCount packet;
     RTCP.size := RTCP.size packet + (if consumerId c =? 200 then 70000 else 52) |}.

Definition producer_rtcp (_ : Producer) (packet : RTCP.CompoundPacket) (_ : Z)
  : RTCP.CompoundPacket :=
  {| RTCP.senderReportCount := RTCP.senderReportCount packet;
     RTCP.receiverReportCount := RTCP.receiverReportCount packet + 1;
     RTCP.size := RTCP.size packet + 32 |}.

(* Consumer 200 sends 8 Mbit/s, any other Consumer nothing. *)
Definition transmission_rate (c : Consumer) (_ : Z) : Z :=
  if consumerId c =? 200 then 8000000 else 0.

Definition buffer_size : Z := 65536.

Definition max_video_interval : Z := 1000.

(* Alice with the consumer map iterated the other way round. *)
Definition alice_reversed : Peer :=
  {| peerId := 1;
     peerName := "alice";
     hasCapabilities := true;
     capabilities := Json.Null;
     transports := [(10, transport10); (11, transport11)];
     producers := [(100, producer100)];
     consumers := [(201, consumer201); (200, consumer200)] |}.

(* A Peer with a Transport and a Producer that is bound to none. *)
Definition carol : Peer :=
  {| peerId := 3;
     peerName := "carol";
     hasCapabilities := true;
     capabilities := Json.Null;
     transports := [(10, transport10)];
     producers :=
       [(100, {| producerId := 100; producer_kind := AUDIO;
                 producer_transport := None |})];
     consumers := [] |}.

Definition create_transport_7 : Request :=
  request PEER_CREATE_TRANSPORT [("transportId", Json.Num 7)] [].

Definition create_video_producer_101 : Request :=
  request PEER_CREATE_PRODUCER
    [("producerId", Json.Num 101); ("transportId", Json.Num 10)]
    [("kind", Json.Str "video")].

Definition dump_transport_12 : Request :=
  request TRANSPORT_DUMP [("transportId", Json.Num 12)] [].

Definition dump_peer : Request := request PEER_DUMP [] [].

(* A Consumer 300 that is not in Alice's map, and a Send that stores
   the parameters and leaves the rest of the Consumer as it is. *)
Definition consumer300 : Consumer :=
  {| consumerId := 300;
     consumer_kind := AUDIO;
     active := true;
     consumer_transport := None;
     rtpParameters := None |}.

Definition consumer_send (_ : RtpCapabilities) (c : Consumer) (parameters : RtpParameters)
  : Consumer :=
  {| consumerId := consumerId c;
     consumer_kind := consumer_kind c;
     active := active c;
     consumer_transport := consumer_transport c;
     rtpParameters := Some parameters |}.

(* A Room with one Producer, 100 of another Peer: it installs Consumer
   300 for it. *)
Definition on_capabilities_installing_300 (_ : Peer) (c : RtpCapabilities)
  : RtpCapabilities * list NewConsumer :=
  (c, [{| added_consumer := consumer300;
          added_parameters := {| encodings := [encoding 3000] |};
          added_associatedProducerId := 100 |}]).

Definition close_transport_10 : Request :=
  request TRANSPORT_CLOSE [("transportId", Json.Num 10)] [].

Definition create_transport_10 : Request :=
  request PEER_CREATE_TRANSPORT [("transportId", Json.Num 10)] [].

Definition close_producer_100 : Request :=
  request PRODUCER_CLOSE [("producerId", Json.Num 100)] [].

End Scenario.

(** ** The Peer's member functions *)

Section PeerModel.

(** Collaborators whose code lies outside Peer.cpp. Each is an arbitrary
    function of what the Peer passes to it. *)

(* RTC::RtpCapabilities(request->data): the parsed capabilities, or the
   MediaSoupError the constructor throws. *)
Variable RtpCapabilities_new : Json.Value -> string + RtpCapabilities.

(** Modelled from the spec: listener->OnPeerCapabilities(this,
    &capabilities) is the Room's, outside this file. It reduces the
    capabilities in place and then installs, with Peer::AddConsumer, a
    Consumer for every Producer of the other Peers; the comment at the
    call says that the Peer has all its Consumers, and has sent their
    newconsumer events, when the call returns. The collaborator gives
    the capabilities as reduced and the arguments of the calls of
    AddConsumer, in order. *)
Variable Listener_OnPeerCapabilities :
  Peer -> RtpCapabilities -> RtpCapabilities * list NewConsumer.

(* consumer->SetPeerCapabilities(&capabilities) followed by
   consumer->Send(rtpParameters): the Consumer as the two calls leave
   it. *)
Variable Consumer_Send : RtpCapabilities -> Consumer -> RtpParameters -> Consumer.

(* new RTC::Transport(...): [Some error] when the constructor throws. *)
Variable Transport_new : Z -> Json.Value -> option string.

(* transport->AddProducer(producer): [Some error] when it throws. What
   it does inside the Transport is not visible to the Peer; the REMB
   state is taken to be left as it is. *)
Variable Transport_AddProducer : Transport -> Producer -> option string.

(* transport->GetProducer(ssrc): the id of the Producer found. *)
Variable Transport_GetProducer : Transport -> Z -> option Z.

(* consumer->GetRtcp(packet, now) and producer->GetRtcp(packet, now)
   append to the packet. *)
Variable Consumer_GetRtcp : Consumer -> RTCP.CompoundPacket -> Z -> RTCP.CompoundPacket.

Variable Producer_GetRtcp : Producer -> RTCP.CompoundPacket -> Z -> RTCP.CompoundPacket.

(* consumer->GetTransmissionRate(now), in bits per second. *)
Variable Consumer_GetTransmissionRate : Consumer -> Z -> Z.

(* RTC::RTCP::BufferSize and RTC::RTCP::MaxVideoIntervalMs. *)
Variable BufferSize : Z.

Variable MaxVideoIntervalMs : Z.

(** *** Peer::Destroy *)

(* Each loop erases the entry it stands on and then destroys the entity;
   it returns the map it leaves behind. *)
Fixpoint Destroy_producers (m : Map Producer) : Map Producer * Trace :=
  match m with
  | [] => ([], [])
  | (_, producer) :: rest =>
      let (m', t) := Destroy_producers rest in
      (m', ProducerDestroy (producerId producer) :: t)
  end.

Fixpoint Destroy_consumers (m : Map Consumer) : Map Consumer * Trace :=
  match m with
  | [] => ([], [])
  | (_, consumer) :: rest =>
      let (m', t) := Destroy_consumers rest in
      (m', ConsumerDestroy (consumerId consumer) :: t)
  end.

Fixpoint Destroy_transports (m : Map Transport) : Map Transport * Trace :=
  match m with
  | [] => ([], [])
  | (_, transport) :: rest =>
      let (m', t) := Destroy_transports rest in
      (m', TransportDestroy (transportId transport) :: t)
  end.

(* [delete this] runs ~Peer, which destroys the timer. *)
Definition Destroy (p : Peer) : Peer * Trace :=
  let (producers', t1) := Destroy_producers (producers p) in
  let (consumers', t2) := Destroy_consumers (consumers p) in
  let (transports', t3) := Destroy_transports (transports p) in
  ({| peerId := peerId p;
      peerName := peerName p;
      hasCapabilities := hasCapabilities p;
      capabilities := capabilities p;
      transports := transports';
      producers := producers';
      consumers := consumers' |},
   t1 ++ t2 ++ t3
   ++ [NotifierEmit (peerId p) "close"; OnPeerClosed (peerId p); TimerDestroy]).

(** *** Get*FromRequest

    [inl what] is the MediaSoupError thrown; otherwise the entity found
    (if any) and the id written through the out-parameter. *)

Definition GetTransportFromRequest (p : Peer) (request : Request)
  : string + (option Transport * Z) :=
  let jsonTransportId := Json.get (internal request) "transportId" in
  if negb (Json.isUInt jsonTransportId)
  then inl "Request has not numeric internal.transportId"
  else inr (map_find (Json.asUInt jsonTransportId) (transports p),
            Json.asUInt jsonTransportId).

Definition GetProducerFromRequest (p : Peer) (request : Request)
  : string + (option Producer * Z) :=
  let jsonProducerId := Json.get (internal request) "producerId" in
  if negb (Json.isUInt jsonProducerId)
  then inl "Request has not numeric internal.producerId"
  else inr (map_find (Json.asUInt jsonProducerId) (producers p),
            Json.asUInt jsonProducerId).

Definition GetConsumerFromRequest (p : Peer) (request : Request)
  : string + (option Consumer * Z) :=
  let jsonConsumerId := Json.get (internal request) "consumerId" in
  if negb (Json.isUInt jsonConsumerId)
  then inl "Request has not numeric internal.consumerId"
  else inr (map_find (Json.asUInt jsonConsumerId) (consumers p),
            Json.asUInt jsonConsumerId).

(** *** Assignments to the members *)

Definition with_capabilities (p : Peer) (c : RtpCapabilities) : Peer :=
  {| peerId := peerId p;
     peerName := peerName p;
     hasCapabilities := true;
     capabilities := c;
     transports := transports p;
     producers := producers p;
     consumers := consumers p |}.

Definition with_transports (p : Peer) (m : Map Transport) : Peer :=
  {| peerId := peerId p;
     peerName := peerName p;
     hasCapabilities := hasCapabilities p;
     capabilities := capabilities p;
     transports := m;
     producers := producers p;
     consumers := consumers p |}.

Definition with_producers (p : Peer) (m : Map Producer) : Peer :=
  {| peerId := peerId p;
     peerName := peerName p;
     hasCapabilities := hasCapabilities p;
     capabilities := capabilities p;
     transports := transports p;
     producers := m;
     consumers := consumers p |}.

Definition with_consumers (p : Peer) (m : Map Consumer) : Peer :=
  {| peerId := peerId p;
     peerName := peerName p;
     hasCapabilities := hasCapabilities p;
     capabilities := capabilities p;
     transports := transports p;
     producers := producers p;
     consumers := m |}.

(** ** Construction and the callbacks *)

(* consumer->GetTransport() == transport, on pointers. *)
Definition points_to (reference : option Z) (transport : Transport) : bool :=
  match reference with
  | Some id => id =? transportId transport
  | None => false
  end.

(** *** Peer::Peer

    Modelled from the spec: the initial values of the members are given
    in Peer.hpp, which is not in this file; a Peer starts without
    capabilities and with empty maps. The constructor itself starts the
    timer at half the maximum video interval. *)
Definition Peer_new (id : Z) (name : string) : Peer * Trace :=
  ({| peerId := id;
      peerName := name;
      hasCapabilities := false;
      capabilities := Json.Null;
      transports := [];
      producers := [];
      consumers := [] |},
   [TimerStart (MaxVideoIntervalMs / 2)]).

(** *** Peer::AddConsumer

    [None] is the failed MS_ASSERT, which ends the process. *)
Definition AddConsumer (p : Peer) (consumer : Consumer)
  (parameters : RtpParameters) (associatedProducerId : Z)
  : option (Peer * list Call) :=
  match map_find (consumerId consumer) (consumers p) with
  | Some _ => None
  | None =>
      let consumer' := Consumer_Send (capabilities p) consumer parameters in
      Some (with_consumers p (map_set (consumerId consumer') consumer' (consumers p)),
            [ConsumerSetPeerCapabilities (consumerId consumer);
             ConsumerSend (consumerId consumer);
             EmitNewConsumer (peerId p) (consumerId consumer') associatedProducerId])
  end.

(* The calls of AddConsumer that the Room makes in one up-call, in
   order. The flag is false when one of them failed its assertion:
   nothing is done after that. *)
Fixpoint AddConsumers (p : Peer) (additions : list NewConsumer)
  : Peer * list Call * bool :=
  match additions with
  | [] => (p, [], true)
  | a :: rest =>
      match AddConsumer p (added_consumer a) (added_parameters a)
              (added_associatedProducerId a) with
      | None => (p, [], false)
      | Some (p1, calls1) =>
          let '(p2, calls2, ok) := AddConsumers p1 rest in
          (p2, calls1 ++ calls2, ok)
      end
  end.

(** *** Peer::OnTransportConnected *)

Definition wants_full_frames (k : Kind) : bool :=
  match k with
  | VIDEO | DEPTH => true
  | AUDIO => false
  end.

Fixpoint OnTransportConnected_loop (transport : Transport) (cs : Map Consumer)
  : list Call :=
  match cs with
  | [] => []
  | (_, consumer) :: rest =>
      if negb (wants_full_frames (consumer_kind consumer))
      then OnTransportConnected_loop transport rest
      else if negb (points_to (consumer_transport consumer) transport)
      then OnTransportConnected_loop transport rest
      else OnFullFrameRequired (consumerId consumer)
           :: OnTransportConnected_loop transport rest
  end.

Definition OnTransportConnected (p : Peer) (transport : Transport) : list Call :=
  OnTransportConnected_loop transport (consumers p).

(** *** Peer::OnTransportClosed

    Modelled from the spec: [Producer::RemoveTransport] and
    [Consumer::RemoveTransport] are members of the Producer and the
    Consumer, outside this file; they clear the reference to the
    Transport when it is the one the entity holds. *)
Definition Producer_RemoveTransport (x : Producer) (transport : Transport) : Producer :=
  if points_to (producer_transport x) transport
  then {| producerId := producerId x;
          producer_kind := producer_kind x;
          producer_transport := None |}
  else x.

Definition Consumer_RemoveTransport (x : Consumer) (transport : Transport) : Consumer :=
  if points_to (consumer_transport x) transport
  then {| consumerId := consumerId x;
          consumer_kind := consumer_kind x;
          active := active x;
          consumer_transport := None;
          rtpParameters := rtpParameters x |}
  else x.

Fixpoint OnTransportClosed_producers (transport : Transport) (m : Map Producer)
  : Map Producer * list Call :=
  match m with
  | [] => ([], [])
  | (k, producer) :: rest =>
      let (m', calls) := OnTransportClosed_producers transport rest in
      ((k, Producer_RemoveTransport producer transport) :: m',
       ProducerRemoveTransport (producerId producer) (transportId transport) :: calls)
  end.

Fixpoint OnTransportClosed_consumers (transport : Transport) (m : Map Consumer)
  : Map Consumer * list Call :=
  match m with
  | [] => ([], [])
  | (k, consumer) :: rest =>
      let (m', calls) := OnTransportClosed_consumers transport rest in
      ((k, Consumer_RemoveTransport consumer transport) :: m',
       ConsumerRemoveTransport (consumerId consumer) (transportId transport) :: calls)
  end.

Definition OnTransportClosed (p : Peer) (transport : Transport) : Peer * list Call :=
  let (producers', calls1) := OnTransportClosed_producers transport (producers p) in
  let (consumers', calls2) := OnTransportClosed_consumers transport (consumers p) in
  ({| peerId := peerId p;
      peerName := peerName p;
      hasCapabilities := hasCapabilities p;
      capabilities := capabilities p;
      transports := map_erase (transportId transport) (transports p);
      producers := producers';
      consumers := consumers' |},
   calls1 ++ calls2).

(** *** Peer::OnTransportFullFrameRequired *)

Fixpoint OnTransportFullFrameRequired_loop (transport : Transport) (ps : Map Producer)
  : list Call :=
  match ps with
  | [] => []
  | (_, producer) :: rest =>
      if negb (wants_full_frames (producer_kind producer))
      then OnTransportFullFrameRequired_loop transport rest
      else if negb (points_to (producer_transport producer) transport)
      then OnTransportFullFrameRequired_loop transport rest
      else ProducerRequestFullFrame (producerId producer)
           :: OnTransportFullFrameRequired_loop transport rest
  end.

Definition OnTransportFullFrameRequired (p : Peer) (transport : Transport) : list Call :=
  OnTransportFullFrameRequired_loop transport (producers p).

(** *** Peer::OnProducerClosed, Peer::OnConsumerClosed and
        Peer::OnConsumerFullFrameRequired *)

Definition OnProducerClosed (p : Peer) (producer : Producer) : Peer * list Call :=
  (with_producers p (map_erase (producerId producer) (producers p)),
   map (fun transport => TransportRemoveProducer (transportId transport) (producerId producer))
     (map_values (transports p))
   ++ [OnPeerProducerClosed (producerId producer)]).

Definition OnConsumerClosed (p : Peer) (consumer : Consumer) : Peer * list Call :=
  (with_consumers p (map_erase (consumerId consumer) (consumers p)),
   [OnPeerConsumerClosed (consumerId consumer)]).

Definition OnConsumerFullFrameRequired (p : Peer) (consumer : Consumer) : list Call :=
  [OnFullFrameRequired (consumerId consumer)].

(** *** Peer::HandleRequest *)

Definition returned (p : Peer) (t : Trace) : Result :=
  {| outcome := Returned; peer_after := p; trace := t |}.

(* request->Reject(reason); return; *)
Definition reject (p : Peer) (reason : string) : Result :=
  returned p [RequestReject reason].

Definition HandleRequest_PEER_CLOSE (p : Peer) : Result :=
  let (p', t) := Destroy p in
  returned p' (t ++ [RequestAccept NoPayload]).

Definition HandleRequest_PEER_DUMP (p : Peer) : Result :=
  returned p [RequestAccept (PeerJson p)].

Definition HandleRequest_PEER_SET_CAPABILITIES (p : Peer) (request : Request) : Result :=
  if hasCapabilities p then reject p "peer capabilities already set"
  else
    match RtpCapabilities_new (data request) with
    | inl error => reject p error
    | inr parsed =>
        let p1 := with_capabilities p parsed in
        let (reduced, additions) := Listener_OnPeerCapabilities p1 parsed in
        let '(p2, calls, ok) := AddConsumers (with_capabilities p reduced) additions in
        if ok
        then returned p2 [OnPeerCapabilities (peerId p) calls;
                          RequestAccept (CapabilitiesJson reduced)]
        else {| outcome := Aborted;
                peer_after := p2;
                trace := [OnPeerCapabilities (peerId p) calls] |}
    end.

Definition HandleRequest_PEER_CREATE_TRANSPORT (p : Peer) (request : Request) : Result :=
  match GetTransportFromRequest p request with
  | inl error => reject p error
  | inr (Some _, _) => reject p "Transport already exists"
  | inr (None, id) =>
      match Transport_new id (data request) with
      | Some error => reject p error
      | None =>
          let transport := {| transportId := id; remb := false |} in
          returned (with_transports p (map_set id transport (transports p)))
                   [RequestAccept (TransportJson transport)]
      end
  end.

Definition HandleRequest_PEER_CREATE_PRODUCER (p : Peer) (request : Request) : Result :=
  if negb (hasCapabilities p) then reject p "peer capabilities are not yet set"
  else
    match GetProducerFromRequest p request with
    | inl error => reject p error
    | inr (Some _, _) => reject p "Producer already exists"
    | inr (None, id) =>
        match GetTransportFromRequest p request with
        | inl error => reject p error
        | inr (None, _) => reject p "Transport does not exist"
        | inr (Some transport, _) =>
            (* `kind` is mandatory: MS_THROW_ERROR outside any try block. *)
            if negb (Json.isString (Json.get (data request) "kind"))
            then {| outcome := Thrown "missing kind"; peer_after := p; trace := [] |}
            else
              let kind := Json.asString (Json.get (data request) "kind") in
              match Media_GetKind kind with
              | inl error => reject p error
              | inr k =>
                  let producer :=
                    {| producerId := id; producer_kind := k;
                       producer_transport := None |} in
                  let p1 := with_producers p (map_set id producer (producers p)) in
                  let producer' := Producer_SetTransport producer (transportId transport) in
                  returned (with_producers p1 (map_set id producer' (producers p1)))
                           [ProducerSetTransport id (transportId transport);
                            RequestAccept NoPayload]
              end
        end
    end.

(** Modelled from the spec: Transport::HandleRequest and
    Producer::HandleRequest are outside this file. A TRANSPORT_CLOSE
    closes the Transport, which raises OnTransportClosed into the Peer
    before the call returns; a PRODUCER_CLOSE closes the Producer, which
    raises OnProducerClosed. The spec attributes no other up-call into
    the Peer to a request that is handed on. *)
Definition HandleRequest_TRANSPORT (p : Peer) (request : Request) : Result :=
  match GetTransportFromRequest p request with
  | inl error => reject p error
  | inr (None, _) => reject p "Transport does not exist"
  | inr (Some transport, _) =>
      (* transport->HandleRequest(request) *)
      match methodId request with
      | TRANSPORT_CLOSE =>
          let (p', calls) := OnTransportClosed p transport in
          returned p' [TransportHandleRequest (transportId transport) request calls]
      | _ => returned p [TransportHandleRequest (transportId transport) request []]
      end
  end.

Definition HandleRequest_PRODUCER (p : Peer) (request : Request) : Result :=
  match GetProducerFromRequest p request with
  | inl error => reject p error
  | inr (None, _) => reject p "Producer does not exist"
  | inr (Some producer, _) =>
      (* producer->HandleRequest(request) *)
      match methodId request with
      | PRODUCER_CLOSE =>
          let (p', calls) := OnProducerClosed p producer in
          returned p' [ProducerHandleRequest (producerId producer) request calls]
      | _ => returned p [ProducerHandleRequest (producerId producer) request []]
      end
  end.

Definition HandleRequest_PRODUCER_SET_TRANSPORT (p : Peer) (request : Request) : Result :=
  match GetProducerFromRequest p request with
  | inl error => reject p error
  | inr (None, _) => reject p "Producer does not exist"
  | inr (Some producer, id) =>
      match GetTransportFromRequest p request with
      | inl error => reject p error
      | inr (None, _) => reject p "Transport does not exist"
      | inr (Some transport, tid) =>
          let added := TransportAddProducer (transportId transport) (producerId producer) in
          match Transport_AddProducer transport producer with
          | Some error => returned p [added; RequestReject error]
          | None =>
              let set :=
                with_producers p
                  (map_set id (Producer_SetTransport producer (transportId transport))
                     (producers p)) in
              (* previousTransport = producer->GetTransport() *)
              match producer_transport producer with
              | None =>
                  returned set
                    [added;
                     ProducerSetTransport (producerId producer) (transportId transport);
                     RequestAccept NoPayload]
              | Some previous =>
                  match map_find previous (transports p) with
                  | None => {| outcome := Undefined; peer_after := p; trace := [added] |}
                  | Some previousTransport =>
                      if HasRemb previousTransport
                      then
                        returned
                          (with_transports set
                             (map_set tid (EnableRemb transport) (transports p)))
                          [added;
                           TransportEnableRemb (transportId transport);
                           ProducerSetTransport (producerId producer) (transportId transport);
                           RequestAccept NoPayload]
                      else
                        returned set
                          [added;
                           ProducerSetTransport (producerId producer) (transportId transport);
                           RequestAccept NoPayload]
                  end
              end
          end
      end
  end.

Definition HandleRequest_CONSUMER (p : Peer) (request : Request) : Result :=
  match GetConsumerFromRequest p request with
  | inl error => reject p error
  | inr (None, _) => reject p "Consumer does not exist"
  | inr (Some consumer, _) =>
      returned p [ConsumerHandleRequest (consumerId consumer) request]
  end.

Definition HandleRequest_CONSUMER_SET_TRANSPORT (p : Peer) (request : Request) : Result :=
  match GetConsumerFromRequest p request with
  | inl error => reject p error
  | inr (None, _) => reject p "Consumer does not exist"
  | inr (Some consumer, id) =>
      match GetTransportFromRequest p request with
      | inl error => reject p error
      | inr (None, _) => reject p "Transport does not exist"
      | inr (Some transport, _) =>
          returned
            (with_consumers p
               (map_set id (Consumer_SetTransport consumer (transportId transport))
                  (consumers p)))
            [ConsumerSetTransport (consumerId consumer) (transportId transport);
             RequestAccept NoPayload]
      end
  end.

Definition HandleRequest (p : Peer) (request : Request) : Result :=
  match methodId request with
  | PEER_CLOSE => HandleRequest_PEER_CLOSE p
  | PEER_DUMP => HandleRequest_PEER_DUMP p
  | PEER_SET_CAPABILITIES => HandleRequest_PEER_SET_CAPABILITIES p request
  | PEER_CREATE_TRANSPORT => HandleRequest_PEER_CREATE_TRANSPORT p request
  | PEER_CREATE_PRODUCER => HandleRequest_PEER_CREATE_PRODUCER p request
  | TRANSPORT_CLOSE
  | TRANSPORT_DUMP
  | TRANSPORT_SET_REMOTE_DTLS_PARAMETERS
  | TRANSPORT_SET_MAX_BITRATE
  | TRANSPORT_CHANGE_UFRAG_PWD => HandleRequest_TRANSPORT p request
  | PRODUCER_CLOSE
  | PRODUCER_DUMP
  | PRODUCER_RECEIVE
  | PRODUCER_SET_RTP_RAW_EVENT
  | PRODUCER_SET_RTP_OBJECT_EVENT => HandleRequest_PRODUCER p request
  | PRODUCER_SET_TRANSPORT => HandleRequest_PRODUCER_SET_TRANSPORT p request
  | CONSUMER_DUMP => HandleRequest_CONSUMER p request
  | CONSUMER_SET_TRANSPORT => HandleRequest_CONSUMER_SET_TRANSPORT p request
  | CONSUMER_DISABLE => HandleRequest_CONSUMER p request
  | OTHER_METHOD =>
      returned p [LogError "unknown method"; RequestReject "unknown method"]
  end.

(** *** Peer::SendRtcp *)

Definition too_big (packet : RTCP.CompoundPacket) : Event :=
  LogWarn "cannot send RTCP packet, size too big (%zu bytes)" [RTCP.size packet].

(* The loop over the Consumers for one Transport. [None] in place of the
   packet: the loop executed [return], which leaves SendRtcp. *)
Fixpoint SendRtcp_consumers (transport : Transport) (now : Z)
  (cs : Map Consumer) (packet : RTCP.CompoundPacket)
  : Trace * option RTCP.CompoundPacket :=
  match cs with
  | [] => ([], Some packet)
  | (_, consumer) :: rest =>
      if negb (points_to (consumer_transport consumer) transport)
      then SendRtcp_consumers transport now rest packet
      else
        let got := ConsumerGetRtcp (consumerId consumer) now in
        let packet1 := Consumer_GetRtcp consumer packet now in
        if negb (RTCP.senderReportCount packet1 =? 0)
        then
          if RTCP.size packet1 >? BufferSize
          then ([got; too_big packet1], None)
          else
            let (t, r) :=
              SendRtcp_consumers transport now rest RTCP.new_CompoundPacket in
            (got :: TransportSendRtcpCompoundPacket (transportId transport) packet1 :: t,
             r)
        else
          let (t, r) := SendRtcp_consumers transport now rest packet1 in
          (got :: t, r)
  end.

Fixpoint SendRtcp_producers (transport : Transport) (now : Z)
  (ps : Map Producer) (packet : RTCP.CompoundPacket)
  : Trace * RTCP.CompoundPacket :=
  match ps with
  | [] => ([], packet)
  | (_, producer) :: rest =>
      if negb (points_to (producer_transport producer) transport)
      then SendRtcp_producers transport now rest packet
      else
        let (t, r) :=
          SendRtcp_producers transport now rest (Producer_GetRtcp producer packet now) in
        (ProducerGetRtcp (producerId producer) now :: t, r)
  end.

(* The loop over the Transports; a [return] inside ends it. *)
Fixpoint SendRtcp_transports (p : Peer) (now : Z) (ts : Map Transport) : Trace :=
  match ts with
  | [] => []
  | (_, transport) :: rest =>
      match SendRtcp_consumers transport now (consumers p) RTCP.new_CompoundPacket with
      | (t1, None) => t1
      | (t1, Some packet) =>
          let (t2, packet2) := SendRtcp_producers transport now (producers p) packet in
          if negb (RTCP.receiverReportCount packet2 =? 0)
          then
            if RTCP.size packet2 >? BufferSize
            then t1 ++ t2 ++ [too_big packet2]
            else
              t1 ++ t2
              ++ TransportSendRtcpCompoundPacket (transportId transport) packet2
                 :: SendRtcp_transports p now rest
          else t1 ++ t2 ++ SendRtcp_transports p now rest
      end
  end.

Definition SendRtcp (p : Peer) (now : Z) : Trace :=
  SendRtcp_transports p now (transports p).

(** *** Peer::OnTransportRtcpPacket *)

Definition is_PLI (m : FeedbackPs.MessageType) : bool :=
  match m with
  | FeedbackPs.PLI => true
  | _ => false
  end.

(* case RTCP::Type::RR, for one report *)
Definition OnTransportRtcpPacket_RR (p : Peer) (report : RTCP.ReceiverReport) : Trace :=
  match GetConsumer p (RTCP.rr_ssrc report) with
  | Some consumer => [OnPeerRtcpReceiverReport (consumerId consumer) report]
  | None =>
      [LogWarn "no Consumer found for received Receiver Report [ssrc:%u]"
         [RTCP.rr_ssrc report]]
  end.

(* The block shared by PLI, SLI, RPSI and FIR, which an AFB packet that
   is not a REMB falls into. *)
Definition OnTransportRtcpPacket_PSFB_consumer (p : Peer)
  (feedback : RTCP.FeedbackPsPacket) : Trace :=
  match GetConsumer p (RTCP.ps_mediaSsrc feedback) with
  | Some consumer =>
      if negb (active consumer) then []
      else
        (if is_PLI (RTCP.ps_messageType feedback)
         then [LogDebug "PLI received [media ssrc:%u]" [RTCP.ps_mediaSsrc feedback]]
         else [])
        ++ [OnPeerRtcpFeedback (consumerId consumer) feedback]
  | None =>
      [LogWarn
         "no Consumer found for received %s Feedback packet [sender ssrc:%u, media ssrc:%u]"
         [RTCP.ps_mediaSsrc feedback; RTCP.ps_mediaSsrc feedback]]
  end.

Definition OnTransportRtcpPacket_PSFB (p : Peer)
  (feedback : RTCP.FeedbackPsPacket) : Trace :=
  match RTCP.ps_messageType feedback with
  | FeedbackPs.AFB =>
      match RTCP.ps_application feedback with
      | RTCP.REMB => []
      | RTCP.UNKNOWN => OnTransportRtcpPacket_PSFB_consumer p feedback
      end
  | FeedbackPs.PLI
  | FeedbackPs.SLI
  | FeedbackPs.RPSI
  | FeedbackPs.FIR => OnTransportRtcpPacket_PSFB_consumer p feedback
  | FeedbackPs.TSTR
  | FeedbackPs.TSTN
  | FeedbackPs.VBCM
  | FeedbackPs.PSLEI
  | FeedbackPs.ROI
  | FeedbackPs.EXT =>
      [LogWarn
         "ignoring unsupported %s Feedback packet [sender ssrc:%u, media ssrc:%u]"
         [RTCP.ps_mediaSsrc feedback; RTCP.ps_mediaSsrc feedback]]
  end.

Definition OnTransportRtcpPacket_RTPFB (p : Peer)
  (feedback : RTCP.FeedbackRtpPacket) : Trace :=
  match RTCP.rtp_messageType feedback with
  | FeedbackRtp.NACK =>
      match GetConsumer p (RTCP.rtp_mediaSsrc feedback) with
      | Some consumer => [ConsumerReceiveNack (consumerId consumer) feedback]
      | None =>
          [LogWarn
             "no Consumer found for received NACK Feedback packet [sender ssrc:%u, media ssrc:%u]"
             [RTCP.rtp_mediaSsrc feedback; RTCP.rtp_mediaSsrc feedback]]
      end
  | FeedbackRtp.TMMBR
  | FeedbackRtp.TMMBN
  | FeedbackRtp.SR_REQ
  | FeedbackRtp.RAMS
  | FeedbackRtp.TLLEI
  | FeedbackRtp.ECN
  | FeedbackRtp.PS
  | FeedbackRtp.EXT =>
      [LogWarn
         "ignoring unsupported %s Feedback packet [sender ssrc:%u, media ssrc:%u]"
         [RTCP.rtp_mediaSsrc feedback; RTCP.rtp_mediaSsrc feedback]]
  end.

(* case RTCP::Type::SR, for one report *)
Definition OnTransportRtcpPacket_SR (transport : Transport)
  (report : RTCP.SenderReport) : Trace :=
  match Transport_GetProducer transport (RTCP.sr_ssrc report) with
  | Some producer => [OnPeerRtcpSenderReport producer report]
  | None =>
      [LogWarn "no Producer found for received Sender Report [ssrc:%u]"
         [RTCP.sr_ssrc report]]
  end.

(* case RTCP::Type::SDES, for one chunk *)
Definition OnTransportRtcpPacket_SDES (transport : Transport)
  (chunk : RTCP.SdesChunk) : Trace :=
  match Transport_GetProducer transport (RTCP.sdes_ssrc chunk) with
  | Some _ => []
  | None =>
      [LogWarn "no Producer for received SDES chunk [ssrc:%u]" [RTCP.sdes_ssrc chunk]]
  end.

(* The body of the while loop: the switch on packet->GetType(). *)
Definition OnTransportRtcpPacket_packet (p : Peer) (transport : Transport)
  (packet : RTCP.Packet) : Trace :=
  match packet with
  | RTCP.RR reports => flat_map (OnTransportRtcpPacket_RR p) reports
  | RTCP.PSFB feedback => OnTransportRtcpPacket_PSFB p feedback
  | RTCP.RTPFB feedback => OnTransportRtcpPacket_RTPFB p feedback
  | RTCP.SR reports => flat_map (OnTransportRtcpPacket_SR transport) reports
  | RTCP.SDES chunks => flat_map (OnTransportRtcpPacket_SDES transport) chunks
  | RTCP.BYE => [LogDebug "ignoring received RTCP BYE" []]
  | RTCP.OTHER type => [LogWarn "unhandled RTCP type received [type:%u]" [type]]
  end.

(* The chain packet, packet->GetNext(), ... up to nullptr is a list. *)
Fixpoint OnTransportRtcpPacket (p : Peer) (transport : Transport)
  (packets : list RTCP.Packet) : Trace :=
  match packets with
  | [] => []
  | packet :: next =>
      OnTransportRtcpPacket_packet p transport packet
      ++ OnTransportRtcpPacket p transport next
  end.

(** *** Peer::OnTimer *)

(* The loop [rate += consumer->GetTransmissionRate(now) / 1000] on a
   uint32_t accumulator. *)
Fixpoint OnTimer_rate (now : Z) (cs : Map Consumer) (rate : Z) : Z :=
  match cs with
  | [] => rate
  | (_, consumer) :: rest =>
      OnTimer_rate now rest
        (wrap32 (rate + Consumer_GetTransmissionRate consumer now / 1000))
  end.

(* The interval before the random factor is applied. *)
Definition OnTimer_interval (p : Peer) (now : Z) : Z :=
  let interval := MaxVideoIntervalMs in
  match consumers p with
  | [] => interval
  | _ :: _ =>
      let rate := OnTimer_rate now (consumers p) 0 in
      let interval := if negb (rate =? 0) then 360000 / rate else interval in
      if interval >? MaxVideoIntervalMs then MaxVideoIntervalMs else interval
  end.

(* interval *= static_cast<float>(random) / 10: the uint64_t interval is
   converted to float, multiplied in single precision, and the product
   is converted back to uint64_t. *)
Definition OnTimer_jitter (interval random : Z) : Z :=
  Float32.to_uint
    (Float32.mul (Float32.of_uint interval)
       (Float32.div (Float32.of_uint random) (Float32.of_uint 10))).

(* [time] is DepLibUV::GetTime(), stored in a uint32_t; [random] is
   Utils::Crypto::GetRandomUInt(5, 15). *)
Definition OnTimer (p : Peer) (time random : Z) : Trace :=
  let now := wrap32 time in
  SendRtcp p now
  ++ [TimerStart (OnTimer_jitter (OnTimer_interval p now) random)].

(** The rate and the interval in the words of their description: the
    Consumers' transmission rates at [now], each in kbps, summed in a
    uint32_t; the base interval is the maximum video interval without
    Consumers or at rate zero, and otherwise 360000 over the rate,
    clamped to the maximum. *)
Definition summed_rate_kbps (now : Z) (cs : Map Consumer) : Z :=
  wrap32
    (fold_right Z.add 0
       (map (fun consumer => Consumer_GetTransmissionRate consumer now / 1000)
          (map_values cs))).

Definition base_interval (p : Peer) (now : Z) : Z :=
  match consumers p with
  | [] => MaxVideoIntervalMs
  | _ :: _ =>
      let R := summed_rate_kbps now (consumers p) in
      if R =? 0 then MaxVideoIntervalMs
      else Z.min MaxVideoIntervalMs (360000 / R)
  end.

(** ** Classes of packets and events *)

(* A PSFB packet that is an AFB carrying a REMB. *)
Definition is_REMB (packet : RTCP.Packet) : bool :=
  match packet with
  | RTCP.PSFB feedback =>
      match RTCP.ps_messageType feedback, RTCP.ps_application feedback with
      | FeedbackPs.AFB, RTCP.REMB => true
      | _, _ => false
      end
  | _ => false
  end.

Definition is_TimerStart (e : Event) : bool :=
  match e with
  | TimerStart _ => true
  | _ => false
  end.

Definition is_send (e : Event) : bool :=
  match e with
  | TransportSendRtcpCompoundPacket _ _ => true
  | _ => false
  end.

(* The Consumer is bound to the Transport and of a kind that is sent in
   frames; likewise for a Producer. *)
Definition consumer_needs_full_frame (transport : Transport) (c : Consumer) : bool :=
  wants_full_frames (consumer_kind c) && points_to (consumer_transport c) transport.

Definition producer_needs_full_frame (transport : Transport) (x : Producer) : bool :=
  wants_full_frames (producer_kind x) && points_to (producer_transport x) transport.

(** ** Well-formed Peers

    What the maps of a Peer satisfy between two events: keys are unique
    (they are maps), every entity is stored under its own id, and a
    Transport referred to by a Producer or a Consumer is one of
    [transports]. *)
Record well_formed (p : Peer) : Prop := {
  wf_transport_keys : NoDup (map_keys (transports p));
  wf_producer_keys : NoDup (map_keys (producers p));
  wf_consumer_keys : NoDup (map_keys (consumers p));
  wf_transport_ids :
    forall k transport, In (k, transport) (transports p) -> transportId transport = k;
  wf_producer_ids :
    forall k producer, In (k, producer) (producers p) -> producerId producer = k;
  wf_consumer_ids :
    forall k consumer, In (k, consumer) (consumers p) -> consumerId consumer = k;
  wf_producer_transports :
    forall k producer t,
      In (k, producer) (producers p) -> producer_transport producer = Some t ->
      In t (map_keys (transports p));
  wf_consumer_transports :
    forall k consumer t,
      In (k, consumer) (consumers p) -> consumer_transport consumer = Some t ->
      In t (map_keys (transports p))
}.

(* The Consumers that the Room adds during OnPeerCapabilities refer,
   once they are sent, to no Transport or to a Transport of the Peer
   they are added to. *)
Definition adds_no_foreign_reference : Prop :=
  forall (q : Peer) (c : RtpCapabilities) (a : NewConsumer) (t : Z),
    In a (snd (Listener_OnPeerCapabilities q c)) ->
    consumer_transport
      (Consumer_Send (fst (Listener_OnPeerCapabilities q c))
         (added_consumer a) (added_parameters a)) = Some t ->
    In t (map_keys (transports q)).

Definition is_PEER_CLOSE (m : MethodId) : bool :=
  match m with
  | PEER_CLOSE => true
  | _ => false
  end.

(* Whether the Peer is there for the next request. It is not after
   PEER_CLOSE, which deletes it, nor once the process has ended or has
   followed a dangling pointer. A MediaSoupError leaves HandleRequest
   with the Peer in place. *)
Definition takes_next_request (request : Request) (o : Outcome) : bool :=
  match o with
  | Returned => negb (is_PEER_CLOSE (methodId request))
  | Thrown _ => true
  | Undefined | Aborted => false
  end.

(* A sequence of requests, each handled on the Peer as the one before
   it left it, callbacks raised during the request included. The traces
   are concatenated. *)
Fixpoint HandleRequests (p : Peer) (requests : list Request) : Peer * Trace :=
  match requests with
  | [] => (p, [])
  | request :: rest =>
      let r := HandleRequest p request in
      if takes_next_request request (outcome r)
      then
        let (p', t) := HandleRequests (peer_after r) rest in
        (p', trace r ++ t)
      else (peer_after r, trace r)
  end.

(** * Properties *)

(** ** Entity maps *)

Lemma map_find_set_same {A : Type} (k : Z) (v : A) (m : Map A) :
  map_find k (map_set k v m) = Some v.
Proof.
  induction m as [|[k' v'] rest IH]; simpl.
  - now rewrite Z.eqb_refl.
  - destruct (k' =? k) eqn:E; simpl.
    + now rewrite Z.eqb_refl.
    + now rewrite E.
Qed.

Lemma map_find_set_other {A : Type} (k k0 : Z) (v : A) (m : Map A) :
  k <> k0 -> map_find k0 (map_set k v m) = map_find k0 m.
Proof.
  intros Hne.
  induction m as [|[k' v'] rest IH]; simpl.
  - destruct (k =? k0) eqn:E; [apply Z.eqb_eq in E; contradiction | reflexivity].
  - destruct (k' =? k) eqn:E; simpl.
    + apply Z.eqb_eq in E; subst k'.
      destruct (k =? k0) eqn:E0; [apply Z.eqb_eq in E0; contradiction | reflexivity].
    + destruct (k' =? k0); [reflexivity | exact IH].
Qed.

(** ** The SSRC index *)

Lemma GetConsumer_encodings_existsb (c : Consumer) (s : Z)
  (encs : list RtpEncodingParameters) :
  GetConsumer_encodings c s encs
  = if existsb (encoding_matches s) encs then Some c else None.
Proof.
  induction encs as [|e rest IH]; simpl; [reflexivity|].
  unfold encoding_matches at 1.
  destruct (ssrc e =? s); simpl; [reflexivity|].
  destruct (hasFec e && (fec_ssrc (fec e) =? s)); simpl; [reflexivity|].
  destruct (hasRtx e && (rtx_ssrc (rtx e) =? s)); simpl; [reflexivity|].
  exact IH.
Qed.

Lemma GetConsumer_loop_find (cs : Map Consumer) (s : Z) :
  GetConsumer_loop cs s = first_claiming_consumer cs s.
Proof.
  unfold first_claiming_consumer, map_values.
  induction cs as [|[k c] rest IH]; simpl; [reflexivity|].
  unfold consumer_claims at 1.
  destruct (rtpParameters c) as [ps|]; [|exact IH].
  rewrite GetConsumer_encodings_existsb.
  destruct (existsb (encoding_matches s) (encodings ps)); [reflexivity | exact IH].
Qed.

Lemma find_first_split {A : Type} (f : A -> bool) (l : list A) (x : A) :
  find f l = Some x <->
  exists before after,
    l = before ++ x :: after /\ f x = true /\ Forall (fun y => f y = false) before.
Proof.
  split.
  - induction l as [|a rest IH]; simpl; [discriminate|].
    destruct (f a) eqn:Fa.
    + intros H; injection H as ->.
      exists [], rest. repeat split; auto.
    + intros H. destruct (IH H) as (b & a' & -> & Fx & Hb).
      exists (a :: b), a'. repeat split; auto.
  - intros (before & after & -> & Fx & Hb).
    induction Hb as [|y before Fy _ IH]; simpl.
    + now rewrite Fx.
    + now rewrite Fy.
Qed.

Lemma find_none_all {A : Type} (f : A -> bool) (l : list A) :
  find f l = None <-> forall y, In y l -> f y = false.
Proof.
  split.
  - intros H y Hy. exact (find_none f l H y Hy).
  - induction l as [|a rest IH]; simpl; [reflexivity|].
    intros H. rewrite (H a (or_introl eq_refl)).
    apply IH. intros y Hy. apply H. now right.
Qed.

(** C5. [GetConsumer ssrc] is the first Consumer, in the iteration order
    of the consumer map, that claims the ssrc: one of its encodings has
    the ssrc as its primary ssrc, or has FEC with that ssrc, or has RTX
    with that ssrc. It is that Consumer exactly when no Consumer before
    it in the map claims the ssrc, and it is nothing exactly when no
    Consumer of the map claims the ssrc. *)
Theorem GetConsumer_first_match (p : Peer) (s : Z) :
  GetConsumer p s = first_claiming_consumer (consumers p) s
  /\ (forall c,
        GetConsumer p s = Some c <->
        exists before after,
          map_values (consumers p) = before ++ c :: after
          /\ consumer_claims s c = true
          /\ Forall (fun c' => consumer_claims s c' = false) before)
  /\ (GetConsumer p s = None <->
      forall c, In c (map_values (consumers p)) -> consumer_claims s c = false).
Proof.
  unfold GetConsumer.
  rewrite GetConsumer_loop_find.
  unfold first_claiming_consumer.
  split; [reflexivity|].
  split.
  - intros c. apply find_first_split.
  - apply find_none_all.
Qed.

(** ** The RTCP demultiplexer *)

(* The compound is walked to its end: what one packet contributes to the
   trace stands between what the packets before it and the packets after
   it contribute. *)
Lemma OnTransportRtcpPacket_app (p : Peer) (transport : Transport)
  (before after : list RTCP.Packet) :
  OnTransportRtcpPacket p transport (before ++ after)
  = OnTransportRtcpPacket p transport before
    ++ OnTransportRtcpPacket p transport after.
Proof.
  induction before as [|packet rest IH]; simpl; [reflexivity|].
  now rewrite IH, app_assoc.
Qed.

Lemma OnTransportRtcpPacket_middle (p : Peer) (transport : Transport)
  (before after : list RTCP.Packet) (packet : RTCP.Packet) :
  OnTransportRtcpPacket p transport (before ++ packet :: after)
  = OnTransportRtcpPacket p transport before
    ++ OnTransportRtcpPacket_packet p transport packet
    ++ OnTransportRtcpPacket p transport after.
Proof.
  now rewrite OnTransportRtcpPacket_app.
Qed.

(** C4. A PSFB sub-packet of type PLI, SLI, RPSI or FIR, wherever it
    stands in the compound, is looked up by its media ssrc. If no
    Consumer is found, it contributes one warning and no up-call; if the
    Consumer found is not active, it contributes nothing at all;
    otherwise its only up-call is one OnPeerRtcpFeedback with that
    Consumer and the packet, and no warning is logged. *)
Theorem PSFB_full_frame_feedback_dispatch (p : Peer) (transport : Transport)
  (before after : list RTCP.Packet) (feedback : RTCP.FeedbackPsPacket) :
  In (RTCP.ps_messageType feedback)
     [FeedbackPs.PLI; FeedbackPs.SLI; FeedbackPs.RPSI; FeedbackPs.FIR] ->
  exists contribution,
    OnTransportRtcpPacket p transport (before ++ RTCP.PSFB feedback :: after)
    = OnTransportRtcpPacket p transport before
      ++ contribution
      ++ OnTransportRtcpPacket p transport after
    /\ match GetConsumer p (RTCP.ps_mediaSsrc feedback) with
       | None =>
           upcalls contribution = []
           /\ exists format args, contribution = [LogWarn format args]
       | Some consumer =>
           if active consumer
           then upcalls contribution
                = [OnPeerRtcpFeedback (consumerId consumer) feedback]
                /\ warnings contribution = []
           else contribution = []
       end.
Proof.
  intros Htype.
  exists (OnTransportRtcpPacket_PSFB_consumer p feedback).
  split.
  - rewrite OnTransportRtcpPacket_middle. simpl.
    unfold OnTransportRtcpPacket_PSFB.
    simpl in Htype.
    destruct Htype as [H|[H|[H|[H|[]]]]]; rewrite <- H; reflexivity.
  - unfold OnTransportRtcpPacket_PSFB_consumer.
    destruct (GetConsumer p (RTCP.ps_mediaSsrc feedback)) as [consumer|].
    + destruct (active consumer); simpl; [|reflexivity].
      destruct (is_PLI (RTCP.ps_messageType feedback)); simpl; split; reflexivity.
    + split; [reflexivity|]. eauto.
Qed.

(** C10. An RTPFB NACK sub-packet whose media ssrc resolves to a
    Consumer of the Peer, wherever it stands in the compound, is handed
    to that Consumer through ReceiveNack, and that is all it
    contributes; the Consumer's active flag is not consulted, so an
    inactive Consumer receives the NACK as an active one does. *)
Theorem RTPFB_NACK_reaches_consumer (p : Peer) (transport : Transport)
  (before after : list RTCP.Packet) (feedback : RTCP.FeedbackRtpPacket)
  (consumer : Consumer) :
  RTCP.rtp_messageType feedback = FeedbackRtp.NACK ->
  GetConsumer p (RTCP.rtp_mediaSsrc feedback) = Some consumer ->
  OnTransportRtcpPacket p transport (before ++ RTCP.RTPFB feedback :: after)
  = OnTransportRtcpPacket p transport before
    ++ [ConsumerReceiveNack (consumerId consumer) feedback]
    ++ OnTransportRtcpPacket p transport after.
Proof.
  intros Htype Hfound.
  rewrite OnTransportRtcpPacket_middle. simpl.
  unfold OnTransportRtcpPacket_RTPFB.
  now rewrite Htype, Hfound.
Qed.

(** ** Destruction *)

Lemma Destroy_producers_spec (m : Map Producer) :
  Destroy_producers m
  = ([], map (fun producer => ProducerDestroy (producerId producer)) (map_values m)).
Proof.
  induction m as [|[k producer] rest IH]; simpl; [reflexivity|].
  now rewrite IH.
Qed.

Lemma Destroy_consumers_spec (m : Map Consumer) :
  Destroy_consumers m
  = ([], map (fun consumer => ConsumerDestroy (consumerId consumer)) (map_values m)).
Proof.
  induction m as [|[k consumer] rest IH]; simpl; [reflexivity|].
  now rewrite IH.
Qed.

Lemma Destroy_transports_spec (m : Map Transport) :
  Destroy_transports m
  = ([], map (fun transport => TransportDestroy (transportId transport)) (map_values m)).
Proof.
  induction m as [|[k transport] rest IH]; simpl; [reflexivity|].
  now rewrite IH.
Qed.

Lemma filter_map_none {A B : Type} (f : B -> bool) (g : A -> B) (l : list A) :
  (forall x, f (g x) = false) -> filter f (map g l) = [].
Proof.
  intros H. induction l as [|a rest IH]; simpl; [reflexivity|].
  now rewrite H.
Qed.

Lemma Destroy_spec (p : Peer) :
  Destroy p
  = (with_consumers (with_producers (with_transports p []) []) [],
     map (fun producer => ProducerDestroy (producerId producer))
       (map_values (producers p))
     ++ map (fun consumer => ConsumerDestroy (consumerId consumer))
          (map_values (consumers p))
     ++ map (fun transport => TransportDestroy (transportId transport))
          (map_values (transports p))
     ++ [NotifierEmit (peerId p) "close"; OnPeerClosed (peerId p); TimerDestroy]).
Proof.
  unfold Destroy.
  now rewrite Destroy_producers_spec, Destroy_consumers_spec, Destroy_transports_spec.
Qed.

(** C9. Destroy destroys every Producer of the map, in the map's order,
    then every Consumer, then every Transport; after the last child it
    emits the close notification and then calls OnPeerClosed on the
    listener, once in the whole trace. The three maps are empty
    afterwards. *)
Theorem Destroy_cascade_order (p : Peer) :
  snd (Destroy p)
  = map (fun producer => ProducerDestroy (producerId producer))
      (map_values (producers p))
    ++ map (fun consumer => ConsumerDestroy (consumerId consumer))
         (map_values (consumers p))
    ++ map (fun transport => TransportDestroy (transportId transport))
         (map_values (transports p))
    ++ [NotifierEmit (peerId p) "close"; OnPeerClosed (peerId p); TimerDestroy]
  /\ filter is_OnPeerClosed (snd (Destroy p)) = [OnPeerClosed (peerId p)]
  /\ producers (fst (Destroy p)) = []
  /\ consumers (fst (Destroy p)) = []
  /\ transports (fst (Destroy p)) = [].
Proof.
  rewrite Destroy_spec. simpl.
  repeat split.
  rewrite !filter_app.
  rewrite !filter_map_none by reflexivity.
  reflexivity.
Qed.

(** ** The request dispatcher *)

(* What one AddConsumer does when its assertion holds. *)
Lemma AddConsumer_spec (p : Peer) (consumer : Consumer) (parameters : RtpParameters)
  (associated : Z) (p' : Peer) (calls : list Call) :
  AddConsumer p consumer parameters associated = Some (p', calls) ->
  let stored := Consumer_Send (capabilities p) consumer parameters in
  map_find (consumerId consumer) (consumers p) = None
  /\ p' = with_consumers p (map_set (consumerId stored) stored (consumers p))
  /\ calls = [ConsumerSetPeerCapabilities (consumerId consumer);
              ConsumerSend (consumerId consumer);
              EmitNewConsumer (peerId p) (consumerId stored) associated].
Proof.
  unfold AddConsumer.
  destruct (map_find (consumerId consumer) (consumers p)); [discriminate|].
  intros H. injection H as <- <-. repeat split.
Qed.

(* The calls of AddConsumer in one up-call touch the consumer map only. *)
Lemma AddConsumers_kept (p : Peer) (additions : list NewConsumer) :
  let p' := fst (fst (AddConsumers p additions)) in
  peerId p' = peerId p
  /\ peerName p' = peerName p
  /\ hasCapabilities p' = hasCapabilities p
  /\ capabilities p' = capabilities p
  /\ transports p' = transports p
  /\ producers p' = producers p.
Proof.
  revert p. induction additions as [|a rest IH]; intros p; simpl.
  - repeat split.
  - destruct (AddConsumer p (added_consumer a) (added_parameters a)
                (added_associatedProducerId a)) as [[p1 calls1]|] eqn:Ha; simpl.
    + apply AddConsumer_spec in Ha. destruct Ha as (_ & -> & _).
      specialize (IH (with_consumers p
                        (map_set
                           (consumerId (Consumer_Send (capabilities p) (added_consumer a)
                                          (added_parameters a)))
                           (Consumer_Send (capabilities p) (added_consumer a)
                              (added_parameters a))
                           (consumers p)))).
      destruct (AddConsumers _ rest) as [[p2 calls2] ok]. simpl in *. exact IH.
    + repeat split.
Qed.

(* When no assertion failed, every Consumer the Room added was announced
   with a newconsumer event. *)
Lemma AddConsumers_announced (p : Peer) (additions : list NewConsumer) (a : NewConsumer) :
  snd (AddConsumers p additions) = true ->
  In a additions ->
  In (EmitNewConsumer (peerId p)
        (consumerId (Consumer_Send (capabilities p) (added_consumer a)
                       (added_parameters a)))
        (added_associatedProducerId a))
     (snd (fst (AddConsumers p additions))).
Proof.
  revert p. induction additions as [|a0 rest IH]; intros p; simpl; [intros _ []|].
  destruct (AddConsumer p (added_consumer a0) (added_parameters a0)
              (added_associatedProducerId a0)) as [[p1 calls1]|] eqn:Ha; simpl;
    [|discriminate].
  apply AddConsumer_spec in Ha. destruct Ha as (_ & Hp1 & ->).
  specialize (IH p1).
  destruct (AddConsumers p1 rest) as [[p2 calls2] ok]. simpl in *.
  intros Hok [<-|Hin].
  - right. right. left. reflexivity.
  - right. right. right.
    specialize (IH Hok Hin). rewrite Hp1 in IH. exact IH.
Qed.

(* When no assertion failed and Send keeps the ids, the Consumers that
   were there are still there and every Consumer the Room added is found
   under its id. *)
Lemma AddConsumers_found (p : Peer) (additions : list NewConsumer) :
  snd (AddConsumers p additions) = true ->
  (forall a, In a additions ->
     consumerId (Consumer_Send (capabilities p) (added_consumer a) (added_parameters a))
     = consumerId (added_consumer a)) ->
  (forall k c, map_find k (consumers p) = Some c ->
     map_find k (consumers (fst (fst (AddConsumers p additions)))) = Some c)
  /\ (forall a, In a additions ->
        map_find (consumerId (added_consumer a))
          (consumers (fst (fst (AddConsumers p additions))))
        = Some (Consumer_Send (capabilities p) (added_consumer a) (added_parameters a))).
Proof.
  revert p. induction additions as [|a0 rest IH]; intros p; simpl.
  - intros _ _. split; [auto | intros a []].
  - destruct (AddConsumer p (added_consumer a0) (added_parameters a0)
                (added_associatedProducerId a0)) as [[p1 calls1]|] eqn:Ha; simpl;
      [|discriminate].
    apply AddConsumer_spec in Ha. destruct Ha as (Hfresh & Hp1 & _).
    specialize (IH p1).
    destruct (AddConsumers p1 rest) as [[p2 calls2] ok]. cbn [fst snd] in *.
    intros Hok Hids.
    assert (Hid0 := Hids a0 (or_introl eq_refl)).
    rewrite Hid0 in Hp1.
    assert (Hcaps : capabilities p1 = capabilities p) by (now rewrite Hp1).
    assert (Hkept1 : forall k c, map_find k (consumers p) = Some c ->
                                 map_find k (consumers p1) = Some c).
    { intros k c Hk. rewrite Hp1. simpl.
      rewrite map_find_set_other; [exact Hk|].
      intros E. rewrite <- E, Hfresh in Hk. discriminate. }
    assert (Hstored1 : map_find (consumerId (added_consumer a0)) (consumers p1)
                       = Some (Consumer_Send (capabilities p) (added_consumer a0)
                                 (added_parameters a0)))
      by (rewrite Hp1; simpl; apply map_find_set_same).
    destruct (IH Hok) as [IHkept IHadded].
    { intros a Hin. rewrite Hcaps. apply Hids. now right. }
    split.
    + intros k c Hk. apply IHkept. now apply Hkept1.
    + intros a [<-|Hin].
      * apply IHkept. exact Hstored1.
      * rewrite <- Hcaps. now apply IHadded.
Qed.

(** C8. PEER_SET_CAPABILITIES on a Peer that has its capabilities is
    rejected and changes nothing. On a Peer that has none, capabilities
    that fail to parse are rejected with the parser's error and nothing
    is stored. Capabilities that parse are stored and the flag is set;
    then the listener is notified, with the Peer holding them. When the
    notification has returned the Peer holds the capabilities as the
    listener reduced them and the Consumers the listener added (each is
    found under its id, beside those that were there, when Send keeps
    the ids), a newconsumer event was sent for each of them during the
    notification, and the request is accepted last, with the reduced
    capabilities; without Consumers to add, the Peer differs from the
    one before in the flag and the capabilities only. When an
    AddConsumer of the notification fails its assertion the notification
    does not return and the request is not answered. Whenever the
    request is accepted, a second PEER_SET_CAPABILITIES is rejected. *)
Theorem PEER_SET_CAPABILITIES_set_once (p : Peer) (request : Request) :
  methodId request = PEER_SET_CAPABILITIES ->
  let r := HandleRequest p request in
  (hasCapabilities p = true ->
   r = returned p [RequestReject "peer capabilities already set"])
  /\ (hasCapabilities p = false ->
      match RtpCapabilities_new (data request) with
      | inl error => r = returned p [RequestReject error]
      | inr parsed =>
          let holding (c : RtpCapabilities) :=
            {| peerId := peerId p;
               peerName := peerName p;
               hasCapabilities := true;
               capabilities := c;
               transports := transports p;
               producers := producers p;
               consumers := consumers p |} in
          let reduced := fst (Listener_OnPeerCapabilities (holding parsed) parsed) in
          let additions := snd (Listener_OnPeerCapabilities (holding parsed) parsed) in
          hasCapabilities (peer_after r) = true
          /\ capabilities (peer_after r) = reduced
          /\ peerId (peer_after r) = peerId p
          /\ peerName (peer_after r) = peerName p
          /\ transports (peer_after r) = transports p
          /\ producers (peer_after r) = producers p
          /\ (exists calls ok,
                AddConsumers (holding reduced) additions = (peer_after r, calls, ok)
                /\ if ok
                   then outcome r = Returned
                        /\ trace r = [OnPeerCapabilities (peerId p) calls;
                                      RequestAccept (CapabilitiesJson reduced)]
                        /\ (forall a, In a additions ->
                              In (EmitNewConsumer (peerId p)
                                    (consumerId
                                       (Consumer_Send reduced (added_consumer a)
                                          (added_parameters a)))
                                    (added_associatedProducerId a))
                                 calls)
                        /\ ((forall a, In a additions ->
                               consumerId
                                 (Consumer_Send reduced (added_consumer a)
                                    (added_parameters a))
                               = consumerId (added_consumer a)) ->
                            (forall k c, map_find k (consumers p) = Some c ->
                               map_find k (consumers (peer_after r)) = Some c)
                            /\ (forall a, In a additions ->
                                  map_find (consumerId (added_consumer a))
                                    (consumers (peer_after r))
                                  = Some (Consumer_Send reduced (added_consumer a)
                                            (added_parameters a))))
                   else outcome r = Aborted
                        /\ trace r = [OnPeerCapabilities (peerId p) calls])
          /\ (additions = [] ->
              r = returned (holding reduced)
                    [OnPeerCapabilities (peerId p) [];
                     RequestAccept (CapabilitiesJson reduced)])
      end)
  /\ (forall second,
        methodId second = PEER_SET_CAPABILITIES ->
        existsb is_accept (trace r) = true ->
        HandleRequest (peer_after r) second
        = returned (peer_after r) [RequestReject "peer capabilities already set"]).
Proof.
  intros Hm r. subst r.
  unfold HandleRequest. rewrite Hm.
  unfold HandleRequest_PEER_SET_CAPABILITIES, reject.
  split; [|split].
  - now intros ->.
  - intros ->. destruct (RtpCapabilities_new (data request)) as [error|parsed];
      [reflexivity|].
    cbv zeta. fold (with_capabilities p parsed).
    destruct (Listener_OnPeerCapabilities (with_capabilities p parsed) parsed)
      as [reduced additions]. cbn [fst snd].
    fold (with_capabilities p reduced).
    pose proof (AddConsumers_kept (with_capabilities p reduced) additions) as Hkept.
    pose proof (AddConsumers_announced (with_capabilities p reduced) additions) as Hsent.
    pose proof (AddConsumers_found (with_capabilities p reduced) additions) as Hfound.
    destruct (AddConsumers (with_capabilities p reduced) additions)
      as [[p2 calls] ok] eqn:Hadd.
    cbn [fst snd] in Hkept, Hsent, Hfound.
    destruct Hkept as (Hid & Hname & Hhas & Hcaps & Htransports & Hproducers).
    assert (Hafter :
              peer_after
                (if ok
                 then returned p2 [OnPeerCapabilities (peerId p) calls;
                                   RequestAccept (CapabilitiesJson reduced)]
                 else {| outcome := Aborted; peer_after := p2;
                         trace := [OnPeerCapabilities (peerId p) calls] |}) = p2)
      by (destruct ok; reflexivity).
    rewrite Hafter.
    repeat split; try assumption.
    + exists calls, ok. split; [reflexivity|].
      destruct ok; [|split; reflexivity].
      split; [reflexivity|]. split; [reflexivity|].
      split; [intros a Ha; exact (Hsent a eq_refl Ha)|].
      intros Hids. exact (Hfound eq_refl Hids).
    + intros ->. simpl in Hadd. injection Hadd as <- <- <-. reflexivity.
  - intros second Hs. rewrite Hs.
    destruct (hasCapabilities p) eqn:Hc; [simpl; discriminate|].
    destruct (RtpCapabilities_new (data request)) as [error|parsed];
      simpl; [discriminate|].
    destruct (Listener_OnPeerCapabilities (with_capabilities p parsed) parsed)
      as [reduced additions].
    pose proof (AddConsumers_kept (with_capabilities p reduced) additions) as Hkept.
    destruct (AddConsumers (with_capabilities p reduced) additions)
      as [[p2 calls] ok].
    cbn [fst snd] in Hkept. destruct Hkept as (_ & _ & Hhas & _).
    destruct ok; simpl; [|discriminate].
    intros _. rewrite Hhas. reflexivity.
Qed.

Lemma GetProducerFromRequest_found (p : Peer) (request : Request)
  (producer : Producer) (id : Z) :
  GetProducerFromRequest p request = inr (Some producer, id) ->
  map_find id (producers p) = Some producer.
Proof.
  unfold GetProducerFromRequest.
  destruct (negb (Json.isUInt (Json.get (internal request) "producerId")));
    [discriminate|].
  intros H. injection H as H1 H2. now rewrite <- H2.
Qed.

Lemma GetTransportFromRequest_found (p : Peer) (request : Request)
  (transport : Transport) (tid : Z) :
  GetTransportFromRequest p request = inr (Some transport, tid) ->
  map_find tid (transports p) = Some transport.
Proof.
  unfold GetTransportFromRequest.
  destruct (negb (Json.isUInt (Json.get (internal request) "transportId")));
    [discriminate|].
  intros H. injection H as H1 H2. now rewrite <- H2.
Qed.

Lemma PRODUCER_SET_TRANSPORT_trace_head (p : Peer) (request : Request)
  (producer : Producer) (id : Z) (transport : Transport) (tid : Z) :
  GetProducerFromRequest p request = inr (Some producer, id) ->
  GetTransportFromRequest p request = inr (Some transport, tid) ->
  exists rest,
    trace (HandleRequest_PRODUCER_SET_TRANSPORT p request)
    = TransportAddProducer (transportId transport) (producerId producer) :: rest.
Proof.
  intros Hp Ht.
  unfold HandleRequest_PRODUCER_SET_TRANSPORT. rewrite Hp, Ht.
  destruct (Transport_AddProducer transport producer); [simpl; eauto|].
  destruct (producer_transport producer) as [previous|]; [|simpl; eauto].
  destruct (map_find previous (transports p)) as [pt|]; [|simpl; eauto].
  destruct (HasRemb pt); simpl; eauto.
Qed.

(** C6. In PRODUCER_SET_TRANSPORT, once the Producer and the Transport
    are resolved, AddProducer on the new Transport is the first thing
    called, so it precedes every update of the Producer's transport.
    Whenever AddProducer throws, the request is rejected with the error,
    SetTransport is never called, and the Peer, hence the Producer found
    under its id and the Transport it refers to, is as it was before. *)
Theorem PRODUCER_SET_TRANSPORT_AddProducer_first (p : Peer) (request : Request)
  (producer : Producer) (id : Z) (transport : Transport) (tid : Z) :
  methodId request = PRODUCER_SET_TRANSPORT ->
  GetProducerFromRequest p request = inr (Some producer, id) ->
  GetTransportFromRequest p request = inr (Some transport, tid) ->
  (exists rest,
     trace (HandleRequest p request)
     = TransportAddProducer (transportId transport) (producerId producer) :: rest)
  /\ (forall before after pid t,
        trace (HandleRequest p request)
        = before ++ ProducerSetTransport pid t :: after ->
        In (TransportAddProducer (transportId transport) (producerId producer)) before)
  /\ (forall error,
        Transport_AddProducer transport producer = Some error ->
        HandleRequest p request
        = returned p
            [TransportAddProducer (transportId transport) (producerId producer);
             RequestReject error]
        /\ map_find id (producers (peer_after (HandleRequest p request)))
           = Some producer
        /\ (forall pid t,
              ~ In (ProducerSetTransport pid t) (trace (HandleRequest p request)))).
Proof.
  intros Hm Hp Ht.
  pose proof (GetProducerFromRequest_found _ _ _ _ Hp) as Hfind.
  pose proof (PRODUCER_SET_TRANSPORT_trace_head _ _ _ _ _ _ Hp Ht) as Hhead.
  unfold HandleRequest. rewrite Hm.
  split; [exact Hhead|].
  split.
  - intros before after pid t Heq.
    destruct Hhead as [rest Hrest]. rewrite Hrest in Heq.
    destruct before as [|e before]; simpl in Heq.
    + discriminate.
    + injection Heq as <- _. now left.
  - intros error Herr.
    unfold HandleRequest_PRODUCER_SET_TRANSPORT. rewrite Hp, Ht, Herr. simpl.
    split; [reflexivity|]. split; [exact Hfind|].
    intros pid t [H|[H|[]]]; discriminate.
Qed.

(** C7. In a PRODUCER_SET_TRANSPORT request that resolves its Producer
    and its Transport and whose AddProducer succeeds: when the Producer
    had a Transport with REMB enabled, EnableRemb is called on the new
    Transport after AddProducer and before the Producer's transport is
    set to it, and the request is accepted; afterwards the new Transport
    has REMB and the Producer refers to it. When the Producer had no
    Transport, or one without REMB, EnableRemb is called on no Transport,
    and the Producer's transport is set and the request accepted all the
    same. *)
Theorem PRODUCER_SET_TRANSPORT_REMB_carry_over (p : Peer) (request : Request)
  (producer : Producer) (id : Z) (transport : Transport) (tid : Z) :
  methodId request = PRODUCER_SET_TRANSPORT ->
  GetProducerFromRequest p request = inr (Some producer, id) ->
  GetTransportFromRequest p request = inr (Some transport, tid) ->
  Transport_AddProducer transport producer = None ->
  let r := HandleRequest p request in
  (forall previous previousTransport,
     producer_transport producer = Some previous ->
     map_find previous (transports p) = Some previousTransport ->
     HasRemb previousTransport = true ->
     outcome r = Returned
     /\ trace r
        = [TransportAddProducer (transportId transport) (producerId producer);
           TransportEnableRemb (transportId transport);
           ProducerSetTransport (producerId producer) (transportId transport);
           RequestAccept NoPayload]
     /\ option_map HasRemb (map_find tid (transports (peer_after r))) = Some true
     /\ option_map producer_transport (map_find id (producers (peer_after r)))
        = Some (Some (transportId transport)))
  /\ (producer_transport producer = None
      \/ (exists previous previousTransport,
            producer_transport producer = Some previous
            /\ map_find previous (transports p) = Some previousTransport
            /\ HasRemb previousTransport = false) ->
      outcome r = Returned
      /\ trace r
         = [TransportAddProducer (transportId transport) (producerId producer);
            ProducerSetTransport (producerId producer) (transportId transport);
            RequestAccept NoPayload]
      /\ (forall t, ~ In (TransportEnableRemb t) (trace r))
      /\ transports (peer_after r) = transports p
      /\ option_map producer_transport (map_find id (producers (peer_after r)))
         = Some (Some (transportId transport))).
Proof.
  intros Hm Hp Ht Hadd r. subst r.
  unfold HandleRequest. rewrite Hm.
  unfold HandleRequest_PRODUCER_SET_TRANSPORT. rewrite Hp, Ht, Hadd.
  split.
  - intros previous pt Hprev Hfind Hremb.
    rewrite Hprev, Hfind, Hremb. simpl.
    rewrite !map_find_set_same. simpl.
    repeat split.
  - intros [Hnone | (previous & pt & Hprev & Hfind & Hremb)].
    + rewrite Hnone. simpl. rewrite map_find_set_same. simpl.
      repeat split.
      intros t [H|[H|[H|[]]]]; discriminate.
    + rewrite Hprev, Hfind, Hremb. simpl. rewrite map_find_set_same. simpl.
      repeat split.
      intros t [H|[H|[H|[]]]]; discriminate.
Qed.

(** C1. A PEER_CREATE_PRODUCER request on a Peer with capabilities, with
    a producer id not in use and the id of an existing Transport, whose
    data has no string under kind, is not rejected: the MediaSoupError
    for the missing kind leaves HandleRequest, the request is neither
    accepted nor rejected, and the Peer is unchanged. *)
Theorem PEER_CREATE_PRODUCER_missing_kind_throws (p : Peer) (request : Request)
  (id : Z) (transport : Transport) (tid : Z) :
  methodId request = PEER_CREATE_PRODUCER ->
  hasCapabilities p = true ->
  GetProducerFromRequest p request = inr (None, id) ->
  GetTransportFromRequest p request = inr (Some transport, tid) ->
  Json.isString (Json.get (data request) "kind") = false ->
  HandleRequest p request
  = {| outcome := Thrown "missing kind"; peer_after := p; trace := [] |}
  /\ answers (trace (HandleRequest p request)) = 0%nat.
Proof.
  intros Hm Hc Hp Ht Hk.
  unfold HandleRequest. rewrite Hm.
  unfold HandleRequest_PEER_CREATE_PRODUCER.
  rewrite Hc, Hp, Ht, Hk. simpl.
  split; reflexivity.
Qed.

(* Unfolds the handler of every method. *)
Ltac unfold_handlers :=
  unfold HandleRequest_PEER_CLOSE, HandleRequest_PEER_DUMP,
    HandleRequest_PEER_SET_CAPABILITIES, HandleRequest_PEER_CREATE_TRANSPORT,
    HandleRequest_PEER_CREATE_PRODUCER, HandleRequest_TRANSPORT,
    HandleRequest_PRODUCER, HandleRequest_PRODUCER_SET_TRANSPORT,
    HandleRequest_CONSUMER, HandleRequest_CONSUMER_SET_TRANSPORT, reject, returned.



(** ** Single-precision rounding *)

Lemma digits2_pos_bounds (p : positive) :
  2 ^ (Zpos (digits2_pos p) - 1) <= Zpos p < 2 ^ Zpos (digits2_pos p).
Proof.
  induction p as [p IH|p IH|]; simpl digits2_pos.
  - rewrite Pos2Z.inj_succ.
    replace (Z.succ (Zpos (digits2_pos p)) - 1) with (Z.succ (Zpos (digits2_pos p) - 1)) by lia.
    rewrite !Z.pow_succ_r by lia. lia.
  - rewrite Pos2Z.inj_succ.
    replace (Z.succ (Zpos (digits2_pos p)) - 1) with (Z.succ (Zpos (digits2_pos p) - 1)) by lia.
    rewrite !Z.pow_succ_r by lia. lia.
  - simpl. lia.
Qed.

Lemma digits2_pos_unique (p : positive) (k : Z) :
  2 ^ (k - 1) <= Zpos p < 2 ^ k -> Zpos (digits2_pos p) = k.
Proof.
  intros [Hlo Hhi].
  pose proof (digits2_pos_bounds p) as [Dlo Dhi].
  assert (0 < k).
  { destruct (Z_lt_le_dec 0 k); [assumption|].
    assert (2 ^ k <= 2 ^ 0) by (destruct (Z_lt_le_dec k 0);
      [rewrite Z.pow_neg_r by lia; simpl; lia | apply Z.pow_le_mono_r; lia]).
    simpl in *. lia. }
  destruct (Z_lt_le_dec (Zpos (digits2_pos p)) k) as [Hlt|Hge].
  - assert (2 ^ Zpos (digits2_pos p) <= 2 ^ (k - 1)) by (apply Z.pow_le_mono_r; lia).
    lia.
  - destruct (Z_lt_le_dec k (Zpos (digits2_pos p))) as [Hlt|Hle]; [|lia].
    assert (2 ^ k <= 2 ^ (Zpos (digits2_pos p) - 1)) by (apply Z.pow_le_mono_r; lia).
    lia.
Qed.

Section Shift.

Variable P : Z.
Hypothesis P_nonneg : 0 <= P.

Lemma shifted_0 : shifted P 0 {| shr_m := P; shr_r := false; shr_s := false |}.
Proof.
  unfold shifted; simpl. rewrite Z.div_1_r. auto with zarith.
Qed.

Lemma shifted_shr_1 (k : Z) (r : shr_record) :
  shifted P k r -> shifted P (k + 1) (shr_1 r).
Proof.
  intros (Hk & Hm & Hex).
  assert (Hpow : 0 < 2 ^ k) by (apply Z.pow_pos_nonneg; lia).
  assert (Hsucc : 2 ^ (k + 1) = 2 ^ k * 2) by (rewrite Z.pow_add_r by lia; reflexivity).
  assert (Hdiv : P / 2 ^ (k + 1) = P / 2 ^ k / 2)
    by (rewrite Hsucc, Z.div_div by lia; reflexivity).
  assert (Hq : 0 <= P / 2 ^ k) by (apply Z.div_pos; lia).
  assert (Hexact : P mod 2 ^ (k + 1) = 0 ->
                   P mod 2 ^ k = 0 /\ P / 2 ^ k = 2 * (P / 2 ^ (k + 1))).
  { intros Hz.
    pose proof (Z.div_mod P (2 ^ (k + 1)) ltac:(lia)) as Hdm.
    rewrite Hz, Hsucc in Hdm.
    set (t := P / (2 ^ k * 2)) in *.
    assert (HP : P = 2 * t * 2 ^ k) by lia.
    rewrite Hsucc. fold t.
    split.
    - rewrite HP. apply Z.mod_mul. lia.
    - rewrite HP at 1. apply Z.div_mul. lia. }
  destruct r as [m rb sb]; cbn [shr_m shr_r shr_s] in *.
  unfold shifted, shr_1.
  destruct m as [|[p|p|]|p]; [ | | | | exfalso; lia];
    simpl; rewrite Hdiv, <- Hm; (split; [lia | split]).
  - reflexivity.
  - intros Hz. destruct (Hexact Hz) as [H0 _].
    destruct (Hex H0) as [-> ->]. auto.
  - apply Z.div_unique with 1; lia.
  - intros Hz. destruct (Hexact Hz) as [_ H2]. lia.
  - apply Z.div_unique with 0; lia.
  - intros Hz. destruct (Hexact Hz) as [H0 _].
    destruct (Hex H0) as [-> ->]. auto.
  - reflexivity.
  - intros Hz. destruct (Hexact Hz) as [_ H2]. lia.
Qed.

Lemma shifted_iter_pos (n : positive) :
  forall k r, shifted P k r -> shifted P (k + Zpos n) (iter_pos shr_1 n r).
Proof.
  induction n as [n IH|n IH|]; intros k r H; simpl.
  - replace (k + Zpos n~1) with (k + 1 + Zpos n + Zpos n) by lia.
    apply IH, IH, shifted_shr_1, H.
  - replace (k + Zpos n~0) with (k + Zpos n + Zpos n) by lia.
    apply IH, IH, H.
  - apply shifted_shr_1, H.
Qed.

Lemma shr_shifted (E n : Z) :
  0 <= n ->
  shifted P n (fst (shr {| shr_m := P; shr_r := false; shr_s := false |} E n))
  /\ snd (shr {| shr_m := P; shr_r := false; shr_s := false |} E n) = E + n.
Proof.
  intros Hn.
  destruct n as [|n|n]; simpl.
  - split; [apply shifted_0 | lia].
  - split; [|reflexivity].
    apply (shifted_iter_pos n 0), shifted_0.
  - lia.
Qed.

(* Rounding the shifted mantissa to nearest gives the quotient or its
   successor, and the quotient when the division is exact. *)
Lemma round_nearest_even_shifted (n : Z) (r : shr_record) :
  shifted P n r ->
  let m := round_nearest_even (shr_m r) (loc_of_shr_record r) in
  m = P / 2 ^ n \/ (m = P / 2 ^ n + 1 /\ P mod 2 ^ n <> 0).
Proof.
  intros (Hn & Hm & Hex) m. subst m.
  destruct (Z.eq_dec (P mod 2 ^ n) 0) as [Hz|Hnz].
  - destruct (Hex Hz) as [Hr Hs].
    destruct r as [mr rb sb]; simpl in *. subst rb sb. simpl. now left.
  - destruct r as [mr [|] [|]]; simpl in *; subst mr;
      try destruct (Z.even (P / 2 ^ n)); auto.
Qed.

Lemma round_nearest_even_between (n : Z) (r : shr_record) :
  shifted P n r ->
  let m := round_nearest_even (shr_m r) (loc_of_shr_record r) in
  P / 2 ^ n * 2 ^ n <= m * 2 ^ n <= (P + 2 ^ n - 1) / 2 ^ n * 2 ^ n
  /\ P / 2 ^ n <= m <= P / 2 ^ n + 1.
Proof.
  intros H m.
  pose proof (round_nearest_even_shifted n r H) as Hcases. fold m in Hcases.
  destruct H as (Hn & _ & _).
  assert (Hpow : 0 < 2 ^ n) by (apply Z.pow_pos_nonneg; lia).
  pose proof (Z.div_mod P (2 ^ n) ltac:(lia)) as Hdm.
  pose proof (Z.mod_pos_bound P (2 ^ n) Hpow) as Hrem.
  assert (Hceil : P / 2 ^ n <= (P + 2 ^ n - 1) / 2 ^ n)
    by (apply Z.div_le_mono; lia).
  destruct Hcases as [-> | [-> Hnz]].
  - split; [|lia]. split; [lia|]. apply Z.mul_le_mono_nonneg_r; lia.
  - assert (P / 2 ^ n + 1 <= (P + 2 ^ n - 1) / 2 ^ n)
      by (apply Z.div_le_lower_bound; lia).
    split; [|lia]. split; apply Z.mul_le_mono_nonneg_r; lia.
Qed.

End Shift.

Lemma shr_fexp_exact (m E : Z) :
  shr_fexp 24 128 m E loc_Exact
  = shr {| shr_m := m; shr_r := false; shr_s := false |} E
      (fexp 24 128 (Zdigits2 m + E) - E).
Proof. reflexivity. Qed.

(* Rounding an exact positive value P * 2^E of at least 24 digits, in the
   normal range: the result lies between P rounded down and P rounded up
   to 24 digits. *)
Lemma binary_round_aux_normal (P : positive) (E : Z) :
  let n := Zpos (digits2_pos P) - 24 in
  0 <= n -> -149 <= E + n -> E + n + 1 <= 104 ->
  exists m e,
    binary_round_aux 24 128 false (Zpos P) E loc_Exact = S754_finite false m e
    /\ E <= e
    /\ Zpos P / 2 ^ n * 2 ^ n <= Zpos m * 2 ^ (e - E)
       <= (Zpos P + 2 ^ n - 1) / 2 ^ n * 2 ^ n
    /\ 2 ^ 23 <= Zpos m < 2 ^ 24.
Proof.
  intros n Hn Hlo Hhi.
  assert (Hpow : 0 < 2 ^ n) by (apply Z.pow_pos_nonneg; lia).
  unfold binary_round_aux. rewrite shr_fexp_exact.
  replace (fexp 24 128 (Zdigits2 (Zpos P) + E) - E) with n
    by (unfold fexp, emin; simpl Zdigits2; lia).
  destruct (shr_shifted (Zpos P) (Pos2Z.is_nonneg P) E n Hn) as [Hsh He].
  destruct (shr {| shr_m := Zpos P; shr_r := false; shr_s := false |} E n)
    as [mrs' e'].
  cbn [fst snd] in Hsh, He. subst e'.
  destruct (round_nearest_even_between (Zpos P) n mrs' Hsh)
    as [Hbetween Hq].
  set (m1 := round_nearest_even (shr_m mrs') (loc_of_shr_record mrs')) in *.
  destruct (digits2_pos_bounds P) as [Dlo Dhi].
  replace (Zpos (digits2_pos P) - 1) with (n + 23) in Dlo by lia.
  replace (Zpos (digits2_pos P)) with (n + 24) in Dhi by lia.
  rewrite Z.pow_add_r in Dlo, Dhi by lia.
  assert (Hq23 : 2 ^ 23 <= Zpos P / 2 ^ n) by (apply Z.div_le_lower_bound; lia).
  assert (Hq24 : Zpos P / 2 ^ n < 2 ^ 24) by (apply Z.div_lt_upper_bound; lia).
  rewrite shr_fexp_exact.
  destruct (Z.eq_dec m1 (2 ^ 24)) as [Hcarry|Hnocarry].
  - rewrite Hcarry in *.
    replace (fexp 24 128 (Zdigits2 (2 ^ 24) + (E + n)) - (E + n)) with 1
      by (unfold fexp, emin; simpl Zdigits2; lia).
    replace (shr {| shr_m := 2 ^ 24; shr_r := false; shr_s := false |} (E + n) 1)
      with ({| shr_m := 8388608; shr_r := false; shr_s := false |}, E + n + 1)
      by reflexivity.
    cbn [shr_m].
    exists 8388608%positive, (E + n + 1).
    replace (E + n + 1 <=? 128 - 24) with true by (symmetry; apply Z.leb_le; lia).
    split; [reflexivity|].
    split; [lia|].
    split; [|lia].
    replace (E + n + 1 - E) with (1 + n) by lia.
    rewrite Z.pow_add_r by lia.
    replace (Zpos 8388608 * (2 ^ 1 * 2 ^ n)) with (2 ^ 24 * 2 ^ n) by lia.
    exact Hbetween.
  - destruct m1 as [|pm|pm] eqn:Hm1; try lia.
    assert (Hdig : Zpos (digits2_pos pm) = 24)
      by (apply digits2_pos_unique; lia).
    replace (fexp 24 128 (Zdigits2 (Zpos pm) + (E + n)) - (E + n)) with 0
      by (unfold fexp, emin; simpl Zdigits2; lia).
    cbn [shr shr_m].
    exists pm, (E + n).
    replace (E + n <=? 128 - 24) with true by (symmetry; apply Z.leb_le; lia).
    split; [reflexivity|].
    split; [lia|].
    split; [|lia].
    replace (E + n - E) with n by lia.
    exact Hbetween.
Qed.

Lemma Pos_iter_xO (n p : positive) :
  Zpos (Pos.iter xO p n) = Zpos p * 2 ^ Zpos n.
Proof.
  induction n as [|n IH] using Pos.peano_ind.
  - simpl. lia.
  - rewrite Pos.iter_succ, Pos2Z.inj_succ, Z.pow_succ_r by lia.
    rewrite Pos2Z.inj_xO, IH. lia.
Qed.

(* An unsigned integer below 2^24 converts without rounding: the
   mantissa is the integer, shifted to 24 digits. *)
Lemma of_uint_exact (base : Z) :
  0 < base < 2 ^ 24 ->
  exists m k,
    Float32.of_uint base = S754_finite false m (- k)
    /\ 0 <= k <= 23
    /\ Zpos m = base * 2 ^ k
    /\ 2 ^ 23 <= Zpos m < 2 ^ 24.
Proof.
  intros [Hpos Hlt].
  destruct base as [|pb|pb]; try lia.
  destruct (digits2_pos_bounds pb) as [Dlo Dhi].
  set (d := Zpos (digits2_pos pb)) in *.
  assert (Hd1 : 1 <= d) by (unfold d; lia).
  assert (Hd : d <= 24).
  { destruct (Z_lt_le_dec 24 d) as [H|H]; [|lia].
    assert (2 ^ 24 <= 2 ^ (d - 1)) by (apply Z.pow_le_mono_r; lia). lia. }
  unfold Float32.of_uint, Float32.prec, Float32.emax, binary_normalize, binary_round.
  replace (fexp 24 128 (Zpos (digits2_pos pb) + 0)) with (d - 24)
    by (unfold fexp, emin; fold d; lia).
  unfold shl_align.
  replace (d - 24 - 0) with (d - 24) by lia.
  assert (Hshape : forall mz : positive, forall k : Z,
            0 <= k <= 23 -> Zpos mz = Zpos pb * 2 ^ k ->
            2 ^ 23 <= Zpos mz < 2 ^ 24 ->
            exists m k0,
              binary_round_aux 24 128 false (Zpos mz) (- k) loc_Exact
              = S754_finite false m (- k0)
              /\ 0 <= k0 <= 23
              /\ Zpos m = Zpos pb * 2 ^ k0
              /\ 2 ^ 23 <= Zpos m < 2 ^ 24).
  { intros mz k Hk Hmz Hrange.
    assert (Hdig : Zpos (digits2_pos mz) = 24) by (apply digits2_pos_unique; lia).
    destruct (binary_round_aux_normal mz (- k)) as (m & e & Heq & He & Hv & Hm);
      rewrite ?Hdig; try lia.
    rewrite Hdig in Hv.
    replace (24 - 24) with 0 in Hv by lia.
    rewrite Z.pow_0_r, !Z.mul_1_r, !Z.div_1_r in Hv.
    replace (Zpos mz + 1 - 1) with (Zpos mz) in Hv by lia.
    assert (He0 : e = - k).
    { destruct (Z.eq_dec e (- k)) as [|Hne]; [assumption|].
      assert (2 ^ 1 <= 2 ^ (e - - k)) by (apply Z.pow_le_mono_r; lia).
      change (2 ^ 1) with 2 in *. nia. }
    subst e. replace (- k - - k) with 0 in Hv by lia.
    rewrite Z.pow_0_r, Z.mul_1_r in Hv.
    exists m, k. rewrite Heq.
    repeat split; try lia. }
  destruct (d - 24) as [|neg|dd] eqn:Hdd; try lia.
  - apply (Hshape pb 0); try lia.
    replace (d - 1) with 23 in Dlo by lia.
    replace d with 24 in Dhi by lia. lia.
  - replace (Zneg dd) with (- Zpos dd) by reflexivity.
    assert (Hk : Zpos dd = 24 - d) by lia.
    apply (Hshape (Pos.iter xO pb dd) (Zpos dd)).
    + lia.
    + apply Pos_iter_xO.
    + rewrite Pos_iter_xO, Hk.
      assert (E1 : 2 ^ (d - 1) * 2 ^ (24 - d) = 2 ^ 23)
        by (rewrite <- Z.pow_add_r by lia; f_equal; lia).
      assert (E2 : 2 ^ d * 2 ^ (24 - d) = 2 ^ 24)
        by (rewrite <- Z.pow_add_r by lia; f_equal; lia).
      assert (0 < 2 ^ (24 - d)) by (apply Z.pow_pos_nonneg; lia).
      nia.
Qed.

Lemma to_uint_scaled (m : positive) (e E : Z) :
  E <= e -> E <= 0 ->
  Float32.to_uint (S754_finite false m e) = Zpos m * 2 ^ (e - E) / 2 ^ (- E).
Proof.
  intros He HE.
  assert (Hpow : 0 < 2 ^ (- E)) by (apply Z.pow_pos_nonneg; lia).
  unfold Float32.to_uint.
  destruct e as [|pe|pe].
  - replace (0 - E) with (- E) by lia.
    now rewrite Z.div_mul by lia.
  - rewrite Z.shiftl_mul_pow2 by lia.
    replace (Zpos pe - E) with (Zpos pe + - E) by lia.
    rewrite Z.pow_add_r, Z.mul_assoc, Z.div_mul by lia.
    reflexivity.
  - rewrite Z.shiftr_div_pow2 by lia.
    assert (Hsplit : 2 ^ (- E) = 2 ^ Zpos pe * 2 ^ (Zneg pe - E))
      by (rewrite <- Z.pow_add_r by lia; f_equal; lia).
    assert (0 < 2 ^ (Zneg pe - E)) by (apply Z.pow_pos_nonneg; lia).
    rewrite Hsplit, Z.div_mul_cancel_r by lia.
    reflexivity.
Qed.

(* The product of an integer below 2^22 with a factor between one half
   and three halves, truncated. *)
Lemma mul_to_uint_between (base : Z) (mc : positive) (ec : Z) :
  0 <= base < 2 ^ 22 ->
  ec = -24 \/ ec = -23 ->
  2 ^ 23 <= Zpos mc < 2 ^ 24 ->
  2 ^ (- ec - 1) <= Zpos mc <= 3 * 2 ^ (- ec - 1) ->
  base / 2
  <= Float32.to_uint (Float32.mul (Float32.of_uint base) (S754_finite false mc ec))
  <= 3 * base / 2.
Proof.
  intros [Hb0 Hb] Hec Hmc Hc.
  destruct (Z.eq_dec base 0) as [->|Hnz].
  { change (Float32.to_uint
              (Float32.mul (Float32.of_uint 0) (S754_finite false mc ec))) with 0.
    rewrite Z.mul_0_r, Z.div_0_l; lia. }
  destruct (of_uint_exact base) as (mb & k & -> & Hk & Hmb & Hmbr); [lia|].
  assert (Hk2 : 2 <= k).
  { destruct (Z_lt_le_dec k 2) as [H|H]; [|assumption].
    assert (2 ^ k <= 2 ^ 1) by (apply Z.pow_le_mono_r; lia).
    change (2 ^ 1) with 2 in *. nia. }
  set (u := 2 ^ (k - 2)).
  assert (Hu : 0 < u) by (apply Z.pow_pos_nonneg; lia).
  assert (Hpk : 2 ^ k = 4 * u).
  { replace k with (2 + (k - 2)) at 1 by lia.
    rewrite Z.pow_add_r by lia. reflexivity. }
  unfold Float32.mul, Float32.prec, Float32.emax, SFmul.
  cbn [xorb].
  set (P := (mb * mc)%positive).
  assert (HP : Zpos P = Zpos mb * Zpos mc) by reflexivity.
  assert (HPlo : 2 ^ 46 <= Zpos P) by (change (2 ^ 46) with (2 ^ 23 * 2 ^ 23); nia).
  assert (HPhi : Zpos P < 2 ^ 48) by (change (2 ^ 48) with (2 ^ 24 * 2 ^ 24); nia).
  destruct (digits2_pos_bounds P) as [Dlo Dhi].
  assert (Hdp : Zpos (digits2_pos P) = 47 \/ Zpos (digits2_pos P) = 48).
  { destruct (Z_lt_le_dec (Zpos (digits2_pos P)) 47) as [H|H].
    - assert (2 ^ Zpos (digits2_pos P) <= 2 ^ 46) by (apply Z.pow_le_mono_r; lia). lia.
    - destruct (Z_lt_le_dec 48 (Zpos (digits2_pos P))) as [H'|H']; [|lia].
      assert (2 ^ 48 <= 2 ^ (Zpos (digits2_pos P) - 1)) by (apply Z.pow_le_mono_r; lia).
      lia. }
  destruct (binary_round_aux_normal P (- k + ec)) as (m & e & -> & He & Hv & Hm);
    try lia.
  rewrite (to_uint_scaled m e (- k + ec)) by lia.
  set (V := Zpos m * 2 ^ (e - (- k + ec))) in *.
  set (n := Zpos (digits2_pos P) - 24) in *.
  (* 2^(-E) = 2 * X1 where X1 = 2^k * 2^(-ec-1) *)
  set (pc := 2 ^ (- ec - 1)) in *.
  assert (Hpc : 0 < pc) by (apply Z.pow_pos_nonneg; lia).
  assert (HK : 2 ^ (- (- k + ec)) = 2 * (4 * u * pc)).
  { replace (- (- k + ec)) with (1 + (k + (- ec - 1))) by lia.
    rewrite !Z.pow_add_r, Hpk by lia. reflexivity. }
  rewrite HK.
  (* the half and the three halves, at the scale of V *)
  set (X := base * (4 * u * pc)).
  assert (HXP : X <= Zpos P <= 3 * X) by (unfold X; nia).
  (* X is a multiple of 2^n *)
  assert (Hmult : exists A, 0 <= A /\ X = A * 2 ^ n).
  { unfold X, pc.
    destruct Hec as [-> | ->], Hdp as [Hd | Hd]; unfold n; rewrite Hd.
    - exists (base * u * 4). split; [nia|].
      change (2 ^ (- -24 - 1)) with (2 ^ 23). change (2 ^ (47 - 24)) with (2 ^ 23). lia.
    - exists (base * u * 2). split; [nia|].
      change (2 ^ (- -24 - 1)) with (2 ^ 23). change (2 ^ (48 - 24)) with (2 * 2 ^ 23). lia.
    - exists (base * u * 2). split; [nia|].
      change (2 ^ (- -23 - 1)) with (2 ^ 22). change (2 ^ (47 - 24)) with (2 * 2 ^ 22). lia.
    - exists (base * u * 1). split; [nia|].
      change (2 ^ (- -23 - 1)) with (2 ^ 22). change (2 ^ (48 - 24)) with (4 * 2 ^ 22). lia. }
  destruct Hmult as (A & HA & HXA).
  assert (Hpn : 0 < 2 ^ n) by (apply Z.pow_pos_nonneg; lia).
  assert (Hfloor : X <= Zpos P / 2 ^ n * 2 ^ n).
  { rewrite HXA. apply Z.mul_le_mono_nonneg_r; [lia|].
    apply Z.div_le_lower_bound; lia. }
  assert (Hceil : (Zpos P + 2 ^ n - 1) / 2 ^ n * 2 ^ n <= 3 * X).
  { rewrite HXA.
    replace (3 * (A * 2 ^ n)) with (3 * A * 2 ^ n) by lia.
    apply Z.mul_le_mono_nonneg_r; [lia|].
    assert ((Zpos P + 2 ^ n - 1) / 2 ^ n < 3 * A + 1)
      by (apply Z.div_lt_upper_bound; lia).
    lia. }
  assert (HX0 : 0 < 4 * u * pc) by nia.
  split.
  - replace (base / 2) with (X / (2 * (4 * u * pc))).
    + apply Z.div_le_mono; lia.
    + unfold X. now rewrite Z.div_mul_cancel_r by lia.
  - replace (3 * base / 2) with (3 * X / (2 * (4 * u * pc))).
    + apply Z.div_le_mono; lia.
    + unfold X. rewrite Z.mul_assoc. now rewrite Z.div_mul_cancel_r by lia.
Qed.

(* random / 10 in single precision, for the eleven values of random. *)
Lemma jitter_factor (random : Z) :
  5 <= random <= 15 ->
  exists mc ec,
    Float32.div (Float32.of_uint random) (Float32.of_uint 10) = S754_finite false mc ec
    /\ (ec = -24 \/ ec = -23)
    /\ 2 ^ 23 <= Zpos mc < 2 ^ 24
    /\ 2 ^ (- ec - 1) <= Zpos mc <= 3 * 2 ^ (- ec - 1).
Proof.
  intros H.
  assert (Hcases : random = 5 \/ random = 6 \/ random = 7 \/ random = 8
                   \/ random = 9 \/ random = 10 \/ random = 11 \/ random = 12
                   \/ random = 13 \/ random = 14 \/ random = 15) by lia.
  repeat (destruct Hcases as [-> | Hcases]); [.. | subst random];
    eexists; eexists; (split; [vm_compute; reflexivity |]);
    (split; [first [left; reflexivity | right; reflexivity] |]);
    vm_compute; repeat split; discriminate.
Qed.

Lemma OnTimer_jitter_between (interval random : Z) :
  0 <= interval < 2 ^ 22 -> 5 <= random <= 15 ->
  interval / 2 <= OnTimer_jitter interval random <= 3 * interval / 2.
Proof.
  intros Hi Hr.
  destruct (jitter_factor random Hr) as (mc & ec & Hf & Hec & Hmc & Hc).
  unfold OnTimer_jitter. rewrite Hf.
  now apply mul_to_uint_between.
Qed.

(* A base of 180 ms (2000 kbps) is re-armed between 90 and 270 ms. *)
Example OnTimer_jitter_180 :
  OnTimer_jitter 180 5 = 90 /\ OnTimer_jitter 180 10 = 180 /\ OnTimer_jitter 180 15 = 270.
Proof. vm_compute. auto. Qed.

(* 13 / 10 has no exact single-precision value; the one used lies below
   1.3, and 90 times it lies below 117. *)
Example OnTimer_jitter_90_13 : OnTimer_jitter 90 13 = 116.
Proof. vm_compute. reflexivity. Qed.

(** ** The RTCP interval timer *)

Lemma OnTimer_rate_wrap (now : Z) (cs : Map Consumer) (a : Z) :
  OnTimer_rate now cs (wrap32 a)
  = wrap32
      (a + fold_right Z.add 0
             (map (fun consumer => Consumer_GetTransmissionRate consumer now / 1000)
                (map_values cs))).
Proof.
  revert a.
  induction cs as [|[k consumer] rest IH]; intros a; simpl.
  - now rewrite Z.add_0_r.
  - replace (wrap32 (wrap32 a + Consumer_GetTransmissionRate consumer now / 1000))
      with (wrap32 (a + Consumer_GetTransmissionRate consumer now / 1000))
      by (unfold wrap32; now rewrite Zplus_mod_idemp_l).
    rewrite IH. f_equal. lia.
Qed.

Lemma OnTimer_rate_summed (now : Z) (cs : Map Consumer) :
  OnTimer_rate now cs 0 = summed_rate_kbps now cs.
Proof.
  change 0 with (wrap32 0) at 1.
  now rewrite OnTimer_rate_wrap.
Qed.

Lemma OnTimer_interval_base (p : Peer) (now : Z) :
  OnTimer_interval p now = base_interval p now.
Proof.
  unfold OnTimer_interval, base_interval.
  destruct (consumers p) as [|c rest] eqn:Hc; [reflexivity|].
  rewrite OnTimer_rate_summed.
  destruct (summed_rate_kbps now (c :: rest) =? 0) eqn:HR; simpl.
  - destruct (MaxVideoIntervalMs >? MaxVideoIntervalMs) eqn:Hgt; [|reflexivity].
    reflexivity.
  - destruct (360000 / summed_rate_kbps now (c :: rest) >? MaxVideoIntervalMs) eqn:Hgt.
    + apply Z.gtb_lt in Hgt. lia.
    + rewrite Z.gtb_ltb in Hgt. apply Z.ltb_ge in Hgt. lia.
Qed.

Lemma base_interval_range (p : Peer) (now : Z) :
  0 <= MaxVideoIntervalMs ->
  0 <= base_interval p now <= MaxVideoIntervalMs.
Proof.
  intros HM. unfold base_interval.
  destruct (consumers p) as [|c rest]; [lia|].
  set (R := summed_rate_kbps now (c :: rest)).
  assert (HR : 0 <= R < 2 ^ 32) by (apply Z.mod_pos_bound; lia).
  destruct (R =? 0) eqn:E; [lia|].
  apply Z.eqb_neq in E.
  assert (0 <= 360000 / R) by (apply Z.div_pos; lia).
  lia.
Qed.

(** C2. On a timer tick, the interval before the random
    factor is the maximum video interval when the Peer has no Consumers;
    otherwise, with R the sum in a uint32_t of the Consumers'
    transmission rates at now, each divided by 1000, it is the maximum
    video interval when R is zero and min(maximum, 360000 / R) in
    integer division when it is not. The timer is re-armed, after the
    RTCP of the tick is sent, with that interval multiplied in single
    precision by random / 10 and truncated to an integer; for a random
    integer from 5 to 15 and a maximum below 2^22 ms the re-armed
    interval lies between the interval halved, rounded down, and three
    halves of it, rounded down. *)
Theorem OnTimer_interval_law (p : Peer) (time random : Z) :
  0 <= MaxVideoIntervalMs < 2 ^ 22 ->
  5 <= random <= 15 ->
  let now := wrap32 time in
  let R := summed_rate_kbps now (consumers p) in
  let base := OnTimer_interval p now in
  (consumers p = [] -> base = MaxVideoIntervalMs)
  /\ (consumers p <> [] -> R = 0 -> base = MaxVideoIntervalMs)
  /\ (consumers p <> [] -> R <> 0 -> base = Z.min MaxVideoIntervalMs (360000 / R))
  /\ exists next,
       OnTimer p time random = SendRtcp p now ++ [TimerStart next]
       /\ next = OnTimer_jitter base random
       /\ base / 2 <= next <= 3 * base / 2.
Proof.
  intros HM Hr now R base.
  assert (Hbase : base = base_interval p now) by apply OnTimer_interval_base.
  split; [|split; [|split]].
  - intros He. rewrite Hbase. unfold base_interval. now rewrite He.
  - intros Hne HR. rewrite Hbase. unfold base_interval.
    destruct (consumers p); [contradiction|].
    fold R. now rewrite HR.
  - intros Hne HR. rewrite Hbase. unfold base_interval.
    destruct (consumers p); [contradiction|].
    fold R. apply Z.eqb_neq in HR. now rewrite HR.
  - exists (OnTimer_jitter base random).
    split; [reflexivity|]. split; [reflexivity|].
    apply OnTimer_jitter_between; [|exact Hr].
    pose proof (base_interval_range p now ltac:(lia)). lia.
Qed.

(** ** The RTCP sender *)

(* A [return] in the Consumers' loop of one Transport ends SendRtcp:
   nothing is done for the Transports after it. *)
Lemma SendRtcp_transports_return (p : Peer) (now : Z) (k : Z)
  (transport : Transport) (rest : Map Transport) (t : Trace) :
  SendRtcp_consumers transport now (consumers p) RTCP.new_CompoundPacket = (t, None) ->
  SendRtcp_transports p now ((k, transport) :: rest) = t.
Proof.
  intros H. simpl. now rewrite H.
Qed.


(** * Further properties *)

#[local] Set Default Proof Using "Type".

(* Drops from the context the collaborators the goal does not mention. *)
Ltac forget_collaborators :=
  try clear RtpCapabilities_new; try clear Listener_OnPeerCapabilities;
  try clear Transport_new; try clear Transport_AddProducer;
  try clear Transport_GetProducer; try clear Consumer_GetRtcp;
  try clear Producer_GetRtcp; try clear Consumer_GetTransmissionRate;
  try clear BufferSize; try clear MaxVideoIntervalMs; try clear Consumer_Send.

(** ** Entity maps: lookup, insertion, removal *)

Lemma map_find_In {A : Type} (k : Z) (v : A) (m : Map A) :
  map_find k m = Some v -> In (k, v) m.
Proof.
  induction m as [|[k' v'] rest IH]; simpl; [discriminate|].
  destruct (k' =? k) eqn:E.
  - intros H. injection H as ->. apply Z.eqb_eq in E. subst. now left.
  - intros H. right. now apply IH.
Qed.

Lemma map_find_none_keys {A : Type} (k : Z) (m : Map A) :
  map_find k m = None <-> ~ In k (map_keys m).
Proof.
  forget_collaborators.
  induction m as [|[k' v'] rest IH]; simpl; [tauto|].
  destruct (k' =? k) eqn:E.
  - apply Z.eqb_eq in E. split; [discriminate | tauto].
  - apply Z.eqb_neq in E. rewrite IH. tauto.
Qed.

Lemma In_map_keys {A : Type} (k : Z) (v : A) (m : Map A) :
  In (k, v) m -> In k (map_keys m).
Proof.
  intros H. unfold map_keys. change k with (fst (k, v)). now apply in_map.
Qed.

Lemma In_map_find {A : Type} (k : Z) (v : A) (m : Map A) :
  NoDup (map_keys m) -> In (k, v) m -> map_find k m = Some v.
Proof.
  forget_collaborators.
  induction m as [|[k' v'] rest IH]; simpl; [tauto|].
  intros Hnd [H|H]; inversion Hnd as [|? ? Hnot Hrest]; subst.
  - injection H as -> ->. now rewrite Z.eqb_refl.
  - destruct (k' =? k) eqn:E.
    + apply Z.eqb_eq in E. subst k'. exfalso. apply Hnot.
      now apply In_map_keys with v.
    + now apply IH.
Qed.

Lemma map_keys_set {A : Type} (k k' : Z) (v : A) (m : Map A) :
  In k' (map_keys (map_set k v m)) <-> k' = k \/ In k' (map_keys m).
Proof.
  forget_collaborators.
  induction m as [|[k0 v0] rest IH]; simpl.
  - intuition.
  - destruct (k0 =? k) eqn:E; simpl.
    + apply Z.eqb_eq in E. subst k0. intuition.
    + rewrite IH. intuition.
Qed.

Lemma In_map_set {A : Type} (k k' : Z) (v v' : A) (m : Map A) :
  In (k', v') (map_set k v m) -> (k' = k /\ v' = v) \/ In (k', v') m.
Proof.
  induction m as [|[k0 v0] rest IH]; simpl.
  - intros [H|[]]. injection H as <- <-. now left.
  - destruct (k0 =? k) eqn:E; simpl.
    + intros [H|H]; [injection H as <- <-; now left | right; now right].
    + intros [H|H]; [right; now left|].
      destruct (IH H) as [?|?]; [now left | right; now right].
Qed.

Lemma map_set_NoDup {A : Type} (k : Z) (v : A) (m : Map A) :
  NoDup (map_keys m) -> NoDup (map_keys (map_set k v m)).
Proof.
  forget_collaborators.
  induction m as [|[k0 v0] rest IH]; simpl; intros Hnd.
  - constructor; [tauto | constructor].
  - inversion Hnd as [|? ? Hnot Hrest]; subst.
    destruct (k0 =? k) eqn:E; simpl.
    + apply Z.eqb_eq in E. subst k0. now constructor.
    + apply Z.eqb_neq in E. constructor; [|now apply IH].
      fold (map_keys (map_set k v rest)). rewrite map_keys_set.
      intros [H|H]; [congruence | contradiction].
Qed.

Lemma In_map_erase {A : Type} (k k' : Z) (v' : A) (m : Map A) :
  In (k', v') (map_erase k m) <-> k' <> k /\ In (k', v') m.
Proof.
  forget_collaborators.
  induction m as [|[k0 v0] rest IH]; simpl; [tauto|].
  destruct (k0 =? k) eqn:E.
  - apply Z.eqb_eq in E. subst k0. rewrite IH.
    split; [tauto|]. intros [Hne [H|H]]; [congruence | tauto].
  - apply Z.eqb_neq in E. simpl. rewrite IH.
    split; [|tauto]. intros [H|H]; [|tauto].
    injection H as <- <-. tauto.
Qed.

Lemma map_keys_erase {A : Type} (k k' : Z) (m : Map A) :
  In k' (map_keys (map_erase k m)) <-> k' <> k /\ In k' (map_keys m).
Proof.
  forget_collaborators.
  induction m as [|[k0 v0] rest IH]; simpl; [tauto|].
  destruct (k0 =? k) eqn:E.
  - apply Z.eqb_eq in E. subst k0. rewrite IH.
    split; [tauto|]. intros [Hne [H|H]]; [congruence | tauto].
  - apply Z.eqb_neq in E. simpl. rewrite IH.
    split; [|tauto]. intros [H|H]; [subst; tauto | tauto].
Qed.

Lemma map_erase_NoDup {A : Type} (k : Z) (m : Map A) :
  NoDup (map_keys m) -> NoDup (map_keys (map_erase k m)).
Proof.
  forget_collaborators.
  induction m as [|[k0 v0] rest IH]; simpl; intros Hnd; [constructor|].
  inversion Hnd as [|? ? Hnot Hrest]; subst.
  destruct (k0 =? k); simpl; [now apply IH|].
  constructor; [|now apply IH].
  fold (map_keys (map_erase k rest)). rewrite map_keys_erase. tauto.
Qed.

Lemma map_find_erase_same {A : Type} (k : Z) (m : Map A) :
  map_find k (map_erase k m) = None.
Proof.
  forget_collaborators.
  apply map_find_none_keys. rewrite map_keys_erase. tauto.
Qed.

Lemma map_find_erase_other {A : Type} (k k0 : Z) (m : Map A) :
  k <> k0 -> map_find k0 (map_erase k m) = map_find k0 m.
Proof.
  intros Hne.
  induction m as [|[k' v'] rest IH]; simpl; [reflexivity|].
  destruct (k' =? k) eqn:E; simpl.
  - apply Z.eqb_eq in E. subst k'.
    destruct (k =? k0) eqn:E0; [apply Z.eqb_eq in E0; contradiction | exact IH].
  - destruct (k' =? k0); [reflexivity | exact IH].
Qed.

(** ** Well-formed Peers *)

Lemma well_formed_set_transport (p : Peer) (k : Z) (transport : Transport) :
  well_formed p -> transportId transport = k ->
  well_formed (with_transports p (map_set k transport (transports p))).
Proof.
  intros [H1 H2 H3 H4 H5 H6 H7 H8] Hid.
  constructor; simpl; auto.
  - now apply map_set_NoDup.
  - intros k' t' H. apply In_map_set in H as [[-> ->]|H]; auto.
  - intros k' x t Hin Ht. apply map_keys_set. right. eauto.
  - intros k' x t Hin Ht. apply map_keys_set. right. eauto.
Qed.

Lemma well_formed_set_producer (p : Peer) (k : Z) (producer : Producer) :
  well_formed p -> producerId producer = k ->
  (forall t, producer_transport producer = Some t -> In t (map_keys (transports p))) ->
  well_formed (with_producers p (map_set k producer (producers p))).
Proof.
  intros [H1 H2 H3 H4 H5 H6 H7 H8] Hid Href.
  constructor; simpl; auto.
  - now apply map_set_NoDup.
  - intros k' x H. apply In_map_set in H as [[-> ->]|H]; auto.
  - intros k' x t H Ht. apply In_map_set in H as [[-> ->]|H]; eauto.
Qed.

Lemma well_formed_set_consumer (p : Peer) (k : Z) (consumer : Consumer) :
  well_formed p -> consumerId consumer = k ->
  (forall t, consumer_transport consumer = Some t -> In t (map_keys (transports p))) ->
  well_formed (with_consumers p (map_set k consumer (consumers p))).
Proof.
  intros [H1 H2 H3 H4 H5 H6 H7 H8] Hid Href.
  constructor; simpl; auto.
  - now apply map_set_NoDup.
  - intros k' x H. apply In_map_set in H as [[-> ->]|H]; auto.
  - intros k' x t H Ht. apply In_map_set in H as [[-> ->]|H]; eauto.
Qed.

Lemma well_formed_with_capabilities (p : Peer) (c : RtpCapabilities) :
  well_formed p -> well_formed (with_capabilities p c).
Proof.
  intros [H1 H2 H3 H4 H5 H6 H7 H8]. constructor; simpl; auto.
Qed.

Lemma well_formed_emptied (p : Peer) :
  well_formed (with_consumers (with_producers (with_transports p []) []) []).
Proof.
  constructor; simpl; try constructor; intros; contradiction.
Qed.

Lemma GetConsumerFromRequest_found (p : Peer) (request : Request)
  (consumer : Consumer) (id : Z) :
  GetConsumerFromRequest p request = inr (Some consumer, id) ->
  map_find id (consumers p) = Some consumer.
Proof.
  unfold GetConsumerFromRequest.
  destruct (negb (Json.isUInt (Json.get (internal request) "consumerId")));
    [discriminate|].
  intros H. injection H as H1 H2. now rewrite <- H2.
Qed.

(* A Transport found under a key of a well-formed Peer carries the key. *)
Lemma well_formed_found_transport (p : Peer) (k : Z) (transport : Transport) :
  well_formed p -> map_find k (transports p) = Some transport ->
  transportId transport = k /\ In k (map_keys (transports p)).
Proof.
  intros Hwf H. apply map_find_In in H.
  split; [now apply (wf_transport_ids p Hwf) | now apply In_map_keys with transport].
Qed.

Lemma GetTransportFromRequest_id (p q : Peer) (request : Request)
  (found : option Transport) (id : Z) :
  GetTransportFromRequest p request = inr (found, id) ->
  GetTransportFromRequest q request = inr (map_find id (transports q), id).
Proof.
  unfold GetTransportFromRequest.
  destruct (negb (Json.isUInt (Json.get (internal request) "transportId")));
    [discriminate|].
  intros H. injection H as _ <-. reflexivity.
Qed.

Lemma GetProducerFromRequest_id (p q : Peer) (request : Request)
  (found : option Producer) (id : Z) :
  GetProducerFromRequest p request = inr (found, id) ->
  GetProducerFromRequest q request = inr (map_find id (producers q), id).
Proof.
  unfold GetProducerFromRequest.
  destruct (negb (Json.isUInt (Json.get (internal request) "producerId")));
    [discriminate|].
  intros H. injection H as _ <-. reflexivity.
Qed.

(** ** The SSRC index and the order of the map *)

Lemma find_unique {A : Type} (f : A -> bool) (l : list A) (x : A) :
  (forall y z, In y l -> In z l -> f y = true -> f z = true -> y = z) ->
  In x l -> f x = true -> find f l = Some x.
Proof.
  forget_collaborators.
  induction l as [|a rest IH]; simpl; [tauto|].
  intros Huniq Hin Hx.
  destruct (f a) eqn:Fa.
  - f_equal. apply Huniq; auto.
  - destruct Hin as [->|Hin]; [congruence|].
    apply IH; auto.
Qed.

(** X8. When no two Consumers of the map claim the same ssrc (their
    SSRC sets are disjoint), GetConsumer does not depend on the order in
    which the map is iterated: two Peers whose consumer maps hold the
    same entries in any order resolve the ssrc to the same Consumer. *)
Theorem GetConsumer_order_independent (p q : Peer) (s : Z) :
  Permutation (consumers p) (consumers q) ->
  (forall c1 c2,
     In c1 (map_values (consumers p)) -> In c2 (map_values (consumers p)) ->
     consumer_claims s c1 = true -> consumer_claims s c2 = true -> c1 = c2) ->
  GetConsumer p s = GetConsumer q s.
Proof.
  intros Hperm Huniq.
  unfold GetConsumer. rewrite !GetConsumer_loop_find.
  unfold first_claiming_consumer.
  assert (Hvalues : Permutation (map_values (consumers p)) (map_values (consumers q)))
    by (unfold map_values; now apply Permutation_map).
  destruct (find (consumer_claims s) (map_values (consumers p))) as [c|] eqn:Hfind.
  - symmetry. apply find_unique.
    + intros y z Hy Hz. apply Huniq;
        eapply Permutation_in; try eassumption; now apply Permutation_sym.
    + eapply Permutation_in; [exact Hvalues|]. now apply find_some in Hfind.
    + now apply find_some in Hfind.
  - symmetry. apply find_none_all. intros y Hy.
    apply (find_none _ _ Hfind).
    eapply Permutation_in; [apply Permutation_sym; exact Hvalues | exact Hy].
Qed.

(** ** The RTCP demultiplexer: reports and what is never relayed *)

Lemma flat_map_singletons_length {A B : Type} (f : A -> list B) (l : list A) :
  (forall x, List.length (f x) = 1%nat) ->
  List.length (flat_map f l) = List.length l.
Proof.
  intros H. induction l as [|a rest IH]; simpl; [reflexivity|].
  now rewrite length_app, H, IH.
Qed.

(** X9. Every report block of a Receiver Report is accounted for once:
    the packet contributes as many events as it has blocks, and
    OnPeerRtcpReceiverReport is called for a Consumer and a block exactly
    when the block is in the packet and its ssrc resolves, through the
    Peer's SSRC index, to that Consumer; a block whose ssrc resolves to
    nothing gives a warning. A Sender Report is resolved through the
    Transport's index of Producers in the same way, and an SDES packet
    never reaches the listener. *)
Theorem report_blocks_accounted (p : Peer) (transport : Transport) :
  (forall reports,
     let t := OnTransportRtcpPacket_packet p transport (RTCP.RR reports) in
     List.length t = List.length reports
     /\ (forall cid report,
           In (OnPeerRtcpReceiverReport cid report) t <->
           In report reports
           /\ exists c, GetConsumer p (RTCP.rr_ssrc report) = Some c
                        /\ consumerId c = cid)
     /\ (forall report,
           In report reports -> GetConsumer p (RTCP.rr_ssrc report) = None ->
           exists format, In (LogWarn format [RTCP.rr_ssrc report]) t))
  /\ (forall reports,
        let t := OnTransportRtcpPacket_packet p transport (RTCP.SR reports) in
        List.length t = List.length reports
        /\ forall pid report,
             In (OnPeerRtcpSenderReport pid report) t <->
             In report reports
             /\ Transport_GetProducer transport (RTCP.sr_ssrc report) = Some pid)
  /\ (forall chunks,
        upcalls (OnTransportRtcpPacket_packet p transport (RTCP.SDES chunks)) = []).
Proof.
  split; [|split].
  - intros reports t. subst t. simpl.
    split; [|split].
    + apply flat_map_singletons_length. intros r.
      unfold OnTransportRtcpPacket_RR. now destruct (GetConsumer p (RTCP.rr_ssrc r)).
    + intros cid report. rewrite in_flat_map. split.
      * intros (r & Hr & Hin). unfold OnTransportRtcpPacket_RR in Hin.
        destruct (GetConsumer p (RTCP.rr_ssrc r)) as [c|] eqn:Hc;
          destruct Hin as [Heq|[]]; try discriminate.
        injection Heq as <- <-. eauto.
      * intros (Hr & c & Hc & <-). exists report. split; [exact Hr|].
        unfold OnTransportRtcpPacket_RR. rewrite Hc. now left.
    + intros report Hr Hnone. eexists. apply in_flat_map. exists report.
      split; [exact Hr|]. unfold OnTransportRtcpPacket_RR. rewrite Hnone. now left.
  - intros reports t. subst t. simpl.
    split.
    + apply flat_map_singletons_length. intros r.
      unfold OnTransportRtcpPacket_SR.
      now destruct (Transport_GetProducer transport (RTCP.sr_ssrc r)).
    + intros pid report. rewrite in_flat_map. split.
      * intros (r & Hr & Hin). unfold OnTransportRtcpPacket_SR in Hin.
        destruct (Transport_GetProducer transport (RTCP.sr_ssrc r)) eqn:Hc;
          destruct Hin as [Heq|[]]; try discriminate.
        injection Heq as <- <-. auto.
      * intros (Hr & Hc). exists report. split; [exact Hr|].
        unfold OnTransportRtcpPacket_SR. rewrite Hc. now left.
  - intros chunks. simpl.
    induction chunks as [|chunk rest IH]; simpl; [reflexivity|].
    unfold upcalls in *. rewrite filter_app, IH.
    unfold OnTransportRtcpPacket_SDES.
    now destruct (Transport_GetProducer transport (RTCP.sdes_ssrc chunk)).
Qed.

Lemma OnTransportRtcpPacket_In (p : Peer) (transport : Transport)
  (packets : list RTCP.Packet) (e : Event) :
  In e (OnTransportRtcpPacket p transport packets) <->
  exists packet, In packet packets
                 /\ In e (OnTransportRtcpPacket_packet p transport packet).
Proof.
  forget_collaborators.
  induction packets as [|packet rest IH]; simpl.
  - split; [tauto | intros (x & [] & _)].
  - rewrite in_app_iff, IH. split.
    + intros [H|(x & Hx & H)]; eauto.
    + intros (x & [->|Hx] & H); eauto.
Qed.

(** X10. What the demultiplexer never does. In the trace of any
    compound, OnPeerRtcpFeedback is called only for a PSFB packet of the
    compound that is not a REMB, whose media ssrc resolves to the
    Consumer named in the call, and only when that Consumer is active;
    ReceiveNack is called only for an RTPFB packet of the compound of
    type NACK, on the Consumer its media ssrc resolves to. *)
Theorem feedback_calls_justified (p : Peer) (transport : Transport)
  (packets : list RTCP.Packet) :
  (forall cid feedback,
     In (OnPeerRtcpFeedback cid feedback) (OnTransportRtcpPacket p transport packets) ->
     In (RTCP.PSFB feedback) packets
     /\ is_REMB (RTCP.PSFB feedback) = false
     /\ exists c, GetConsumer p (RTCP.ps_mediaSsrc feedback) = Some c
                  /\ consumerId c = cid /\ active c = true)
  /\ (forall cid feedback,
        In (ConsumerReceiveNack cid feedback) (OnTransportRtcpPacket p transport packets) ->
        In (RTCP.RTPFB feedback) packets
        /\ RTCP.rtp_messageType feedback = FeedbackRtp.NACK
        /\ exists c, GetConsumer p (RTCP.rtp_mediaSsrc feedback) = Some c
                     /\ consumerId c = cid).
Proof.
  split; intros cid feedback Hin;
    apply OnTransportRtcpPacket_In in Hin as (packet & Hpacket & Hin);
    destruct packet as [reports|reports|chunks|fb|fb| |type]; simpl in Hin.
  - apply in_flat_map in Hin as (r & _ & Hin).
    unfold OnTransportRtcpPacket_RR in Hin.
    destruct (GetConsumer p (RTCP.rr_ssrc r)); destruct Hin as [H|[]]; discriminate.
  - apply in_flat_map in Hin as (r & _ & Hin).
    unfold OnTransportRtcpPacket_SR in Hin.
    destruct (Transport_GetProducer transport (RTCP.sr_ssrc r));
      destruct Hin as [H|[]]; discriminate.
  - apply in_flat_map in Hin as (r & _ & Hin).
    unfold OnTransportRtcpPacket_SDES in Hin.
    destruct (Transport_GetProducer transport (RTCP.sdes_ssrc r));
      [contradiction | destruct Hin as [H|[]]; discriminate].
  - assert (Hblock : In (OnPeerRtcpFeedback cid feedback)
                       (OnTransportRtcpPacket_PSFB_consumer p fb) ->
                     fb = feedback
                     /\ exists c, GetConsumer p (RTCP.ps_mediaSsrc fb) = Some c
                                  /\ consumerId c = cid /\ active c = true).
    { unfold OnTransportRtcpPacket_PSFB_consumer.
      destruct (GetConsumer p (RTCP.ps_mediaSsrc fb)) as [c|].
      - destruct (active c) eqn:Ha; simpl; [|contradiction].
        rewrite in_app_iff. intros [H|[H|[]]].
        + destruct (is_PLI (RTCP.ps_messageType fb)); [|contradiction].
          destruct H as [H|[]]; discriminate.
        + injection H as <- <-. eauto.
      - intros [H|[]]; discriminate. }
    unfold OnTransportRtcpPacket_PSFB in Hin.
    destruct (RTCP.ps_messageType fb) eqn:Hty;
      try (destruct Hin as [H|[]]; discriminate);
      try (destruct (Hblock Hin) as (<- & Hc); split; [exact Hpacket|];
           split; [simpl; now rewrite Hty | exact Hc]).
    destruct (RTCP.ps_application fb) eqn:Happ; [|contradiction].
    destruct (Hblock Hin) as (<- & Hc). split; [exact Hpacket|].
    split; [simpl; now rewrite Hty, Happ | exact Hc].
  - unfold OnTransportRtcpPacket_RTPFB in Hin.
    destruct (RTCP.rtp_messageType fb);
      try (destruct Hin as [H|[]]; discriminate).
    destruct (GetConsumer p (RTCP.rtp_mediaSsrc fb));
      destruct Hin as [H|[]]; discriminate.
  - destruct Hin as [H|[]]; discriminate.
  - destruct Hin as [H|[]]; discriminate.
  - apply in_flat_map in Hin as (r & _ & Hin).
    unfold OnTransportRtcpPacket_RR in Hin.
    destruct (GetConsumer p (RTCP.rr_ssrc r)); destruct Hin as [H|[]]; discriminate.
  - apply in_flat_map in Hin as (r & _ & Hin).
    unfold OnTransportRtcpPacket_SR in Hin.
    destruct (Transport_GetProducer transport (RTCP.sr_ssrc r));
      destruct Hin as [H|[]]; discriminate.
  - apply in_flat_map in Hin as (r & _ & Hin).
    unfold OnTransportRtcpPacket_SDES in Hin.
    destruct (Transport_GetProducer transport (RTCP.sdes_ssrc r));
      [contradiction | destruct Hin as [H|[]]; discriminate].
  - unfold OnTransportRtcpPacket_PSFB, OnTransportRtcpPacket_PSFB_consumer in Hin.
    destruct (RTCP.ps_messageType fb); try destruct (RTCP.ps_application fb);
      try destruct (GetConsumer p (RTCP.ps_mediaSsrc fb)) as [c|];
      try destruct (active c); simpl in Hin;
      repeat (destruct Hin as [Hin|Hin]); try discriminate; contradiction.
  - unfold OnTransportRtcpPacket_RTPFB in Hin.
    destruct (RTCP.rtp_messageType fb) eqn:Hty;
      try (destruct Hin as [H|[]]; discriminate).
    destruct (GetConsumer p (RTCP.rtp_mediaSsrc fb)) as [c|] eqn:Hc;
      destruct Hin as [H|[]]; try discriminate.
    injection H as <- <-. repeat split; eauto.
  - destruct Hin as [H|[]]; discriminate.
  - destruct Hin as [H|[]]; discriminate.
Qed.

(** X11. A REMB is swallowed: taking the AFB packets that carry a REMB
    out of a compound changes nothing in what the Peer does with it. *)
Theorem REMB_is_swallowed (p : Peer) (transport : Transport)
  (packets : list RTCP.Packet) :
  OnTransportRtcpPacket p transport packets
  = OnTransportRtcpPacket p transport (filter (fun packet => negb (is_REMB packet)) packets).
Proof.
  induction packets as [|packet rest IH]; simpl; [reflexivity|].
  destruct (is_REMB packet) eqn:Hremb; simpl.
  - rewrite <- IH.
    destruct packet as [| | |fb| | |]; try discriminate.
    simpl in *. unfold OnTransportRtcpPacket_PSFB.
    destruct (RTCP.ps_messageType fb); try discriminate.
    destruct (RTCP.ps_application fb); [discriminate | reflexivity].
  - now rewrite <- IH.
Qed.

(** ** The RTCP sender: what is sent, and after a warning *)

Lemma SendRtcp_consumers_sent (transport : Transport) (now : Z)
  (cs : Map Consumer) (packet sent : RTCP.CompoundPacket) (tid : Z) :
  In (TransportSendRtcpCompoundPacket tid sent)
     (fst (SendRtcp_consumers transport now cs packet)) ->
  tid = transportId transport
  /\ RTCP.size sent <= BufferSize
  /\ RTCP.senderReportCount sent <> 0.
Proof.
  forget_collaborators.
  revert packet.
  induction cs as [|[k consumer] rest IH]; intros packet; simpl; [tauto|].
  destruct (negb (points_to (consumer_transport consumer) transport)); [apply IH|].
  destruct (negb (RTCP.senderReportCount (Consumer_GetRtcp consumer packet now) =? 0))
    eqn:Hsr.
  - destruct (RTCP.size (Consumer_GetRtcp consumer packet now) >? BufferSize) eqn:Hsize.
    + simpl. intros [H|[H|[]]]; discriminate.
    + specialize (IH RTCP.new_CompoundPacket).
      destruct (SendRtcp_consumers transport now rest RTCP.new_CompoundPacket).
      simpl. intros [H|[H|H]]; [discriminate| |now apply IH].
      injection H as <- <-.
      apply negb_true_iff, Z.eqb_neq in Hsr.
      rewrite Z.gtb_ltb in Hsize. apply Z.ltb_ge in Hsize. auto.
  - specialize (IH (Consumer_GetRtcp consumer packet now)).
    destruct (SendRtcp_consumers transport now rest (Consumer_GetRtcp consumer packet now)).
    simpl. intros [H|H]; [discriminate | now apply IH].
Qed.

Lemma SendRtcp_producers_events (transport : Transport) (now : Z)
  (ps : Map Producer) (packet : RTCP.CompoundPacket) (e : Event) :
  In e (fst (SendRtcp_producers transport now ps packet)) ->
  exists pid, e = ProducerGetRtcp pid now.
Proof.
  forget_collaborators.
  revert packet.
  induction ps as [|[k producer] rest IH]; intros packet; simpl; [tauto|].
  destruct (negb (points_to (producer_transport producer) transport)); [apply IH|].
  specialize (IH (Producer_GetRtcp producer packet now)).
  destruct (SendRtcp_producers transport now rest (Producer_GetRtcp producer packet now)).
  simpl. intros [H|H]; [eauto | now apply IH].
Qed.

Lemma SendRtcp_transports_sent (p : Peer) (now : Z) (ts : Map Transport)
  (sent : RTCP.CompoundPacket) (tid : Z) :
  In (TransportSendRtcpCompoundPacket tid sent) (SendRtcp_transports p now ts) ->
  (exists k transport, In (k, transport) ts /\ transportId transport = tid)
  /\ RTCP.size sent <= BufferSize
  /\ (RTCP.senderReportCount sent <> 0 \/ RTCP.receiverReportCount sent <> 0).
Proof.
  forget_collaborators.
  induction ts as [|[k transport] rest IH]; simpl; [tauto|].
  pose proof (SendRtcp_consumers_sent transport now (consumers p)
                RTCP.new_CompoundPacket sent tid) as Hc.
  destruct (SendRtcp_consumers transport now (consumers p) RTCP.new_CompoundPacket)
    as [t1 [packet|]]; simpl in Hc.
  - pose proof (SendRtcp_producers_events transport now (producers p) packet) as Hp.
    destruct (SendRtcp_producers transport now (producers p) packet) as [t2 packet2].
    simpl in Hp.
    assert (Hfrom1 : In (TransportSendRtcpCompoundPacket tid sent) t1 ->
                     (exists k0 t0, ((k, transport) = (k0, t0) \/ In (k0, t0) rest)
                                    /\ transportId t0 = tid)
                     /\ RTCP.size sent <= BufferSize
                     /\ (RTCP.senderReportCount sent <> 0
                         \/ RTCP.receiverReportCount sent <> 0)).
    { intros H. destruct (Hc H) as (-> & Hs & Hn). repeat split; eauto. }
    assert (Hfrom2 : ~ In (TransportSendRtcpCompoundPacket tid sent) t2).
    { intros H. destruct (Hp _ H) as [pid Hpid]. discriminate. }
    assert (Hrest : In (TransportSendRtcpCompoundPacket tid sent)
                       (SendRtcp_transports p now rest) ->
                    (exists k0 t0, ((k, transport) = (k0, t0) \/ In (k0, t0) rest)
                                   /\ transportId t0 = tid)
                    /\ RTCP.size sent <= BufferSize
                    /\ (RTCP.senderReportCount sent <> 0
                        \/ RTCP.receiverReportCount sent <> 0)).
    { intros H. destruct (IH H) as ((k0 & t0 & Hin & Hid) & Hs & Hn).
      repeat split; eauto. }
    destruct (negb (RTCP.receiverReportCount packet2 =? 0)) eqn:Hrr.
    + destruct (RTCP.size packet2 >? BufferSize) eqn:Hsize.
      * rewrite !in_app_iff. simpl.
        intros [H|[H|[H|[]]]]; [auto | contradiction | discriminate].
      * rewrite !in_app_iff. simpl.
        intros [H|[H|[H|H]]]; [auto | contradiction | | auto].
        injection H as <- <-.
        apply negb_true_iff, Z.eqb_neq in Hrr.
        rewrite Z.gtb_ltb in Hsize. apply Z.ltb_ge in Hsize.
        repeat split; eauto.
    + rewrite !in_app_iff. intros [H|[H|H]]; [auto | contradiction | auto].
  - intros H. destruct (Hc H) as (-> & Hs & Hn). repeat split; eauto.
Qed.

(** X12. SendRtcp never sends a compound that does not fit the RTCP
    buffer, and never an empty one: every compound sent has a size of at
    most BufferSize and holds a sender report or a receiver report; and
    it is sent on a Transport of the Peer. *)
Theorem SendRtcp_sends_what_fits (p : Peer) (now : Z)
  (sent : RTCP.CompoundPacket) (tid : Z) :
  In (TransportSendRtcpCompoundPacket tid sent) (SendRtcp p now) ->
  RTCP.size sent <= BufferSize
  /\ (RTCP.senderReportCount sent <> 0 \/ RTCP.receiverReportCount sent <> 0)
  /\ exists transport,
       In transport (map_values (transports p)) /\ transportId transport = tid.
Proof.
  intros H. apply SendRtcp_transports_sent in H as ((k & t & Hin & Hid) & Hs & Hn).
  repeat split; auto.
  exists t. split; [|exact Hid].
  unfold map_values. change t with (snd (k, t)). now apply in_map.
Qed.

(* A trace without warnings, or a trace whose last event is its only
   warning. *)
Lemma SendRtcp_consumers_warning (transport : Transport) (now : Z)
  (cs : Map Consumer) (packet : RTCP.CompoundPacket) :
  match SendRtcp_consumers transport now cs packet with
  | (t, Some _) => warnings t = []
  | (t, None) => exists t' w, t = t' ++ [w] /\ is_warning w = true /\ warnings t' = []
  end.
Proof.
  revert packet.
  induction cs as [|[k consumer] rest IH]; intros packet; simpl; [reflexivity|].
  destruct (negb (points_to (consumer_transport consumer) transport)); [apply IH|].
  destruct (negb (RTCP.senderReportCount (Consumer_GetRtcp consumer packet now) =? 0)).
  - destruct (RTCP.size (Consumer_GetRtcp consumer packet now) >? BufferSize).
    + exists [ConsumerGetRtcp (consumerId consumer) now],
        (too_big (Consumer_GetRtcp consumer packet now)).
      repeat split.
    + specialize (IH RTCP.new_CompoundPacket).
      destruct (SendRtcp_consumers transport now rest RTCP.new_CompoundPacket)
        as [t [q|]]; simpl; [exact IH|].
      destruct IH as (t' & w & -> & Hw & Hnone).
      exists (ConsumerGetRtcp (consumerId consumer) now
              :: TransportSendRtcpCompoundPacket (transportId transport)
                   (Consumer_GetRtcp consumer packet now) :: t'), w.
      repeat split; auto.
  - specialize (IH (Consumer_GetRtcp consumer packet now)).
    destruct (SendRtcp_consumers transport now rest (Consumer_GetRtcp consumer packet now))
      as [t [q|]]; simpl; [exact IH|].
    destruct IH as (t' & w & -> & Hw & Hnone).
    exists (ConsumerGetRtcp (consumerId consumer) now :: t'), w.
    repeat split; auto.
Qed.

Lemma SendRtcp_producers_warning (transport : Transport) (now : Z)
  (ps : Map Producer) (packet : RTCP.CompoundPacket) :
  warnings (fst (SendRtcp_producers transport now ps packet)) = [].
Proof.
  revert packet.
  induction ps as [|[k producer] rest IH]; intros packet; simpl; [reflexivity|].
  destruct (negb (points_to (producer_transport producer) transport)); [apply IH|].
  specialize (IH (Producer_GetRtcp producer packet now)).
  destruct (SendRtcp_producers transport now rest (Producer_GetRtcp producer packet now)).
  exact IH.
Qed.

Lemma warnings_app (t1 t2 : Trace) : warnings (t1 ++ t2) = warnings t1 ++ warnings t2.
Proof. apply filter_app. Qed.

Lemma SendRtcp_transports_warning (p : Peer) (now : Z) (ts : Map Transport) :
  warnings (SendRtcp_transports p now ts) = []
  \/ exists t' w,
       SendRtcp_transports p now ts = t' ++ [w]
       /\ is_warning w = true /\ warnings t' = [].
Proof.
  induction ts as [|[k transport] rest IH]; simpl; [now left|].
  pose proof (SendRtcp_consumers_warning transport now (consumers p)
                RTCP.new_CompoundPacket) as Hc.
  destruct (SendRtcp_consumers transport now (consumers p) RTCP.new_CompoundPacket)
    as [t1 [packet|]]; [|now right].
  pose proof (SendRtcp_producers_warning transport now (producers p) packet) as Hp.
  destruct (SendRtcp_producers transport now (producers p) packet) as [t2 packet2].
  simpl in Hp.
  assert (Hgo : forall middle,
            warnings middle = [] ->
            warnings (t1 ++ t2 ++ middle ++ SendRtcp_transports p now rest) = []
            \/ exists t' w,
                 t1 ++ t2 ++ middle ++ SendRtcp_transports p now rest = t' ++ [w]
                 /\ is_warning w = true /\ warnings t' = []).
  { intros middle Hmid.
    destruct IH as [IH|(t' & w & -> & Hw & Hnone)].
    - left. now rewrite !warnings_app, Hc, Hp, Hmid, IH.
    - right. exists (t1 ++ t2 ++ middle ++ t'), w.
      split; [now rewrite <- !app_assoc|]. split; [exact Hw|].
      now rewrite !warnings_app, Hc, Hp, Hmid, Hnone. }
  destruct (negb (RTCP.receiverReportCount packet2 =? 0)).
  - destruct (RTCP.size packet2 >? BufferSize).
    + right. exists (t1 ++ t2), (too_big packet2).
      split; [now rewrite <- app_assoc|]. split; [reflexivity|].
      now rewrite warnings_app, Hc, Hp.
    + apply (Hgo [TransportSendRtcpCompoundPacket (transportId transport) packet2]).
      reflexivity.
  - apply (Hgo []). reflexivity.
Qed.

(** X13. SendRtcp logs at most one warning in a tick, and the warning is
    the last thing it does: after a compound that is too big, no Consumer
    or Producer is asked for its RTCP and nothing is sent, on any
    Transport. *)
Theorem SendRtcp_warning_is_last (p : Peer) (now : Z) :
  warnings (SendRtcp p now) = []
  \/ exists t w,
       SendRtcp p now = t ++ [w] /\ is_warning w = true /\ warnings t = [].
Proof.
  apply SendRtcp_transports_warning.
Qed.

Lemma SendRtcp_consumers_unbound (transport : Transport) (now : Z)
  (cs : Map Consumer) (packet : RTCP.CompoundPacket) :
  (forall k c, In (k, c) cs -> points_to (consumer_transport c) transport = false) ->
  SendRtcp_consumers transport now cs packet = ([], Some packet).
Proof.
  induction cs as [|[k c] rest IH]; simpl; intros H; [reflexivity|].
  rewrite (H k c (or_introl eq_refl)). simpl.
  apply IH. intros k' c' Hin. apply (H k' c'). now right.
Qed.

Lemma SendRtcp_producers_unbound (transport : Transport) (now : Z)
  (ps : Map Producer) (packet : RTCP.CompoundPacket) :
  (forall k x, In (k, x) ps -> points_to (producer_transport x) transport = false) ->
  SendRtcp_producers transport now ps packet = ([], packet).
Proof.
  induction ps as [|[k x] rest IH]; simpl; intros H; [reflexivity|].
  rewrite (H k x (or_introl eq_refl)). simpl.
  apply IH. intros k' x' Hin. apply (H k' x'). now right.
Qed.

(** X14. A Peer none of whose Consumers and Producers is bound to one of
    its Transports does nothing in SendRtcp: nobody is asked for RTCP and
    no compound, not even an empty one, is sent. This holds in particular
    for a Peer without Transports and for one without Consumers and
    Producers. *)
Theorem SendRtcp_unbound_is_silent (p : Peer) (now : Z) :
  (forall k transport, In (k, transport) (transports p) ->
     (forall k' c, In (k', c) (consumers p) ->
        points_to (consumer_transport c) transport = false)
     /\ (forall k' x, In (k', x) (producers p) ->
           points_to (producer_transport x) transport = false)) ->
  SendRtcp p now = [].
Proof.
  unfold SendRtcp.
  induction (transports p) as [|[k transport] rest IH]; intros H; simpl; [reflexivity|].
  destruct (H k transport (or_introl eq_refl)) as [Hc Hp].
  rewrite (SendRtcp_consumers_unbound transport now _ _ Hc).
  rewrite (SendRtcp_producers_unbound transport now _ _ Hp).
  simpl. apply IH. intros k' t' Hin. apply (H k' t'). now right.
Qed.

(** ** The timer is always re-armed *)

Lemma SendRtcp_consumers_no_timer (transport : Transport) (now : Z)
  (cs : Map Consumer) (packet : RTCP.CompoundPacket) :
  existsb is_TimerStart (fst (SendRtcp_consumers transport now cs packet)) = false.
Proof.
  revert packet.
  induction cs as [|[k consumer] rest IH]; intros packet; simpl; [reflexivity|].
  destruct (negb (points_to (consumer_transport consumer) transport)); [apply IH|].
  destruct (negb (RTCP.senderReportCount (Consumer_GetRtcp consumer packet now) =? 0)).
  - destruct (RTCP.size (Consumer_GetRtcp consumer packet now) >? BufferSize);
      [reflexivity|].
    specialize (IH RTCP.new_CompoundPacket).
    now destruct (SendRtcp_consumers transport now rest RTCP.new_CompoundPacket).
  - specialize (IH (Consumer_GetRtcp consumer packet now)).
    now destruct (SendRtcp_consumers transport now rest
                    (Consumer_GetRtcp consumer packet now)).
Qed.

Lemma SendRtcp_producers_no_timer (transport : Transport) (now : Z)
  (ps : Map Producer) (packet : RTCP.CompoundPacket) :
  existsb is_TimerStart (fst (SendRtcp_producers transport now ps packet)) = false.
Proof.
  revert packet.
  induction ps as [|[k producer] rest IH]; intros packet; simpl; [reflexivity|].
  destruct (negb (points_to (producer_transport producer) transport)); [apply IH|].
  specialize (IH (Producer_GetRtcp producer packet now)).
  now destruct (SendRtcp_producers transport now rest
                  (Producer_GetRtcp producer packet now)).
Qed.

Lemma SendRtcp_no_timer (p : Peer) (now : Z) :
  existsb is_TimerStart (SendRtcp p now) = false.
Proof.
  unfold SendRtcp.
  induction (transports p) as [|[k transport] rest IH]; simpl; [reflexivity|].
  pose proof (SendRtcp_consumers_no_timer transport now (consumers p)
                RTCP.new_CompoundPacket) as Hc.
  destruct (SendRtcp_consumers transport now (consumers p) RTCP.new_CompoundPacket)
    as [t1 [packet|]]; simpl in Hc; [|exact Hc].
  pose proof (SendRtcp_producers_no_timer transport now (producers p) packet) as Hp.
  destruct (SendRtcp_producers transport now (producers p) packet) as [t2 packet2].
  simpl in Hp.
  destruct (negb (RTCP.receiverReportCount packet2 =? 0));
    [destruct (RTCP.size packet2 >? BufferSize)|];
    rewrite !existsb_app, ?Hc, ?Hp; simpl; auto.
Qed.

(** X15. Every tick re-arms the timer exactly once, as its last act,
    whatever SendRtcp did, a compound too big for the buffer included:
    the trace of OnTimer is the trace of SendRtcp followed by one
    TimerStart, and SendRtcp itself never touches the timer. With a
    random integer from 5 to 15 and a maximum video interval below 2^22
    ms the timer is never set beyond three halves of the maximum. *)
Theorem OnTimer_rearms_once (p : Peer) (time random : Z) :
  exists next,
    OnTimer p time random = SendRtcp p (wrap32 time) ++ [TimerStart next]
    /\ filter is_TimerStart (OnTimer p time random) = [TimerStart next]
    /\ (0 <= MaxVideoIntervalMs < 2 ^ 22 -> 5 <= random <= 15 ->
        0 <= next <= 3 * MaxVideoIntervalMs / 2).
Proof.
  eexists. split; [reflexivity|]. split.
  - unfold OnTimer. rewrite filter_app. simpl.
    assert (H : filter is_TimerStart (SendRtcp p (wrap32 time)) = []).
    { pose proof (SendRtcp_no_timer p (wrap32 time)) as Hno.
      induction (SendRtcp p (wrap32 time)) as [|e rest IH]; simpl in *; [reflexivity|].
      apply orb_false_iff in Hno as [He Hrest]. rewrite He. now apply IH. }
    now rewrite H.
  - intros HM Hr.
    rewrite OnTimer_interval_base.
    pose proof (base_interval_range p (wrap32 time) ltac:(lia)) as Hbase.
    pose proof (OnTimer_jitter_between (base_interval p (wrap32 time)) random
                  ltac:(lia) Hr) as Hj.
    assert (0 <= base_interval p (wrap32 time) / 2) by (apply Z.div_pos; lia).
    assert (3 * base_interval p (wrap32 time) / 2 <= 3 * MaxVideoIntervalMs / 2)
      by (apply Z.div_le_mono; lia).
    lia.
Qed.

(** ** The callbacks *)

Lemma points_to_iff (reference : option Z) (transport : Transport) :
  points_to reference transport = true <-> reference = Some (transportId transport).
Proof.
  unfold points_to. destruct reference as [id|].
  - rewrite Z.eqb_eq. split; [now intros -> | now intros [= ->]].
  - split; discriminate.
Qed.

Lemma OnTransportClosed_producers_spec (transport : Transport) (m : Map Producer) :
  OnTransportClosed_producers transport m
  = (map (fun kv => (fst kv, Producer_RemoveTransport (snd kv) transport)) m,
     map (fun x => ProducerRemoveTransport (producerId x) (transportId transport))
       (map_values m)).
Proof.
  induction m as [|[k x] rest IH]; simpl; [reflexivity|].
  now rewrite IH.
Qed.

Lemma OnTransportClosed_consumers_spec (transport : Transport) (m : Map Consumer) :
  OnTransportClosed_consumers transport m
  = (map (fun kv => (fst kv, Consumer_RemoveTransport (snd kv) transport)) m,
     map (fun c => ConsumerRemoveTransport (consumerId c) (transportId transport))
       (map_values m)).
Proof.
  induction m as [|[k c] rest IH]; simpl; [reflexivity|].
  now rewrite IH.
Qed.

Lemma Producer_RemoveTransport_spec (x : Producer) (transport : Transport) :
  producerId (Producer_RemoveTransport x transport) = producerId x
  /\ producer_kind (Producer_RemoveTransport x transport) = producer_kind x
  /\ producer_transport (Producer_RemoveTransport x transport)
     <> Some (transportId transport)
  /\ (forall t, producer_transport (Producer_RemoveTransport x transport) = Some t ->
                producer_transport x = Some t)
  /\ (producer_transport x <> Some (transportId transport) ->
      Producer_RemoveTransport x transport = x).
Proof.
  unfold Producer_RemoveTransport.
  destruct (points_to (producer_transport x) transport) eqn:E; simpl.
  - apply points_to_iff in E. repeat split; try discriminate. congruence.
  - repeat split; auto.
    intros H. apply points_to_iff in H. congruence.
Qed.

Lemma Consumer_RemoveTransport_spec (c : Consumer) (transport : Transport) :
  consumerId (Consumer_RemoveTransport c transport) = consumerId c
  /\ rtpParameters (Consumer_RemoveTransport c transport) = rtpParameters c
  /\ consumer_transport (Consumer_RemoveTransport c transport)
     <> Some (transportId transport)
  /\ (forall t, consumer_transport (Consumer_RemoveTransport c transport) = Some t ->
                consumer_transport c = Some t)
  /\ (consumer_transport c <> Some (transportId transport) ->
      Consumer_RemoveTransport c transport = c).
Proof.
  unfold Consumer_RemoveTransport.
  destruct (points_to (consumer_transport c) transport) eqn:E; simpl.
  - apply points_to_iff in E. repeat split; try discriminate. congruence.
  - repeat split; auto.
    intros H. apply points_to_iff in H. congruence.
Qed.

Lemma map_keys_map_snd {A : Type} (f : A -> A) (m : Map A) :
  map_keys (map (fun kv => (fst kv, f (snd kv))) m) = map_keys m.
Proof.
  unfold map_keys. rewrite map_map. reflexivity.
Qed.

Lemma In_map_snd {A : Type} (f : A -> A) (m : Map A) (k : Z) (v : A) :
  In (k, v) (map (fun kv => (fst kv, f (snd kv))) m) <->
  exists v0, In (k, v0) m /\ v = f v0.
Proof.
  rewrite in_map_iff. split.
  - intros ([k0 v0] & H & Hin). simpl in H. injection H as <- <-. eauto.
  - intros (v0 & Hin & ->). exists (k, v0). auto.
Qed.

(* Closing a Transport keeps a well-formed Peer well-formed. *)
Lemma OnTransportClosed_well_formed (p : Peer) (transport : Transport) :
  well_formed p -> well_formed (fst (OnTransportClosed p transport)).
Proof.
  unfold OnTransportClosed.
  rewrite OnTransportClosed_producers_spec, OnTransportClosed_consumers_spec.
  cbn [fst snd transports producers consumers].
  intros [H1 H2 H3 H4 H5 H6 H7 H8].
  constructor; cbn [transports producers consumers].
  - now apply map_erase_NoDup.
  - now rewrite (map_keys_map_snd (fun x => Producer_RemoveTransport x transport)).
  - now rewrite (map_keys_map_snd (fun c => Consumer_RemoveTransport c transport)).
  - intros k t H. apply In_map_erase in H as [_ H]. now apply H4.
  - intros k x H. apply (In_map_snd (fun x => Producer_RemoveTransport x transport)) in H as (x0 & Hin & ->).
    destruct (Producer_RemoveTransport_spec x0 transport) as (-> & _).
    now apply H5.
  - intros k c H. apply (In_map_snd (fun c => Consumer_RemoveTransport c transport)) in H as (c0 & Hin & ->).
    destruct (Consumer_RemoveTransport_spec c0 transport) as (-> & _).
    now apply H6.
  - intros k x t H Ht. apply (In_map_snd (fun x => Producer_RemoveTransport x transport)) in H as (x0 & Hin & ->).
    destruct (Producer_RemoveTransport_spec x0 transport) as (_ & _ & Hne & Hsame & _).
    apply map_keys_erase. split; [congruence|].
    apply (H7 k x0); auto.
  - intros k c t H Ht. apply (In_map_snd (fun c => Consumer_RemoveTransport c transport)) in H as (c0 & Hin & ->).
    destruct (Consumer_RemoveTransport_spec c0 transport) as (_ & _ & Hne & Hsame & _).
    apply map_keys_erase. split; [congruence|].
    apply (H8 k c0); auto.
Qed.

(* What is in the maps after a Transport has closed. *)
Lemma OnTransportClosed_maps (p : Peer) (transport : Transport) :
  let p' := fst (OnTransportClosed p transport) in
  transports p' = map_erase (transportId transport) (transports p)
  /\ producers p'
     = map (fun kv => (fst kv, Producer_RemoveTransport (snd kv) transport)) (producers p)
  /\ consumers p'
     = map (fun kv => (fst kv, Consumer_RemoveTransport (snd kv) transport)) (consumers p)
  /\ peerId p' = peerId p
  /\ peerName p' = peerName p
  /\ hasCapabilities p' = hasCapabilities p
  /\ capabilities p' = capabilities p.
Proof.
  unfold OnTransportClosed.
  rewrite OnTransportClosed_producers_spec, OnTransportClosed_consumers_spec.
  cbn. repeat split.
Qed.

(** X16. When a Transport closes, it leaves [transports] and no Producer
    and no Consumer refers to it any more; no Producer or Consumer is
    removed, one that was bound to another Transport, or to none, is
    untouched, and the other Transports are as before. RemoveTransport
    is called on every Producer and then on every Consumer. A
    well-formed Peer stays well-formed. *)
Theorem OnTransportClosed_reference_integrity (p : Peer) (transport : Transport) :
  let p' := fst (OnTransportClosed p transport) in
  let id := transportId transport in
  map_find id (transports p') = None
  /\ (forall k, k <> id -> map_find k (transports p') = map_find k (transports p))
  /\ (forall k x, In (k, x) (producers p') -> producer_transport x <> Some id)
  /\ (forall k c, In (k, c) (consumers p') -> consumer_transport c <> Some id)
  /\ map_keys (producers p') = map_keys (producers p)
  /\ map_keys (consumers p') = map_keys (consumers p)
  /\ (forall k x, In (k, x) (producers p) -> producer_transport x <> Some id ->
        In (k, x) (producers p'))
  /\ (forall k c, In (k, c) (consumers p) -> consumer_transport c <> Some id ->
        In (k, c) (consumers p'))
  /\ snd (OnTransportClosed p transport)
     = map (fun x => ProducerRemoveTransport (producerId x) id) (map_values (producers p))
       ++ map (fun c => ConsumerRemoveTransport (consumerId c) id)
            (map_values (consumers p))
  /\ (well_formed p -> well_formed p').
Proof.
  unfold OnTransportClosed.
  rewrite OnTransportClosed_producers_spec, OnTransportClosed_consumers_spec.
  cbn [fst snd transports producers consumers].
  split; [apply map_find_erase_same|].
  split; [intros k Hk; apply map_find_erase_other; congruence|].
  split.
  { intros k x H. apply (In_map_snd (fun x => Producer_RemoveTransport x transport)) in H as (x0 & _ & ->).
    apply Producer_RemoveTransport_spec. }
  split.
  { intros k c H. apply (In_map_snd (fun c => Consumer_RemoveTransport c transport)) in H as (c0 & _ & ->).
    apply Consumer_RemoveTransport_spec. }
  split; [apply (map_keys_map_snd (fun x => Producer_RemoveTransport x transport))|].
  split; [apply (map_keys_map_snd (fun c => Consumer_RemoveTransport c transport))|].
  split.
  { intros k x Hin Hne. apply (In_map_snd (fun x => Producer_RemoveTransport x transport)). exists x. split; [exact Hin|].
    symmetry. now apply Producer_RemoveTransport_spec. }
  split.
  { intros k c Hin Hne. apply (In_map_snd (fun c => Consumer_RemoveTransport c transport)). exists c. split; [exact Hin|].
    symmetry. now apply Consumer_RemoveTransport_spec. }
  split; [reflexivity|].
  intros Hwf.
  pose proof (OnTransportClosed_well_formed p transport Hwf) as Hwf'.
  unfold OnTransportClosed in Hwf'.
  rewrite OnTransportClosed_producers_spec, OnTransportClosed_consumers_spec in Hwf'.
  exact Hwf'.
Qed.

(** X17. After a Transport has closed, SendRtcp on a well-formed Peer
    sends nothing on it. *)
Theorem SendRtcp_after_OnTransportClosed (p : Peer) (transport : Transport)
  (now : Z) (packet : RTCP.CompoundPacket) :
  well_formed p ->
  ~ In (TransportSendRtcpCompoundPacket (transportId transport) packet)
      (SendRtcp (fst (OnTransportClosed p transport)) now).
Proof.
  intros Hwf Hin.
  apply SendRtcp_transports_sent in Hin as ((k & t & Ht & Hid) & _).
  unfold OnTransportClosed in Ht.
  rewrite OnTransportClosed_producers_spec, OnTransportClosed_consumers_spec in Ht.
  cbn [fst transports] in Ht.
  apply In_map_erase in Ht as [Hne Ht].
  apply (wf_transport_ids p Hwf) in Ht. congruence.
Qed.

Lemma OnTransportConnected_loop_filter (transport : Transport) (cs : Map Consumer) :
  OnTransportConnected_loop transport cs
  = map (fun c => OnFullFrameRequired (consumerId c))
      (filter (consumer_needs_full_frame transport) (map_values cs)).
Proof.
  induction cs as [|[k c] rest IH]; simpl; [reflexivity|].
  unfold consumer_needs_full_frame at 1.
  destruct (wants_full_frames (consumer_kind c)); simpl; [|exact IH].
  destruct (points_to (consumer_transport c) transport); simpl; [|exact IH].
  now rewrite IH.
Qed.

Lemma OnTransportFullFrameRequired_loop_filter (transport : Transport) (ps : Map Producer) :
  OnTransportFullFrameRequired_loop transport ps
  = map (fun x => ProducerRequestFullFrame (producerId x))
      (filter (producer_needs_full_frame transport) (map_values ps)).
Proof.
  induction ps as [|[k x] rest IH]; simpl; [reflexivity|].
  unfold producer_needs_full_frame at 1.
  destruct (wants_full_frames (producer_kind x)); simpl; [|exact IH].
  destruct (points_to (producer_transport x) transport); simpl; [|exact IH].
  now rewrite IH.
Qed.

Lemma NoDup_map_filter {A B : Type} (f : A -> B) (g : A -> bool) (l : list A) :
  NoDup (map f l) -> NoDup (map f (filter g l)).
Proof.
  induction l as [|a rest IH]; simpl; intros H; [constructor|].
  inversion H as [|? ? Hnot Hrest]; subst.
  destruct (g a); simpl; [|now apply IH].
  constructor; [|now apply IH].
  intros Hin. apply Hnot.
  apply in_map_iff in Hin as (x & Hx & Hin).
  apply filter_In in Hin as [Hin _].
  apply in_map_iff. eauto.
Qed.

Lemma NoDup_map_injective {A B : Type} (f : A -> B) (l : list A) :
  (forall a b, f a = f b -> a = b) -> NoDup l -> NoDup (map f l).
Proof.
  intros Hinj. induction 1 as [|a rest Hnot Hrest IH]; simpl; constructor; auto.
  intros Hin. apply in_map_iff in Hin as (x & Hx & Hin).
  apply Hinj in Hx. now subst.
Qed.

Lemma ids_are_keys {A : Type} (id : A -> Z) (m : Map A) :
  (forall k v, In (k, v) m -> id v = k) ->
  map id (map_values m) = map_keys m.
Proof.
  induction m as [|[k v] rest IH]; simpl; intros H; [reflexivity|].
  rewrite (H k v (or_introl eq_refl)). f_equal.
  apply IH. intros k' v' Hin. apply H. now right.
Qed.

(** X18. When a Transport connects, OnFullFrameRequired is called for
    the video and depth Consumers bound to it, in map order, and for no
    other Consumer; when a Transport requires a full frame,
    RequestFullFrame is called on the video and depth Producers bound to
    it and on no other. On a well-formed Peer no Consumer and no
    Producer is called twice. *)
Theorem full_frame_requests (p : Peer) (transport : Transport) :
  OnTransportConnected p transport
  = map (fun c => OnFullFrameRequired (consumerId c))
      (filter (consumer_needs_full_frame transport) (map_values (consumers p)))
  /\ OnTransportFullFrameRequired p transport
     = map (fun x => ProducerRequestFullFrame (producerId x))
         (filter (producer_needs_full_frame transport) (map_values (producers p)))
  /\ (well_formed p ->
      NoDup (OnTransportConnected p transport)
      /\ NoDup (OnTransportFullFrameRequired p transport)).
Proof.
  unfold OnTransportConnected, OnTransportFullFrameRequired.
  rewrite OnTransportConnected_loop_filter, OnTransportFullFrameRequired_loop_filter.
  split; [reflexivity|]. split; [reflexivity|].
  intros Hwf. split.
  - rewrite <- (map_map consumerId OnFullFrameRequired).
    apply NoDup_map_injective; [intros a b H; now injection H|].
    apply NoDup_map_filter.
    rewrite (ids_are_keys consumerId _ (wf_consumer_ids p Hwf)).
    apply (wf_consumer_keys p Hwf).
  - rewrite <- (map_map producerId ProducerRequestFullFrame).
    apply NoDup_map_injective; [intros a b H; now injection H|].
    apply NoDup_map_filter.
    rewrite (ids_are_keys producerId _ (wf_producer_ids p Hwf)).
    apply (wf_producer_keys p Hwf).
Qed.

(** X19. When a Producer closes, RemoveProducer is called on every
    Transport of the Peer, in map order, and then OnPeerProducerClosed
    once; the Producer is gone from [producers], the other Producers,
    the Transports and the Consumers are as before, a well-formed Peer
    stays well-formed, and a later PRODUCER_* request (PRODUCER_SET_TRANSPORT
    included) naming the closed Producer is rejected because the Producer
    does not exist. *)
Theorem OnProducerClosed_removes (p : Peer) (producer : Producer) :
  let p' := fst (OnProducerClosed p producer) in
  let id := producerId producer in
  snd (OnProducerClosed p producer)
  = map (fun transport => TransportRemoveProducer (transportId transport) id)
      (map_values (transports p))
    ++ [OnPeerProducerClosed id]
  /\ map_find id (producers p') = None
  /\ (forall k, k <> id -> map_find k (producers p') = map_find k (producers p))
  /\ transports p' = transports p
  /\ consumers p' = consumers p
  /\ (well_formed p -> well_formed p')
  /\ (forall request found,
        In (methodId request)
           [PRODUCER_CLOSE; PRODUCER_DUMP; PRODUCER_RECEIVE;
            PRODUCER_SET_RTP_RAW_EVENT; PRODUCER_SET_RTP_OBJECT_EVENT;
            PRODUCER_SET_TRANSPORT] ->
        GetProducerFromRequest p request = inr (found, id) ->
        HandleRequest p' request
        = returned p' [RequestReject "Producer does not exist"]).
Proof.
  unfold OnProducerClosed. cbn [fst snd].
  split; [reflexivity|].
  split; [apply map_find_erase_same|].
  split; [intros k Hk; apply map_find_erase_other; congruence|].
  split; [reflexivity|]. split; [reflexivity|].
  split.
  - intros [H1 H2 H3 H4 H5 H6 H7 H8].
    constructor; simpl; auto.
    + now apply map_erase_NoDup.
    + intros k x H. apply In_map_erase in H as [_ H]. now apply H5.
    + intros k x t H Ht. apply In_map_erase in H as [_ H]. eauto.
  - intros request found Hm Hget.
    set (p' := with_producers p (map_erase (producerId producer) (producers p))).
    assert (Hget' : GetProducerFromRequest p' request = inr (None, producerId producer)).
    { rewrite (GetProducerFromRequest_id p p' request found _ Hget).
      unfold p'. simpl. now rewrite map_find_erase_same. }
    unfold HandleRequest.
    simpl in Hm.
    repeat (destruct Hm as [Hm|Hm]); try contradiction; rewrite <- Hm;
      unfold HandleRequest_PRODUCER, HandleRequest_PRODUCER_SET_TRANSPORT;
      now rewrite Hget'.
Qed.

Lemma GetConsumer_loop_cons (k : Z) (c : Consumer) (rest : Map Consumer) (s : Z) :
  GetConsumer_loop ((k, c) :: rest) s
  = if consumer_claims s c then Some c else GetConsumer_loop rest s.
Proof.
  rewrite !GetConsumer_loop_find. reflexivity.
Qed.

(** X20. When a Consumer closes, OnPeerConsumerClosed is called once and
    the Consumer is gone from [consumers]; the other Consumers, the
    Transports and the Producers are as before and a well-formed Peer
    stays well-formed. On a well-formed Peer the SSRC index never
    resolves to the closed Consumer again, and an ssrc that resolved to
    another Consumer still resolves to it. *)
Theorem OnConsumerClosed_removes (p : Peer) (consumer : Consumer) :
  let p' := fst (OnConsumerClosed p consumer) in
  let id := consumerId consumer in
  snd (OnConsumerClosed p consumer) = [OnPeerConsumerClosed id]
  /\ map_find id (consumers p') = None
  /\ (forall k, k <> id -> map_find k (consumers p') = map_find k (consumers p))
  /\ transports p' = transports p
  /\ producers p' = producers p
  /\ (well_formed p ->
      well_formed p'
      /\ (forall s c, GetConsumer p' s = Some c -> consumerId c <> id)
      /\ (forall s c, GetConsumer p s = Some c -> consumerId c <> id ->
            GetConsumer p' s = Some c)).
Proof.
  unfold OnConsumerClosed. cbn [fst snd].
  split; [reflexivity|].
  split; [apply map_find_erase_same|].
  split; [intros k Hk; apply map_find_erase_other; congruence|].
  split; [reflexivity|]. split; [reflexivity|].
  intros Hwf. split; [|split].
  - destruct Hwf as [H1 H2 H3 H4 H5 H6 H7 H8].
    constructor; simpl; auto.
    + now apply map_erase_NoDup.
    + intros k x H. apply In_map_erase in H as [_ H]. now apply H6.
    + intros k x t H Ht. apply In_map_erase in H as [_ H]. eauto.
  - intros s c Hget. unfold GetConsumer in Hget. simpl in Hget.
    rewrite GetConsumer_loop_find in Hget.
    apply find_some in Hget as [Hin _].
    apply in_map_iff in Hin as ([k c0] & Hc & Hin). simpl in Hc. subst c0.
    apply In_map_erase in Hin as [Hne Hin].
    apply (wf_consumer_ids p Hwf) in Hin. congruence.
  - intros s c. unfold GetConsumer. simpl.
    pose proof (wf_consumer_ids p Hwf) as Hids.
    induction (consumers p) as [|[k c0] rest IH]; [discriminate|].
    rewrite GetConsumer_loop_cons. simpl map_erase.
    assert (Hrest : forall k' c', In (k', c') rest -> consumerId c' = k')
      by (intros k' c' Hin; apply Hids; now right).
    pose proof (Hids k c0 (or_introl eq_refl)) as Hc0.
    destruct (k =? consumerId consumer) eqn:Hk.
    + apply Z.eqb_eq in Hk.
      destruct (consumer_claims s c0).
      * intros H Hne. injection H as <-. congruence.
      * now apply IH.
    + rewrite GetConsumer_loop_cons.
      destruct (consumer_claims s c0); [auto | now apply IH].
Qed.

(** X21. AddConsumer of a Consumer whose id is in use fails its
    assertion. Otherwise, when the Consumer keeps its id through
    SetPeerCapabilities and Send, it is given the capabilities and the
    RTP parameters, stored, and announced with one newconsumer
    notification, in that order; it is then found under its id, the
    other Consumers, the Transports and the Producers are as before, an
    ssrc that no Consumer claimed and that the new Consumer claims
    resolves to it, and adding the same Consumer a second time fails the
    assertion. A well-formed Peer stays well-formed when the new
    Consumer refers to no Transport or to one of the Peer. *)
Theorem AddConsumer_stores_and_announces (p : Peer) (consumer : Consumer)
  (parameters : RtpParameters) (associated : Z) :
  let stored := Consumer_Send (capabilities p) consumer parameters in
  let id := consumerId consumer in
  (map_find id (consumers p) <> None ->
   AddConsumer p consumer parameters associated = None)
  /\ (map_find id (consumers p) = None -> consumerId stored = id ->
      exists p',
        AddConsumer p consumer parameters associated
        = Some (p', [ConsumerSetPeerCapabilities id; ConsumerSend id;
                     EmitNewConsumer (peerId p) id associated])
        /\ map_find id (consumers p') = Some stored
        /\ (forall k, k <> id -> map_find k (consumers p') = map_find k (consumers p))
        /\ transports p' = transports p
        /\ producers p' = producers p
        /\ capabilities p' = capabilities p
        /\ (forall s,
              (forall c, In c (map_values (consumers p)) -> consumer_claims s c = false) ->
              consumer_claims s stored = true ->
              GetConsumer p' s = Some stored)
        /\ AddConsumer p' consumer parameters associated = None
        /\ (well_formed p ->
            (forall t, consumer_transport stored = Some t ->
                       In t (map_keys (transports p))) ->
            well_formed p')).
Proof.
  intros stored id.
  unfold AddConsumer. fold stored. fold id.
  split.
  - destruct (map_find id (consumers p)); [reflexivity | congruence].
  - intros Hfresh Hid. rewrite Hfresh, Hid.
    eexists. split; [reflexivity|]. simpl.
    split; [apply map_find_set_same|].
    split; [intros k Hk; apply map_find_set_other; congruence|].
    split; [reflexivity|]. split; [reflexivity|]. split; [reflexivity|].
    split; [|split].
    + intros s Hnone Hclaims.
      unfold GetConsumer. simpl. rewrite GetConsumer_loop_find.
      apply find_unique; [| |exact Hclaims].
      * assert (Honly : forall y, In y (map_values (map_set id stored (consumers p))) ->
                                  consumer_claims s y = true -> y = stored).
        { intros y Hy Hc.
          apply in_map_iff in Hy as ([k y0] & Hy0 & Hy). simpl in Hy0. subst y0.
          apply In_map_set in Hy as [[_ ->]|Hy]; [reflexivity|].
          rewrite (Hnone y) in Hc; [discriminate|].
          apply in_map_iff. exists (k, y). auto. }
        intros y z Hy Hz Hcy Hcz.
        rewrite (Honly y Hy Hcy), (Honly z Hz Hcz). reflexivity.
      * apply in_map_iff. exists (id, stored). split; [reflexivity|].
        apply map_find_In. apply map_find_set_same.
    + now rewrite map_find_set_same.
    + intros Hwf Href. now apply well_formed_set_consumer.
Qed.

(** ** The request dispatcher on well-formed Peers *)

(* Closing a Producer keeps a well-formed Peer well-formed. *)
Lemma OnProducerClosed_well_formed (p : Peer) (producer : Producer) :
  well_formed p -> well_formed (fst (OnProducerClosed p producer)).
Proof.
  intros [H1 H2 H3 H4 H5 H6 H7 H8].
  constructor; simpl; auto.
  - now apply map_erase_NoDup.
  - intros k x H. apply In_map_erase in H as [_ H]. now apply H5.
  - intros k x t H Ht. apply In_map_erase in H as [_ H]. eauto.
Qed.

(* So do the Consumers added in one up-call, when each of them refers to
   no Transport or to one of the Peer. *)
Lemma AddConsumers_well_formed (p : Peer) (additions : list NewConsumer) :
  well_formed p ->
  (forall a t,
     In a additions ->
     consumer_transport
       (Consumer_Send (capabilities p) (added_consumer a) (added_parameters a)) = Some t ->
     In t (map_keys (transports p))) ->
  well_formed (fst (fst (AddConsumers p additions))).
Proof.
  revert p. induction additions as [|a rest IH]; intros p Hwf Href; simpl;
    [exact Hwf|].
  destruct (AddConsumer p (added_consumer a) (added_parameters a)
              (added_associatedProducerId a)) as [[p1 calls1]|] eqn:Ha;
    [|exact Hwf].
  apply AddConsumer_spec in Ha. destruct Ha as (_ & Hp1 & _).
  assert (Hwf1 : well_formed p1).
  { rewrite Hp1. apply well_formed_set_consumer; [exact Hwf | reflexivity |].
    intros t Ht. apply (Href a t); [now left | exact Ht]. }
  specialize (IH p1 Hwf1).
  destruct (AddConsumers p1 rest) as [[p2 calls2] ok]. cbn [fst] in *.
  apply IH. intros a0 t Hin Ht.
  rewrite Hp1 in Ht. rewrite Hp1.
  apply (Href a0 t); [now right | exact Ht].
Qed.

Lemma HandleRequest_well_formed (p : Peer) (request : Request) :
  adds_no_foreign_reference ->
  well_formed p -> well_formed (peer_after (HandleRequest p request)).
Proof.
  intros Hroom Hwf.
  unfold HandleRequest.
  destruct (methodId request) eqn:Hm.
  1: { unfold HandleRequest_PEER_CLOSE. rewrite Destroy_spec. simpl.
       apply well_formed_emptied. }
  all: unfold_handlers; rewrite ?Hm.
  - exact Hwf.
  - destruct (hasCapabilities p); [exact Hwf|].
    destruct (RtpCapabilities_new (data request)) as [error|parsed]; [exact Hwf|].
    pose proof (Hroom (with_capabilities p parsed) parsed) as Href.
    destruct (Listener_OnPeerCapabilities (with_capabilities p parsed) parsed)
      as [reduced additions].
    cbn [fst snd] in Href.
    pose proof (AddConsumers_well_formed (with_capabilities p reduced) additions
                  (well_formed_with_capabilities p reduced Hwf)) as Hadd.
    destruct (AddConsumers (with_capabilities p reduced) additions)
      as [[p2 calls] ok].
    cbn [fst] in Hadd.
    assert (Hp2 : well_formed p2)
      by (apply Hadd; intros a t Hin Ht; exact (Href a t Hin Ht)).
    destruct ok; exact Hp2.
  - destruct (GetTransportFromRequest p request) as [|[[t|] id]]; try exact Hwf.
    destruct (Transport_new id (data request)); [exact Hwf|].
    now apply well_formed_set_transport.
  - destruct (negb (hasCapabilities p)); [exact Hwf|].
    destruct (GetProducerFromRequest p request) as [|[[x|] id]]; try exact Hwf.
    destruct (GetTransportFromRequest p request) as [|[[t|] tid]] eqn:Ht;
      try exact Hwf.
    destruct (negb (Json.isString (Json.get (data request) "kind"))); [exact Hwf|].
    destruct (Media_GetKind _); [exact Hwf|].
    simpl.
    apply GetTransportFromRequest_found in Ht.
    destruct (well_formed_found_transport p tid t Hwf Ht) as [Hid Hkey].
    apply (well_formed_set_producer
             (with_producers p
                (map_set id {| producerId := id; producer_kind := k;
                               producer_transport := None |} (producers p)))).
    + apply well_formed_set_producer; [exact Hwf | reflexivity | discriminate].
    + reflexivity.
    + simpl. intros t0 H0. injection H0 as <-. now rewrite Hid.
  - destruct (GetTransportFromRequest p request) as [|[[t|] id]]; try exact Hwf.
    pose proof (OnTransportClosed_well_formed p t Hwf) as Hclosed.
    destruct (OnTransportClosed p t). exact Hclosed.
  - destruct (GetTransportFromRequest p request) as [|[[t|] id]]; exact Hwf.
  - destruct (GetTransportFromRequest p request) as [|[[t|] id]]; exact Hwf.
  - destruct (GetTransportFromRequest p request) as [|[[t|] id]]; exact Hwf.
  - destruct (GetTransportFromRequest p request) as [|[[t|] id]]; exact Hwf.
  - destruct (GetProducerFromRequest p request) as [|[[x|] id]]; try exact Hwf.
    exact (OnProducerClosed_well_formed p x Hwf).
  - destruct (GetProducerFromRequest p request) as [|[[x|] id]]; exact Hwf.
  - destruct (GetProducerFromRequest p request) as [|[[x|] id]]; exact Hwf.
  - destruct (GetProducerFromRequest p request) as [|[[x|] id]]; exact Hwf.
  - destruct (GetProducerFromRequest p request) as [|[[x|] id]]; exact Hwf.
  - destruct (GetProducerFromRequest p request) as [|[[x|] id]] eqn:Hp;
      try exact Hwf.
    destruct (GetTransportFromRequest p request) as [|[[t|] tid]] eqn:Ht;
      try exact Hwf.
    destruct (Transport_AddProducer t x); [exact Hwf|].
    apply GetTransportFromRequest_found in Ht.
    apply GetProducerFromRequest_found in Hp.
    destruct (well_formed_found_transport p tid t Hwf Ht) as [Hid Hkey].
    assert (Hx : producerId x = id)
      by (apply (wf_producer_ids p Hwf); now apply map_find_In).
    assert (Hset : well_formed
              (with_producers p
                 (map_set id (Producer_SetTransport x (transportId t)) (producers p)))).
    { apply well_formed_set_producer; [exact Hwf | exact Hx |].
      simpl. intros t0 H0. injection H0 as <-. now rewrite Hid. }
    destruct (producer_transport x) as [previous|]; [|exact Hset].
    destruct (map_find previous (transports p)) as [pt|]; [|exact Hwf].
    destruct (HasRemb pt); [|exact Hset].
    simpl.
    apply (well_formed_set_transport _ tid (EnableRemb t) Hset). exact Hid.
  - destruct (GetConsumerFromRequest p request) as [|[[x|] id]]; exact Hwf.
  - destruct (GetConsumerFromRequest p request) as [|[[x|] id]] eqn:Hc;
      try exact Hwf.
    destruct (GetTransportFromRequest p request) as [|[[t|] tid]] eqn:Ht;
      try exact Hwf.
    simpl.
    apply GetTransportFromRequest_found in Ht.
    apply GetConsumerFromRequest_found in Hc.
    destruct (well_formed_found_transport p tid t Hwf Ht) as [Hid Hkey].
    apply well_formed_set_consumer; [exact Hwf | |].
    + simpl. apply (wf_consumer_ids p Hwf). now apply map_find_In.
    + simpl. intros t0 H0. injection H0 as <-. now rewrite Hid.
  - destruct (GetConsumerFromRequest p request) as [|[[x|] id]]; exact Hwf.
  - exact Hwf.
Qed.

(** X1. Every Peer reached from a well-formed Peer by a sequence of
    requests is well-formed: keys stay unique, every entity stays under
    its own id, and every Transport a Producer or a Consumer refers to is
    still in [transports]. The sequence includes what the requests set
    off: a TRANSPORT_CLOSE or PRODUCER_CLOSE removes the entity through
    OnTransportClosed or OnProducerClosed, PEER_SET_CAPABILITIES adds the
    Room's Consumers through AddConsumer, and a request that throws is
    followed by the next one. The Room is assumed to add Consumers that
    refer to no Transport or to one of this Peer. A new Peer is
    well-formed. *)
Theorem HandleRequests_keep_well_formed (p : Peer) (requests : list Request) :
  adds_no_foreign_reference ->
  well_formed p ->
  well_formed (fst (HandleRequests p requests))
  /\ forall id name, well_formed (fst (HandleRequests (fst (Peer_new id name)) requests)).
Proof.
  intros Hroom.
  assert (Hseq : forall rs q, well_formed q -> well_formed (fst (HandleRequests q rs))).
  { induction rs as [|request rest IH]; intros q Hq; simpl; [exact Hq|].
    destruct (takes_next_request request (outcome (HandleRequest q request))).
    - specialize (IH _ (HandleRequest_well_formed q request Hroom Hq)).
      destruct (HandleRequests (peer_after (HandleRequest q request)) rest).
      exact IH.
    - simpl. now apply HandleRequest_well_formed. }
  intros Hwf. split; [now apply Hseq|].
  intros id name. apply Hseq.
  constructor; simpl; try constructor; intros; contradiction.
Qed.





Lemma existsb_map_false {A B : Type} (f : B -> bool) (g : A -> B) (l : list A) :
  (forall x, f (g x) = false) -> existsb f (map g l) = false.
Proof.
  intros H. induction l as [|a rest IH]; simpl; [reflexivity|].
  now rewrite H.
Qed.

(** X3. A request that is rejected, or that HandleRequest throws on,
    leaves the Peer exactly as it was: nothing is created, bound or
    removed before a Reject. *)
Theorem HandleRequest_rejected_unchanged (p : Peer) (request : Request) :
  (existsb is_reject (trace (HandleRequest p request)) = true
   \/ exists what, outcome (HandleRequest p request) = Thrown what) ->
  peer_after (HandleRequest p request) = p.
Proof.
  unfold HandleRequest.
  destruct (methodId request) eqn:Hm.
  1: { unfold HandleRequest_PEER_CLOSE. rewrite Destroy_spec. simpl.
       rewrite !existsb_app, !existsb_map_false by reflexivity. simpl.
       intros [H|[what H]]; discriminate. }
  all: unfold_handlers;
    repeat match goal with
      | |- context [match ?x with _ => _ end] => destruct x eqn:?
      end;
    simpl; intros [H|[what H]]; try discriminate; reflexivity.
Qed.

Lemma HandleRequest_capabilities_kept (p : Peer) (request : Request) :
  hasCapabilities p = true ->
  hasCapabilities (peer_after (HandleRequest p request)) = true
  /\ capabilities (peer_after (HandleRequest p request)) = capabilities p.
Proof.
  intros Hc.
  unfold HandleRequest.
  destruct (methodId request) eqn:Hm.
  1: { unfold HandleRequest_PEER_CLOSE. rewrite Destroy_spec. simpl. auto. }
  5: { unfold HandleRequest_TRANSPORT, reject, returned.
       destruct (GetTransportFromRequest p request) as [|[[t|] id]]; simpl; auto.
       rewrite Hm.
       destruct (OnTransportClosed_maps p t) as (_ & _ & _ & _ & _ & Hhas & Hcaps).
       destruct (OnTransportClosed p t). cbn [fst] in Hhas, Hcaps. simpl.
       rewrite Hhas, Hcaps. auto. }
  all: unfold_handlers; unfold OnProducerClosed; rewrite ?Hc, ?Hm;
    repeat match goal with
      | |- context [match ?x with _ => _ end] => destruct x eqn:?
      end;
    simpl; auto.
Qed.

(** X4. Capabilities are set once: from a Peer that has its
    capabilities, no sequence of requests changes them or clears the
    flag, and no PEER_SET_CAPABILITIES of the sequence is accepted. *)
Theorem HandleRequests_capabilities_set_once (p : Peer) (requests : list Request) :
  hasCapabilities p = true ->
  hasCapabilities (fst (HandleRequests p requests)) = true
  /\ capabilities (fst (HandleRequests p requests)) = capabilities p
  /\ forall c,
       ~ In (RequestAccept (CapabilitiesJson c)) (snd (HandleRequests p requests)).
Proof.
  forget_collaborators.
  revert p.
  induction requests as [|request rest IH]; intros p Hc; simpl.
  - repeat split; auto.
  - destruct (HandleRequest_capabilities_kept p request Hc) as [Hc' Hcaps].
    assert (Hnone : forall c,
              ~ In (RequestAccept (CapabilitiesJson c)) (trace (HandleRequest p request))).
    { intros c. unfold HandleRequest.
      destruct (methodId request) eqn:Hm.
      1: { unfold HandleRequest_PEER_CLOSE. rewrite Destroy_spec. simpl.
           rewrite !in_app_iff, !in_map_iff. simpl.
           intros H; repeat (destruct H as [H|H]);
             try (destruct H as (x & H & _)); try discriminate; contradiction. }
      all: unfold_handlers; rewrite ?Hc;
        repeat match goal with
          | |- context [match ?x with _ => _ end] => destruct x eqn:?
          end;
        simpl; intuition discriminate. }
    destruct (takes_next_request request (outcome (HandleRequest p request))).
    + specialize (IH _ Hc'). destruct IH as (H1 & H2 & H3).
      destruct (HandleRequests (peer_after (HandleRequest p request)) rest)
        as [p' t] eqn:Hrest.
      simpl in *. repeat split; [exact H1 | congruence |].
      intros c Hin. apply in_app_iff in Hin as [Hin|Hin].
      * now apply (Hnone c).
      * now apply (H3 c).
    + simpl. repeat split; auto.
Qed.

(** X5. PEER_CREATE_TRANSPORT with a numeric id that is not in use, when
    the Transport can be constructed, is accepted with the new
    Transport's dump; the Transport is then found under that id, every
    other id resolves as before, Producers and Consumers are untouched,
    and the same request sent again is rejected because the Transport
    already exists. *)
Theorem PEER_CREATE_TRANSPORT_then_duplicate (p : Peer) (request : Request) (id : Z) :
  methodId request = PEER_CREATE_TRANSPORT ->
  GetTransportFromRequest p request = inr (None, id) ->
  Transport_new id (data request) = None ->
  let created := {| transportId := id; remb := false |} in
  let r := HandleRequest p request in
  outcome r = Returned
  /\ trace r = [RequestAccept (TransportJson created)]
  /\ map_find id (transports (peer_after r)) = Some created
  /\ (forall k, k <> id ->
        map_find k (transports (peer_after r)) = map_find k (transports p))
  /\ producers (peer_after r) = producers p
  /\ consumers (peer_after r) = consumers p
  /\ HandleRequest (peer_after r) request
     = returned (peer_after r) [RequestReject "Transport already exists"].
Proof.
  intros Hm Ht Hnew created r.
  assert (Hr : r = returned (with_transports p (map_set id created (transports p)))
                     [RequestAccept (TransportJson created)]).
  { unfold r, HandleRequest. rewrite Hm.
    unfold HandleRequest_PEER_CREATE_TRANSPORT. now rewrite Ht, Hnew. }
  rewrite Hr. simpl.
  repeat split.
  - apply map_find_set_same.
  - intros k Hk. now apply map_find_set_other.
  - unfold HandleRequest. rewrite Hm.
    unfold HandleRequest_PEER_CREATE_TRANSPORT.
    rewrite (GetTransportFromRequest_id p _ request None id Ht). simpl.
    now rewrite map_find_set_same.
Qed.

(** X6. PEER_CREATE_PRODUCER on a Peer with capabilities, with a numeric
    producer id not in use, the id of an existing Transport and a valid
    kind, is accepted: the Producer is stored under its id with that
    kind and bound to the Transport, every other Producer and every
    Transport is as before, and the same request sent again is rejected
    because the Producer already exists. *)
Theorem PEER_CREATE_PRODUCER_then_duplicate (p : Peer) (request : Request)
  (id tid : Z) (transport : Transport) (kind : Kind) :
  methodId request = PEER_CREATE_PRODUCER ->
  hasCapabilities p = true ->
  GetProducerFromRequest p request = inr (None, id) ->
  GetTransportFromRequest p request = inr (Some transport, tid) ->
  Json.isString (Json.get (data request) "kind") = true ->
  Media_GetKind (Json.asString (Json.get (data request) "kind")) = inr kind ->
  let created :=
    {| producerId := id; producer_kind := kind;
       producer_transport := Some (transportId transport) |} in
  let r := HandleRequest p request in
  outcome r = Returned
  /\ trace r = [ProducerSetTransport id (transportId transport); RequestAccept NoPayload]
  /\ map_find id (producers (peer_after r)) = Some created
  /\ (forall k, k <> id ->
        map_find k (producers (peer_after r)) = map_find k (producers p))
  /\ transports (peer_after r) = transports p
  /\ consumers (peer_after r) = consumers p
  /\ HandleRequest (peer_after r) request
     = returned (peer_after r) [RequestReject "Producer already exists"].
Proof.
  intros Hm Hc Hp Ht Hs Hk created r.
  assert (Hr : r = returned
                     (with_producers p
                        (map_set id created
                           (map_set id
                              {| producerId := id; producer_kind := kind;
                                 producer_transport := None |} (producers p))))
                     [ProducerSetTransport id (transportId transport);
                      RequestAccept NoPayload]).
  { unfold r, HandleRequest. rewrite Hm.
    unfold HandleRequest_PEER_CREATE_PRODUCER. now rewrite Hc, Hp, Ht, Hs, Hk. }
  rewrite Hr. simpl.
  repeat split.
  - apply map_find_set_same.
  - intros k Hne. now rewrite !map_find_set_other.
  - unfold HandleRequest. rewrite Hm.
    unfold HandleRequest_PEER_CREATE_PRODUCER. simpl. rewrite Hc. simpl.
    rewrite (GetProducerFromRequest_id p _ request None id Hp). simpl.
    now rewrite map_find_set_same.
Qed.

(** X7. Closing through a request. On a well-formed Peer a
    TRANSPORT_CLOSE that names one of its Transports is handed to the
    Transport, unanswered by the Peer, and OnTransportClosed has run
    when HandleRequest returns: the Transport has left the Peer, no
    Producer or Consumer refers to it and none was removed, and the Peer
    is well-formed. After that every TRANSPORT_* request naming the id
    is rejected because the Transport does not exist, and a
    PEER_CREATE_TRANSPORT with the id is accepted again. Likewise a
    PRODUCER_CLOSE that names one of the Producers is handed to it and
    OnProducerClosed has run when HandleRequest returns: the Producer
    has left the Peer, the rest is as before, and every PRODUCER_*
    request naming the id is rejected because the Producer does not
    exist. *)
Theorem delegated_close_frees_the_id (p : Peer) (request : Request) :
  well_formed p ->
  (forall transport id,
     methodId request = TRANSPORT_CLOSE ->
     GetTransportFromRequest p request = inr (Some transport, id) ->
     let r := HandleRequest p request in
     outcome r = Returned
     /\ trace r
        = [TransportHandleRequest id request (snd (OnTransportClosed p transport))]
     /\ well_formed (peer_after r)
     /\ map_find id (transports (peer_after r)) = None
     /\ (forall k, k <> id ->
           map_find k (transports (peer_after r)) = map_find k (transports p))
     /\ (forall k x, In (k, x) (producers (peer_after r)) ->
           producer_transport x <> Some id)
     /\ (forall k c, In (k, c) (consumers (peer_after r)) ->
           consumer_transport c <> Some id)
     /\ map_keys (producers (peer_after r)) = map_keys (producers p)
     /\ map_keys (consumers (peer_after r)) = map_keys (consumers p)
     /\ (forall later found,
           In (methodId later)
              [TRANSPORT_CLOSE; TRANSPORT_DUMP; TRANSPORT_SET_REMOTE_DTLS_PARAMETERS;
               TRANSPORT_SET_MAX_BITRATE; TRANSPORT_CHANGE_UFRAG_PWD] ->
           GetTransportFromRequest p later = inr (found, id) ->
           HandleRequest (peer_after r) later
           = returned (peer_after r) [RequestReject "Transport does not exist"])
     /\ (forall create found,
           methodId create = PEER_CREATE_TRANSPORT ->
           GetTransportFromRequest p create = inr (found, id) ->
           Transport_new id (data create) = None ->
           trace (HandleRequest (peer_after r) create)
           = [RequestAccept (TransportJson {| transportId := id; remb := false |})]))
  /\ (forall producer id,
        methodId request = PRODUCER_CLOSE ->
        GetProducerFromRequest p request = inr (Some producer, id) ->
        let r := HandleRequest p request in
        outcome r = Returned
        /\ trace r
           = [ProducerHandleRequest id request (snd (OnProducerClosed p producer))]
        /\ well_formed (peer_after r)
        /\ map_find id (producers (peer_after r)) = None
        /\ (forall k, k <> id ->
              map_find k (producers (peer_after r)) = map_find k (producers p))
        /\ transports (peer_after r) = transports p
        /\ consumers (peer_after r) = consumers p
        /\ (forall later found,
              In (methodId later)
                 [PRODUCER_CLOSE; PRODUCER_DUMP; PRODUCER_RECEIVE;
                  PRODUCER_SET_RTP_RAW_EVENT; PRODUCER_SET_RTP_OBJECT_EVENT;
                  PRODUCER_SET_TRANSPORT] ->
              GetProducerFromRequest p later = inr (found, id) ->
              HandleRequest (peer_after r) later
              = returned (peer_after r) [RequestReject "Producer does not exist"])).
Proof.
  intros Hwf. split.
  - intros transport id Hm Hget r. subst r.
    pose proof (GetTransportFromRequest_found _ _ _ _ Hget) as Hfind.
    destruct (well_formed_found_transport p id transport Hwf Hfind) as [Hid _].
    assert (Hr : HandleRequest p request
                 = returned (fst (OnTransportClosed p transport))
                     [TransportHandleRequest id request
                        (snd (OnTransportClosed p transport))]).
    { unfold HandleRequest. rewrite Hm.
      unfold HandleRequest_TRANSPORT. rewrite Hget, Hm, Hid.
      destruct (OnTransportClosed p transport). reflexivity. }
    rewrite Hr. unfold returned. cbn [outcome trace peer_after].
    pose proof (OnTransportClosed_well_formed p transport Hwf) as Hwf'.
    destruct (OnTransportClosed_maps p transport) as (Ht & Hp & Hc & _).
    set (p' := fst (OnTransportClosed p transport)) in *.
    assert (Hgone : map_find id (transports p') = None)
      by (rewrite Ht, Hid; apply map_find_erase_same).
    split; [reflexivity|]. split; [reflexivity|]. split; [exact Hwf'|].
    split; [exact Hgone|].
    split; [intros k Hk; rewrite Ht, Hid; now apply map_find_erase_other|].
    split.
    { intros k x H. rewrite Hp in H.
      apply (In_map_snd (fun x => Producer_RemoveTransport x transport)) in H
        as (x0 & _ & ->).
      rewrite <- Hid. apply Producer_RemoveTransport_spec. }
    split.
    { intros k c H. rewrite Hc in H.
      apply (In_map_snd (fun c => Consumer_RemoveTransport c transport)) in H
        as (c0 & _ & ->).
      rewrite <- Hid. apply Consumer_RemoveTransport_spec. }
    split; [rewrite Hp; apply (map_keys_map_snd (fun x => Producer_RemoveTransport x transport))|].
    split; [rewrite Hc; apply (map_keys_map_snd (fun c => Consumer_RemoveTransport c transport))|].
    split.
    + intros later found Hlater Hnames.
      assert (Hget' : GetTransportFromRequest p' later = inr (None, id))
        by (rewrite (GetTransportFromRequest_id p p' later found id Hnames);
            now rewrite Hgone).
      unfold HandleRequest. simpl in Hlater.
      repeat (destruct Hlater as [Hlater|Hlater]); try contradiction;
        rewrite <- Hlater; unfold HandleRequest_TRANSPORT; now rewrite Hget'.
    + intros create found Hcreate Hnames Hnew.
      assert (Hget' : GetTransportFromRequest p' create = inr (None, id))
        by (rewrite (GetTransportFromRequest_id p p' create found id Hnames);
            now rewrite Hgone).
      unfold HandleRequest. rewrite Hcreate.
      unfold HandleRequest_PEER_CREATE_TRANSPORT. now rewrite Hget', Hnew.
  - intros producer id Hm Hget r. subst r.
    pose proof (GetProducerFromRequest_found _ _ _ _ Hget) as Hfind.
    assert (Hid : producerId producer = id)
      by (apply (wf_producer_ids p Hwf); now apply map_find_In).
    assert (Hr : HandleRequest p request
                 = returned (fst (OnProducerClosed p producer))
                     [ProducerHandleRequest id request
                        (snd (OnProducerClosed p producer))]).
    { unfold HandleRequest. rewrite Hm.
      unfold HandleRequest_PRODUCER. rewrite Hget, Hm, Hid. reflexivity. }
    rewrite Hr. unfold returned. cbn [outcome trace peer_after].
    pose proof (OnProducerClosed_well_formed p producer Hwf) as Hwf'.
    set (p' := fst (OnProducerClosed p producer)) in *.
    assert (Hgone : map_find id (producers p') = None)
      by (unfold p'; simpl; rewrite Hid; apply map_find_erase_same).
    split; [reflexivity|]. split; [reflexivity|]. split; [exact Hwf'|].
    split; [exact Hgone|].
    split; [intros k Hk; unfold p'; simpl; rewrite Hid;
            now apply map_find_erase_other|].
    split; [reflexivity|]. split; [reflexivity|].
    intros later found Hlater Hnames.
    assert (Hget' : GetProducerFromRequest p' later = inr (None, id))
      by (rewrite (GetProducerFromRequest_id p p' later found id Hnames);
          now rewrite Hgone).
    unfold HandleRequest. simpl in Hlater.
    repeat (destruct Hlater as [Hlater|Hlater]); try contradiction;
      rewrite <- Hlater;
      unfold HandleRequest_PRODUCER, HandleRequest_PRODUCER_SET_TRANSPORT;
      now rewrite Hget'.
Qed.

(** ** The random factor at its ends *)

(* The product of an integer below 2^22 with a factor between lo / 2 and
   hi / 2, truncated. *)
Lemma mul_to_uint_halves (base : Z) (mc : positive) (ec lo hi : Z) :
  0 <= base < 2 ^ 22 ->
  ec = -24 \/ ec = -23 ->
  2 ^ 23 <= Zpos mc < 2 ^ 24 ->
  1 <= lo -> hi <= 3 ->
  lo * 2 ^ (- ec - 1) <= Zpos mc <= hi * 2 ^ (- ec - 1) ->
  lo * base / 2
  <= Float32.to_uint (Float32.mul (Float32.of_uint base) (S754_finite false mc ec))
  <= hi * base / 2.
Proof.
  intros [Hb0 Hb] Hec Hmc Hlo Hhi Hc.
  destruct (Z.eq_dec base 0) as [->|Hnz].
  { change (Float32.to_uint
              (Float32.mul (Float32.of_uint 0) (S754_finite false mc ec))) with 0.
    rewrite !Z.mul_0_r, Z.div_0_l; lia. }
  destruct (of_uint_exact base) as (mb & k & -> & Hk & Hmb & Hmbr); [lia|].
  assert (Hk2 : 2 <= k).
  { destruct (Z_lt_le_dec k 2) as [H|H]; [|assumption].
    assert (2 ^ k <= 2 ^ 1) by (apply Z.pow_le_mono_r; lia).
    change (2 ^ 1) with 2 in *. nia. }
  set (u := 2 ^ (k - 2)).
  assert (Hu : 0 < u) by (apply Z.pow_pos_nonneg; lia).
  assert (Hpk : 2 ^ k = 4 * u).
  { replace k with (2 + (k - 2)) at 1 by lia.
    rewrite Z.pow_add_r by lia. reflexivity. }
  unfold Float32.mul, Float32.prec, Float32.emax, SFmul.
  cbn [xorb].
  set (P := (mb * mc)%positive).
  assert (HP : Zpos P = Zpos mb * Zpos mc) by reflexivity.
  assert (HPlo : 2 ^ 46 <= Zpos P) by (change (2 ^ 46) with (2 ^ 23 * 2 ^ 23); nia).
  assert (HPhi : Zpos P < 2 ^ 48) by (change (2 ^ 48) with (2 ^ 24 * 2 ^ 24); nia).
  destruct (digits2_pos_bounds P) as [Dlo Dhi].
  assert (Hdp : Zpos (digits2_pos P) = 47 \/ Zpos (digits2_pos P) = 48).
  { destruct (Z_lt_le_dec (Zpos (digits2_pos P)) 47) as [H|H].
    - assert (2 ^ Zpos (digits2_pos P) <= 2 ^ 46) by (apply Z.pow_le_mono_r; lia). lia.
    - destruct (Z_lt_le_dec 48 (Zpos (digits2_pos P))) as [H'|H']; [|lia].
      assert (2 ^ 48 <= 2 ^ (Zpos (digits2_pos P) - 1)) by (apply Z.pow_le_mono_r; lia).
      lia. }
  destruct (binary_round_aux_normal P (- k + ec)) as (m & e & -> & He & Hv & Hm);
    try lia.
  rewrite (to_uint_scaled m e (- k + ec)) by lia.
  set (V := Zpos m * 2 ^ (e - (- k + ec))) in *.
  set (n := Zpos (digits2_pos P) - 24) in *.
  set (pc := 2 ^ (- ec - 1)) in *.
  assert (Hpc : 0 < pc) by (apply Z.pow_pos_nonneg; lia).
  assert (HK : 2 ^ (- (- k + ec)) = 2 * (4 * u * pc)).
  { replace (- (- k + ec)) with (1 + (k + (- ec - 1))) by lia.
    rewrite !Z.pow_add_r, Hpk by lia. reflexivity. }
  rewrite HK.
  set (X := base * (4 * u * pc)).
  assert (HXP : lo * X <= Zpos P <= hi * X) by (unfold X; nia).
  assert (Hmult : exists A, 0 <= A /\ X = A * 2 ^ n).
  { unfold X, pc.
    destruct Hec as [-> | ->], Hdp as [Hd | Hd]; unfold n; rewrite Hd.
    - exists (base * u * 4). split; [nia|].
      change (2 ^ (- -24 - 1)) with (2 ^ 23). change (2 ^ (47 - 24)) with (2 ^ 23). lia.
    - exists (base * u * 2). split; [nia|].
      change (2 ^ (- -24 - 1)) with (2 ^ 23). change (2 ^ (48 - 24)) with (2 * 2 ^ 23). lia.
    - exists (base * u * 2). split; [nia|].
      change (2 ^ (- -23 - 1)) with (2 ^ 22). change (2 ^ (47 - 24)) with (2 * 2 ^ 22). lia.
    - exists (base * u * 1). split; [nia|].
      change (2 ^ (- -23 - 1)) with (2 ^ 22). change (2 ^ (48 - 24)) with (4 * 2 ^ 22). lia. }
  destruct Hmult as (A & HA & HXA).
  assert (Hpn : 0 < 2 ^ n) by (apply Z.pow_pos_nonneg; lia).
  assert (Hfloor : lo * X <= Zpos P / 2 ^ n * 2 ^ n).
  { rewrite HXA. replace (lo * (A * 2 ^ n)) with (lo * A * 2 ^ n) by lia.
    apply Z.mul_le_mono_nonneg_r; [lia|].
    apply Z.div_le_lower_bound; lia. }
  assert (Hceil : (Zpos P + 2 ^ n - 1) / 2 ^ n * 2 ^ n <= hi * X).
  { rewrite HXA.
    replace (hi * (A * 2 ^ n)) with (hi * A * 2 ^ n) by lia.
    apply Z.mul_le_mono_nonneg_r; [lia|].
    assert ((Zpos P + 2 ^ n - 1) / 2 ^ n < hi * A + 1)
      by (apply Z.div_lt_upper_bound; lia).
    lia. }
  assert (HX0 : 0 < 4 * u * pc) by nia.
  split.
  - replace (lo * base / 2) with (lo * X / (2 * (4 * u * pc))).
    + apply Z.div_le_mono; lia.
    + unfold X. rewrite Z.mul_assoc. now rewrite Z.div_mul_cancel_r by lia.
  - replace (hi * base / 2) with (hi * X / (2 * (4 * u * pc))).
    + apply Z.div_le_mono; lia.
    + unfold X. rewrite Z.mul_assoc. now rewrite Z.div_mul_cancel_r by lia.
Qed.

(** X22. The ends of the random factor are met exactly: for an interval
    below 2^22 ms, the random integer 5 re-arms the timer with half the
    interval rounded down, 10 with the interval itself, and 15 with
    three halves of it rounded down; single precision loses nothing
    there. *)
Theorem OnTimer_jitter_at_5_10_15 (interval : Z) :
  0 <= interval < 2 ^ 22 ->
  OnTimer_jitter interval 5 = interval / 2
  /\ OnTimer_jitter interval 10 = interval
  /\ OnTimer_jitter interval 15 = 3 * interval / 2.
Proof.
  intros Hi. unfold OnTimer_jitter.
  change (Float32.div (Float32.of_uint 5) (Float32.of_uint 10))
    with (S754_finite false 8388608 (-24)).
  change (Float32.div (Float32.of_uint 10) (Float32.of_uint 10))
    with (S754_finite false 8388608 (-23)).
  change (Float32.div (Float32.of_uint 15) (Float32.of_uint 10))
    with (S754_finite false 12582912 (-23)).
  pose proof (mul_to_uint_halves interval 8388608 (-24) 1 1 Hi
                ltac:(now left) ltac:(vm_compute; split; [discriminate|reflexivity])
                ltac:(lia) ltac:(lia)
                ltac:(vm_compute; split; discriminate)) as H5.
  pose proof (mul_to_uint_halves interval 8388608 (-23) 2 2 Hi
                ltac:(now right) ltac:(vm_compute; split; [discriminate|reflexivity])
                ltac:(lia) ltac:(lia)
                ltac:(vm_compute; split; discriminate)) as H10.
  pose proof (mul_to_uint_halves interval 12582912 (-23) 3 3 Hi
                ltac:(now right) ltac:(vm_compute; split; [discriminate|reflexivity])
                ltac:(lia) ltac:(lia)
                ltac:(vm_compute; split; discriminate)) as H15.
  rewrite Z.mul_1_l in H5.
  replace (2 * interval / 2) with interval in H10
    by (rewrite Z.mul_comm, Z.div_mul by lia; reflexivity).
  lia.
Qed.
End PeerModel.

(** * The properties on a concrete Peer *)

Import Scenario.

(** C3. A tick of SendRtcp in which the compound of the first Transport
    is too big for the RTCP buffer: Consumer 200 on Transport 10
    contributes a sender report of 70000 bytes, the warning is logged,
    and SendRtcp returns. Consumer 201 on Transport 11 is never asked for
    its RTCP and nothing is sent on Transport 11, although Transport 11
    on its own sends a compound of 52 bytes. *)
Theorem SendRtcp_oversize_ends_the_tick :
  SendRtcp consumer_rtcp producer_rtcp buffer_size alice 0
  = [ConsumerGetRtcp 200 0;
     LogWarn "cannot send RTCP packet, size too big (%zu bytes)" [70000]]
  /\ SendRtcp consumer_rtcp producer_rtcp buffer_size alice_transport11_only 0
     = [ConsumerGetRtcp 201 0;
        TransportSendRtcpCompoundPacket 11
          {| RTCP.senderReportCount := 1;
             RTCP.receiverReportCount := 0;
             RTCP.size := 52 |}]
  /\ (forall packet,
        ~ In (TransportSendRtcpCompoundPacket 11 packet)
            (SendRtcp consumer_rtcp producer_rtcp buffer_size alice 0))
  /\ ~ In (ConsumerGetRtcp 201 0)
         (SendRtcp consumer_rtcp producer_rtcp buffer_size alice 0).
Proof.
  assert (H : SendRtcp consumer_rtcp producer_rtcp buffer_size alice 0
              = [ConsumerGetRtcp 200 0;
                 LogWarn "cannot send RTCP packet, size too big (%zu bytes)" [70000]]).
  { unfold SendRtcp.
    apply (SendRtcp_transports_return consumer_rtcp producer_rtcp buffer_size
             alice 0 10 transport10 [(11, transport11)]).
    reflexivity. }
  rewrite H.
  split; [reflexivity|].
  split; [reflexivity|].
  split.
  - intros packet [E|[E|[]]]; discriminate.
  - intros [E|[E|[]]]; discriminate.
Qed.

Lemma PEER_CREATE_PRODUCER_missing_kind_witness :
  HandleRequest capabilities_new on_capabilities consumer_send transport_new add_producer
    alice create_producer_without_kind
  = {| outcome := Thrown "missing kind"; peer_after := alice; trace := [] |}
  /\ answers
       (trace
          (HandleRequest capabilities_new on_capabilities consumer_send transport_new add_producer
             alice create_producer_without_kind))
     = 0%nat.
Proof.
  apply (PEER_CREATE_PRODUCER_missing_kind_throws
           capabilities_new on_capabilities consumer_send transport_new add_producer
           alice create_producer_without_kind 101 transport10 10);
    reflexivity.
Defined.

Lemma PSFB_full_frame_feedback_dispatch_witness :
  exists contribution,
    OnTransportRtcpPacket get_producer alice transport10
      ([RTCP.BYE] ++ RTCP.PSFB pli_1000 :: [RTCP.BYE])
    = OnTransportRtcpPacket get_producer alice transport10 [RTCP.BYE]
      ++ contribution
      ++ OnTransportRtcpPacket get_producer alice transport10 [RTCP.BYE]
    /\ upcalls contribution = [OnPeerRtcpFeedback 200 pli_1000]
    /\ warnings contribution = [].
Proof.
  destruct (PSFB_full_frame_feedback_dispatch get_producer alice transport10
              [RTCP.BYE] [RTCP.BYE] pli_1000 (or_introl eq_refl))
    as (contribution & Htrace & Hcases).
  exists contribution. split; [exact Htrace | exact Hcases].
Defined.

Lemma RTPFB_NACK_reaches_consumer_witness :
  active consumer201 = false
  /\ OnTransportRtcpPacket get_producer alice transport11
       ([] ++ RTCP.RTPFB nack_2001 :: [RTCP.BYE])
     = OnTransportRtcpPacket get_producer alice transport11 []
       ++ [ConsumerReceiveNack 201 nack_2001]
       ++ OnTransportRtcpPacket get_producer alice transport11 [RTCP.BYE].
Proof.
  split; [reflexivity|].
  apply (RTPFB_NACK_reaches_consumer get_producer alice transport11
           [] [RTCP.BYE] nack_2001 consumer201); reflexivity.
Defined.

Lemma PEER_SET_CAPABILITIES_set_once_witness :
  let r :=
    HandleRequest capabilities_new on_capabilities_installing_300 consumer_send
      transport_new add_producer bob set_capabilities in
  hasCapabilities (peer_after r) = true
  /\ capabilities (peer_after r) = data set_capabilities
  /\ trace r
     = [OnPeerCapabilities 2
          [ConsumerSetPeerCapabilities 300; ConsumerSend 300; EmitNewConsumer 2 300 100];
        RequestAccept (CapabilitiesJson (data set_capabilities))]
  /\ map_find 300 (consumers (peer_after r))
     = Some (consumer_send (data set_capabilities) consumer300
               {| encodings := [encoding 3000] |})
  /\ HandleRequest capabilities_new on_capabilities_installing_300 consumer_send
       transport_new add_producer (peer_after r) set_capabilities
     = returned (peer_after r) [RequestReject "peer capabilities already set"].
Proof.
  intros r.
  destruct (PEER_SET_CAPABILITIES_set_once
              capabilities_new on_capabilities_installing_300 consumer_send
              transport_new add_producer bob set_capabilities eq_refl)
    as (_ & Hfirst & Hsecond).
  destruct (Hfirst eq_refl)
    as (Hhas & Hcaps & _ & _ & _ & _ & (calls & ok & Hadded & Hanswer) & _).
  simpl in Hadded. injection Hadded as <- <-.
  destruct Hanswer as (_ & Htrace & _ & Hfound).
  split; [exact Hhas|].
  split; [exact Hcaps|].
  split; [exact Htrace|].
  split.
  - destruct Hfound as [_ Hadded].
    + intros a [<-|[]]. reflexivity.
    + exact (Hadded _ (or_introl eq_refl)).
  - exact (Hsecond set_capabilities eq_refl eq_refl).
Defined.

Lemma PRODUCER_SET_TRANSPORT_AddProducer_first_witness :
  HandleRequest capabilities_new on_capabilities consumer_send transport_new add_producer_refused
    alice set_transport_100_to_11
  = returned alice
      [TransportAddProducer 11 100;
       RequestReject "ssrc already exists in RTP listener"]
  /\ map_find 100
       (producers
          (peer_after
             (HandleRequest capabilities_new on_capabilities consumer_send transport_new
                add_producer_refused alice set_transport_100_to_11)))
     = Some producer100
  /\ producer_transport producer100 = Some 10.
Proof.
  destruct (PRODUCER_SET_TRANSPORT_AddProducer_first
              capabilities_new on_capabilities consumer_send transport_new add_producer_refused
              alice set_transport_100_to_11 producer100 100 transport11 11
              eq_refl eq_refl eq_refl)
    as (_ & _ & Hthrows).
  destruct (Hthrows "ssrc already exists in RTP listener" eq_refl)
    as (Hresult & Hproducer & _).
  split; [exact Hresult|]. split; [exact Hproducer | reflexivity].
Defined.

Lemma PRODUCER_SET_TRANSPORT_REMB_carry_over_witness :
  trace
    (HandleRequest capabilities_new on_capabilities consumer_send transport_new add_producer
       alice set_transport_100_to_11)
  = [TransportAddProducer 11 100;
     TransportEnableRemb 11;
     ProducerSetTransport 100 11;
     RequestAccept NoPayload]
  /\ trace
       (HandleRequest capabilities_new on_capabilities consumer_send transport_new add_producer
          alice_without_remb set_transport_100_to_10)
     = [TransportAddProducer 10 100;
        ProducerSetTransport 100 10;
        RequestAccept NoPayload].
Proof.
  split.
  - destruct (PRODUCER_SET_TRANSPORT_REMB_carry_over
                capabilities_new on_capabilities consumer_send transport_new add_producer
                alice set_transport_100_to_11 producer100 100 transport11 11
                eq_refl eq_refl eq_refl eq_refl)
      as (Hremb & _).
    destruct (Hremb 10 transport10 eq_refl eq_refl eq_refl) as (_ & Htrace & _).
    exact Htrace.
  - destruct (PRODUCER_SET_TRANSPORT_REMB_carry_over
                capabilities_new on_capabilities consumer_send transport_new add_producer
                alice_without_remb set_transport_100_to_10
                {| producerId := 100; producer_kind := VIDEO;
                   producer_transport := Some 11 |}
                100 transport10 10
                eq_refl eq_refl eq_refl eq_refl)
      as (_ & Hnone).
    destruct Hnone as (_ & Htrace & _).
    + right. exists 11, transport11. repeat split.
    + exact Htrace.
Defined.

(** C2, where the truncation shows: with one Consumer sending 8 Mbit/s
    the summed rate is 8000 kbps and the base interval 360000 / 8000 =
    45 ms; the random integer 5 re-arms the timer with 22 ms, which is
    less than half of 45 ms, so the re-armed interval is not within
    [0.5, 1.5] times the base. *)
Lemma OnTimer_interval_below_half :
  OnTimer consumer_rtcp producer_rtcp transmission_rate buffer_size
    max_video_interval alice 0 5
  = SendRtcp consumer_rtcp producer_rtcp buffer_size alice 0 ++ [TimerStart 22]
  /\ summed_rate_kbps transmission_rate 0 (consumers alice) = 8000
  /\ Z.min max_video_interval (360000 / 8000) = 45
  /\ ~ (5 * 45 <= 10 * 22 <= 15 * 45).
Proof.
  split; [vm_compute; reflexivity|].
  split; [reflexivity|].
  split; [reflexivity|].
  lia.
Qed.

Lemma OnTimer_interval_law_witness :
  exists next,
    OnTimer consumer_rtcp producer_rtcp transmission_rate buffer_size
      max_video_interval alice 0 5
    = SendRtcp consumer_rtcp producer_rtcp buffer_size alice 0 ++ [TimerStart next]
    /\ 45 / 2 <= next <= 3 * 45 / 2.
Proof.
  assert (HM : 0 <= max_video_interval < 2 ^ 22) by (unfold max_video_interval; lia).
  assert (Hr : 5 <= 5 <= 15) by lia.
  destruct (OnTimer_interval_law consumer_rtcp producer_rtcp transmission_rate
              buffer_size max_video_interval alice 0 5 HM Hr)
    as (_ & _ & _ & next & Htrace & _ & Hrange).
  exists next. split; [exact Htrace | exact Hrange].
Defined.

(** ** The further properties on concrete Peers *)

Lemma alice_well_formed : well_formed alice.
Proof.
  constructor; simpl.
  - repeat constructor; simpl; intuition discriminate.
  - repeat constructor; simpl; intuition discriminate.
  - repeat constructor; simpl; intuition discriminate.
  - intros k t [H|[H|[]]]; injection H as <- <-; reflexivity.
  - intros k x [H|[]]; injection H as <- <-; reflexivity.
  - intros k c [H|[H|[]]]; injection H as <- <-; reflexivity.
  - intros k x t [H|[]] Ht; injection H as <- <-; injection Ht as <-; auto.
  - intros k c t [H|[H|[]]] Ht; injection H as <- <-; injection Ht as <-; auto.
Qed.

Lemma HandleRequests_keep_well_formed_witness :
  well_formed
    (fst (HandleRequests capabilities_new on_capabilities_installing_300 consumer_send
            transport_new add_producer bob
            [set_capabilities; create_transport_10; create_producer_without_kind;
             close_transport_10])).
Proof.
  refine (proj1 (HandleRequests_keep_well_formed
                   capabilities_new on_capabilities_installing_300 consumer_send
                   transport_new add_producer max_video_interval bob
                   [set_capabilities; create_transport_10; create_producer_without_kind;
                    close_transport_10] _ _)).
  - intros q c a t [<-|[]] H. simpl in H. discriminate H.
  - constructor; simpl; try constructor; intros; contradiction.
Defined.


Lemma HandleRequest_rejected_unchanged_witness :
  peer_after
    (HandleRequest capabilities_new on_capabilities consumer_send transport_new add_producer_refused
       alice set_transport_100_to_11)
  = alice.
Proof.
  apply (HandleRequest_rejected_unchanged
           capabilities_new on_capabilities consumer_send transport_new add_producer_refused
           alice set_transport_100_to_11).
  left. reflexivity.
Defined.

Lemma HandleRequests_capabilities_set_once_witness :
  hasCapabilities
    (fst (HandleRequests capabilities_new on_capabilities consumer_send transport_new add_producer
            alice [set_capabilities; create_video_producer_101]))
  = true
  /\ capabilities
       (fst (HandleRequests capabilities_new on_capabilities consumer_send transport_new add_producer
               alice [set_capabilities; create_video_producer_101]))
     = capabilities alice
  /\ forall c,
       ~ In (RequestAccept (CapabilitiesJson c))
           (snd (HandleRequests capabilities_new on_capabilities consumer_send transport_new
                   add_producer alice [set_capabilities; create_video_producer_101])).
Proof.
  apply (HandleRequests_capabilities_set_once
           capabilities_new on_capabilities consumer_send transport_new add_producer
           alice [set_capabilities; create_video_producer_101]).
  reflexivity.
Defined.

Lemma PEER_CREATE_TRANSPORT_then_duplicate_witness :
  trace
    (HandleRequest capabilities_new on_capabilities consumer_send transport_new add_producer
       bob create_transport_7)
  = [RequestAccept (TransportJson {| transportId := 7; remb := false |})]
  /\ HandleRequest capabilities_new on_capabilities consumer_send transport_new add_producer
       (peer_after
          (HandleRequest capabilities_new on_capabilities consumer_send transport_new add_producer
             bob create_transport_7))
       create_transport_7
     = returned
         (peer_after
            (HandleRequest capabilities_new on_capabilities consumer_send transport_new
               add_producer bob create_transport_7))
         [RequestReject "Transport already exists"].
Proof.
  destruct (PEER_CREATE_TRANSPORT_then_duplicate
              capabilities_new on_capabilities consumer_send transport_new add_producer
              bob create_transport_7 7 eq_refl eq_refl eq_refl)
    as (_ & Htrace & _ & _ & _ & _ & Hagain).
  split; [exact Htrace | exact Hagain].
Defined.

Lemma PEER_CREATE_PRODUCER_then_duplicate_witness :
  map_find 101
    (producers
       (peer_after
          (HandleRequest capabilities_new on_capabilities consumer_send transport_new add_producer
             alice create_video_producer_101)))
  = Some {| producerId := 101; producer_kind := VIDEO; producer_transport := Some 10 |}
  /\ HandleRequest capabilities_new on_capabilities consumer_send transport_new add_producer
       (peer_after
          (HandleRequest capabilities_new on_capabilities consumer_send transport_new add_producer
             alice create_video_producer_101))
       create_video_producer_101
     = returned
         (peer_after
            (HandleRequest capabilities_new on_capabilities consumer_send transport_new
               add_producer alice create_video_producer_101))
         [RequestReject "Producer already exists"].
Proof.
  destruct (PEER_CREATE_PRODUCER_then_duplicate
              capabilities_new on_capabilities consumer_send transport_new add_producer
              alice create_video_producer_101 101 10 transport10 VIDEO
              eq_refl eq_refl eq_refl eq_refl eq_refl eq_refl)
    as (_ & _ & Hfound & _ & _ & _ & Hagain).
  split; [exact Hfound | exact Hagain].
Defined.

Lemma delegated_close_frees_the_id_witness :
  let r :=
    HandleRequest capabilities_new on_capabilities consumer_send transport_new
      add_producer alice close_transport_10 in
  map_find 10 (transports (peer_after r)) = None
  /\ HandleRequest capabilities_new on_capabilities consumer_send transport_new
       add_producer (peer_after r) close_transport_10
     = returned (peer_after r) [RequestReject "Transport does not exist"]
  /\ trace
       (HandleRequest capabilities_new on_capabilities consumer_send transport_new
          add_producer (peer_after r) create_transport_10)
     = [RequestAccept (TransportJson {| transportId := 10; remb := false |})].
Proof.
  intros r.
  destruct (delegated_close_frees_the_id
              capabilities_new on_capabilities consumer_send transport_new add_producer
              alice close_transport_10 alice_well_formed)
    as [Htransport _].
  destruct (Htransport transport10 10 eq_refl eq_refl)
    as (_ & _ & _ & Hgone & _ & _ & _ & _ & _ & Hlater & Hcreate).
  split; [exact Hgone|].
  split.
  - apply (Hlater close_transport_10 (Some transport10)); [simpl; auto | reflexivity].
  - apply (Hcreate create_transport_10 (Some transport10)); reflexivity.
Defined.

Lemma GetConsumer_order_independent_witness :
  GetConsumer alice 2001 = GetConsumer alice_reversed 2001.
Proof.
  apply (GetConsumer_order_independent alice alice_reversed 2001).
  - apply perm_swap.
  - simpl. intros c1 c2 [<-|[<-|[]]] [<-|[<-|[]]]; simpl; intros H1 H2;
      try reflexivity; discriminate.
Defined.

Lemma SendRtcp_sends_what_fits_witness :
  52 <= buffer_size
  /\ (1 <> 0 \/ 0 <> 0)
  /\ exists transport,
       In transport (map_values (transports alice_transport11_only))
       /\ transportId transport = 11.
Proof.
  apply (SendRtcp_sends_what_fits consumer_rtcp producer_rtcp buffer_size
           alice_transport11_only 0
           {| RTCP.senderReportCount := 1;
              RTCP.receiverReportCount := 0;
              RTCP.size := 52 |} 11).
  simpl. auto.
Defined.

Lemma SendRtcp_unbound_is_silent_witness :
  SendRtcp consumer_rtcp producer_rtcp buffer_size carol 0 = [].
Proof.
  apply (SendRtcp_unbound_is_silent consumer_rtcp producer_rtcp buffer_size carol 0).
  simpl. intros k transport [H|[]]. injection H as <- <-.
  split.
  - intros k' c [].
  - intros k' x [H|[]]. injection H as <- <-. reflexivity.
Defined.

Lemma SendRtcp_after_OnTransportClosed_witness :
  ~ In (TransportSendRtcpCompoundPacket 11
          {| RTCP.senderReportCount := 1;
             RTCP.receiverReportCount := 0;
             RTCP.size := 52 |})
      (SendRtcp consumer_rtcp producer_rtcp buffer_size
         (fst (OnTransportClosed alice transport11)) 0).
Proof.
  apply (SendRtcp_after_OnTransportClosed consumer_rtcp producer_rtcp buffer_size
           alice transport11 0).
  exact alice_well_formed.
Defined.

Lemma OnTimer_jitter_at_5_10_15_witness :
  OnTimer_jitter 45 5 = 45 / 2
  /\ OnTimer_jitter 45 10 = 45
  /\ OnTimer_jitter 45 15 = 3 * 45 / 2.
Proof.
  apply (OnTimer_jitter_at_5_10_15 45). lia.
Defined.

Lemma OnTimer_rearms_once_witness :
  exists next,
    OnTimer consumer_rtcp producer_rtcp transmission_rate buffer_size
      max_video_interval alice 0 5
    = SendRtcp consumer_rtcp producer_rtcp buffer_size alice (wrap32 0)
      ++ [TimerStart next]
    /\ 0 <= next <= 3 * max_video_interval / 2.
Proof.
  destruct (OnTimer_rearms_once consumer_rtcp producer_rtcp transmission_rate
              buffer_size max_video_interval alice 0 5)
    as (next & Htrace & _ & Hbound).
  exists next. split; [exact Htrace | ].
  apply Hbound; unfold max_video_interval; lia.
Defined.

Lemma OnTransportClosed_reference_integrity_witness :
  well_formed (fst (OnTransportClosed alice transport11)).
Proof.
  destruct (OnTransportClosed_reference_integrity alice transport11)
    as (_ & _ & _ & _ & _ & _ & _ & _ & _ & Hwf).
  exact (Hwf alice_well_formed).
Defined.

Lemma full_frame_requests_witness :
  NoDup (OnTransportConnected alice transport10)
  /\ NoDup (OnTransportFullFrameRequired alice transport10).
Proof.
  destruct (full_frame_requests alice transport10) as (_ & _ & Hwf).
  exact (Hwf alice_well_formed).
Defined.

Lemma OnProducerClosed_removes_witness :
  HandleRequest capabilities_new on_capabilities consumer_send transport_new add_producer
    (fst (OnProducerClosed alice producer100)) set_transport_100_to_11
  = returned (fst (OnProducerClosed alice producer100))
      [RequestReject "Producer does not exist"].
Proof.
  destruct (OnProducerClosed_removes
              capabilities_new on_capabilities consumer_send transport_new add_producer
              alice producer100)
    as (_ & _ & _ & _ & _ & _ & Hlater).
  apply (Hlater set_transport_100_to_11 (Some producer100)).
  - simpl. auto 10.
  - reflexivity.
Defined.

Lemma OnConsumerClosed_removes_witness :
  well_formed (fst (OnConsumerClosed alice consumer200))
  /\ GetConsumer (fst (OnConsumerClosed alice consumer200)) 2000 = Some consumer201.
Proof.
  destruct (OnConsumerClosed_removes alice consumer200) as (_ & _ & _ & _ & _ & Hwf).
  destruct (Hwf alice_well_formed) as (Hstays & _ & Hkeeps).
  split; [exact Hstays | ].
  apply Hkeeps; [reflexivity | simpl; lia].
Defined.

Lemma AddConsumer_stores_and_announces_witness :
  exists p',
    AddConsumer consumer_send alice consumer300 {| encodings := [encoding 3000] |} 100
    = Some (p', [ConsumerSetPeerCapabilities 300; ConsumerSend 300;
                 EmitNewConsumer 1 300 100])
    /\ GetConsumer p' 3000
       = Some (consumer_send Json.Null consumer300 {| encodings := [encoding 3000] |}).
Proof.
  destruct (AddConsumer_stores_and_announces consumer_send alice consumer300
              {| encodings := [encoding 3000] |} 100)
    as [_ Hfresh].
  destruct (Hfresh eq_refl eq_refl)
    as (p' & Hadded & _ & _ & _ & _ & _ & Hssrc & _).
  exists p'. split; [exact Hadded | ].
  apply Hssrc.
  - simpl. intros c [<-|[<-|[]]]; reflexivity.
  - reflexivity.
Defined.
